(** * TCanny: a shallow embedding of the portable C++ code path

    The development follows [src/TCanny/TCanny.cpp] (the branch compiled
    when [VS_TARGET_CPU_X86] is not defined).

    - [float] samples are IEEE-754 binary32 values, modelled with the
      Standard Library's [spec_float] at precision 24 and maximal exponent
      128; comparisons, products, sums and square roots are the exact
      binary32 operations.
    - [int] values are modelled as [Z]; the development assumes that the
      index arithmetic of the source stays inside the range of [int].
    - A scratch buffer is a list, a pointer into it is an index in [Z];
      a load or a store outside the allocation is undefined behaviour in
      C++ and ends the run of the model with a [Fault].
    - [std::exp] and [std::atan2] of <cmath> have no definition here:
      the stages that call them ([gaussianWeights], the direction of
      [detectEdge]) take the function as a parameter, and a theorem
      states what it needs of it. *)

From Stdlib Require Import ZArith Lia List Bool String.
From Stdlib Require Import Floats.SpecFloat.
From Stdlib Require Import Reals Lra Machin.
From stdpp Require Import base list.

Local Open Scope Z_scope.

(** ** Binary32 *)

(** A [float]. *)
Abbreviation float32 := spec_float.

Module F32.

Definition prec : Z := 24.
Definition emax : Z := 128.

Definition add : float32 -> float32 -> float32 := SFadd prec emax.
Definition sub : float32 -> float32 -> float32 := SFsub prec emax.
Definition mul : float32 -> float32 -> float32 := SFmul prec emax.
Definition div : float32 -> float32 -> float32 := SFdiv prec emax.
Definition sqrt : float32 -> float32 := SFsqrt prec emax.

(** [a < b], [a <= b] and [a == b] of C++; all three are false as soon
    as one operand is a NaN. *)
Definition ltb (a b : float32) : bool := SFltb a b.
Definition leb (a b : float32) : bool := SFleb a b.
Definition eqb (a b : float32) : bool := SFeqb a b.

(** Conversion of an [int] to [float] (round to nearest even). *)
Definition of_int (z : Z) : float32 := binary_normalize prec emax z 0 false.

(** [FLT_MAX] and [-FLT_MAX] of <cfloat>. *)
Definition FLT_MAX : float32 := SFmax_float prec emax.
Definition NEG_FLT_MAX : float32 := SFopp FLT_MAX.

Definition zero : float32 := S754_zero false.
Definition infinity : float32 := S754_infinity false.
Definition neg_infinity : float32 := S754_infinity true.

Definition is_nan (a : float32) : bool :=
  match a with S754_nan => true | _ => false end.

(** [std::max(a, b)] of <algorithm>: [(a < b) ? b : a]. *)
Definition max (a b : float32) : float32 := if ltb a b then b else a.

(** [std::min(a, b)] of <algorithm>: [(b < a) ? b : a]. *)
Definition min (a b : float32) : float32 := if ltb b a then b else a.

(** The literals [0.5f], [M_PIF] and [M_1_PIF] (the binary32 numbers
    nearest to one half, to pi and to 1/pi). *)
Definition half : float32 := S754_finite false 8388608 (-24).
Definition M_PIF : float32 := S754_finite false 13176795 (-22).
Definition M_1_PIF : float32 := S754_finite false 10680707 (-25).

Definition INT_MIN : Z := - 2 ^ 31.
Definition INT_MAX : Z := 2 ^ 31 - 1.

(** [static_cast<int>(a)]: the fractional part is dropped (the floor, for
    [a >= 0]); the conversion is undefined for a NaN, an infinity and a
    value outside the range of [int]. *)
Definition to_int (a : float32) : option Z :=
  match a with
  | S754_zero _ => Some 0
  | S754_finite s m e =>
      let z := cond_Zopp s (Z.shiftl (Z.pos m) e) in
      if (INT_MIN <=? z) && (z <=? INT_MAX) then Some z else None
  | _ => None
  end.

(** The largest integer that is not above [a]. *)
Definition floor (a : float32) : option Z :=
  match a with
  | S754_zero _ => Some 0
  | S754_finite s m e => Some (Z.shiftl (cond_Zopp s (Z.pos m)) e)
  | _ => None
  end.

End F32.

(** ** Runs that may leave the allocation *)

(** The buffer whose bounds an access left, the conversion that was out
    of range, or the [int] operation that overflowed. *)
Inductive fault : Type :=
| BlurOOB | MapOOB | StackOOB | GradientOOB | DirectionOOB | OffsetsOOB
| IntCast | PlaneOOB | WeightsOOB | IntOverflow | DstOOB | BufferOOB.

Inductive outcome (A : Type) : Type :=
| Done (a : A)
| Fault (f : fault)
| OutOfFuel.

Arguments Done {A} a.
Arguments Fault {A} f.
Arguments OutOfFuel {A}.

Definition bind {A B : Type} (m : outcome A) (k : A -> outcome B) : outcome B :=
  match m with
  | Done a => k a
  | Fault f => Fault f
  | OutOfFuel => OutOfFuel
  end.

Notation "'do' x <- m ; k" := (bind m (fun x => k))
  (at level 10, x name, m at level 100, k at level 200,
   format "'[v' 'do'  x  <-  m ; '/' k ']'").

(** [p[i]] as an rvalue and [p[i] = v], for a buffer [l]. *)
Definition load {A : Type} (f : fault) (l : list A) (i : Z) : outcome A :=
  if i <? 0 then Fault f
  else match l !! Z.to_nat i with
       | Some v => Done v
       | None => Fault f
       end.

Definition store {A : Type} (f : fault) (l : list A) (i : Z) (v : A)
  : outcome (list A) :=
  if (0 <=? i) && (i <? Z.of_nat (length l))
  then Done (<[Z.to_nat i := v]> l)
  else Fault f.

(** [for (int i = lo; i < hi; i++) body], written with the number of
    iterations [n = hi - lo]. *)
Fixpoint for_loop {S : Type} (n : nat) (i : Z) (body : Z -> S -> outcome S)
  (s : S) : outcome S :=
  match n with
  | O => Done s
  | Datatypes.S n' => do s' <- body i s; for_loop n' (i + 1) body s'
  end.

Definition for_range {S : Type} (lo hi : Z) (body : Z -> S -> outcome S)
  : S -> outcome S :=
  for_loop (Z.to_nat (hi - lo)) lo body.

(** [while (cond) body], bounded by [fuel] iterations. *)
Fixpoint while_loop {S : Type} (fuel : nat) (cond : S -> bool)
  (body : S -> outcome S) (s : S) : outcome S :=
  if cond s then
    match fuel with
    | O => OutOfFuel
    | Datatypes.S fuel' => do s' <- body s; while_loop fuel' cond body s'
    end
  else Done s.

(** ** The explicit stack and the hysteresis pass *)

Definition UINT8_MAX : Z := 255.

(** [struct Stack]: the visit mask, the array of positions and the index
    of the top entry. *)
Record Stack : Type := mkStack {
  map : list Z;
  pos : list (Z * Z);
  index : Z
}.

(** [s.pos[++s.index] = std::make_pair(x, y)] *)
Definition push (s : Stack) (x y : Z) : outcome Stack :=
  let i := index s + 1 in
  do pos' <- store StackOOB (pos s) i (x, y);
  Done (mkStack (map s) pos' i).

(** [return s.pos[s.index--]] *)
Definition pop (s : Stack) : outcome ((Z * Z) * Stack) :=
  do p <- load StackOOB (pos s) (index s);
  Done (p, mkStack (map s) (pos s) (index s - 1)).

(** [memset(p, 0, n)] on a buffer of bytes. *)
Definition memset0 (l : list Z) (n : Z) : outcome (list Z) :=
  if (0 <=? n) && (n <=? Z.of_nat (length l))
  then Done (replicate (Z.to_nat n) 0 ++ drop (Z.to_nat n) l)
  else Fault MapOOB.

(** The state of one pass: the [blur] buffer, the stack, and a ghost log
    of the arguments of every call of [push] (newest first).  The code
    never reads the log; it only serves to state how often a pixel is
    pushed. *)
Record hstate : Type := mkH {
  blur : list float32;
  stack : Stack;
  pushed : list (Z * Z)
}.

Section Hysteresis.

(** [blurp] is the index of the plane's first sample inside the scratch
    allocation ([blur + 8] in [tcannyGetFrame]). *)
Variables (blurp width height blurStride : Z).
Variables (t_h t_l : float32).

Definition bidx (x y : Z) : Z := blurp + (blurStride * y + x).
Definition midx (x y : Z) : Z := width * y + x.

(** The three statements that confirm a pixel:
    [blur[..] = FLT_MAX; stack.map[..] = UINT8_MAX; push(stack, x, y)]. *)
Definition confirm (x y : Z) (st : hstate) : outcome hstate :=
  do b <- store BlurOOB (blur st) (bidx x y) F32.FLT_MAX;
  do m <- store MapOOB (map (stack st)) (midx x y) UINT8_MAX;
  do s <- push (mkStack m (pos (stack st)) (index (stack st))) x y;
  Done (mkH b s ((x, y) :: pushed st)).

(** The body of the two innermost loops: one neighbour [(xx, yy)]. *)
Definition visit (yy xx : Z) (st : hstate) : outcome hstate :=
  do v <- load BlurOOB (blur st) (bidx xx yy);
  if F32.leb t_l v then
    do m <- load MapOOB (map (stack st)) (midx xx yy);
    if m =? 0 then confirm xx yy st else Done st
  else Done st.

(** One iteration of [while (stack.index > -1)]. *)
Definition drain_step (st : hstate) : outcome hstate :=
  do ps <- pop (stack st);
  let p := fst ps in
  for_range (snd p - 1) (snd p + 2)
    (fun yy => for_range (fst p - 1) (fst p + 2) (fun xx => visit yy xx))
    (mkH (blur st) (snd ps) (pushed st)).

Definition drain (fuel : nat) : hstate -> outcome hstate :=
  while_loop fuel (fun st => index (stack st) >? -1) drain_step.

(** The body of the two outer loops: one candidate seed [(x, y)]. *)
Definition seed (fuel : nat) (y x : Z) (st : hstate) : outcome hstate :=
  do v <- load BlurOOB (blur st) (bidx x y);
  if F32.ltb v t_h then Done st
  else
    do m <- load MapOOB (map (stack st)) (midx x y);
    if negb (m =? 0) then Done st
    else do st' <- confirm x y st; drain fuel st'.

(** [hysteresis]; [fuel] bounds the iterations of each run of the
    [while] loop. *)
Definition hysteresis (fuel : nat) (b : list float32) (s : Stack)
  : outcome hstate :=
  do m <- memset0 (map s) (width * height);
  for_range 1 (height - 1)
    (fun y => for_range 1 (width - 1) (fun x => seed fuel y x))
    (mkH b (mkStack m (pos s) (-1)) []).

End Hysteresis.

(** ** Non-maximum suppression *)

(** [getBin<int>]:
    [bin = static_cast<int>(dir * n * M_1_PIF + 0.5f); (bin >= n) ? 0 : bin]. *)
Definition getBin_arg (dir : float32) (n : Z) : float32 :=
  F32.add (F32.mul (F32.mul dir (F32.of_int n)) F32.M_1_PIF) F32.half.

Definition getBin_int (dir : float32) (n : Z) : outcome Z :=
  match F32.to_int (getBin_arg dir n) with
  | Some bin => Done (if bin >=? n then 0 else bin)
  | None => Fault IntCast
  end.

(** [std::fill_n(p, n, v)] on the buffer [l]. *)
Definition fill_n (f : fault) (l : list float32) (p n : Z) (v : float32)
  : outcome (list float32) :=
  for_range 0 n (fun i l' => store f l' (p + i) v) l.

(** The output buffer and the three pointers that the row loop advances
    ([gradient], [direction] and [blur] of the source). *)
Record nms_state : Type := mkN {
  nblur : list float32;
  gradp : Z;
  dirp : Z;
  blurq : Z
}.

Section NonMaximumSuppression.

Variables (gradient direction : list float32).
Variables (width height stride blurStride : Z).

Definition offsets : list Z := [1; - stride + 1; - stride; - stride - 1].

(** The body of the inner loop: one interior pixel of the current row. *)
Definition nms_pixel (x : Z) (st : nms_state) : outcome nms_state :=
  do d <- load DirectionOOB direction (dirp st + x);
  do bin <- getBin_int d 4;
  do offset <- load OffsetsOOB offsets bin;
  do g <- load GradientOOB gradient (gradp st + x);
  do g1 <- load GradientOOB gradient (gradp st + x + offset);
  do g2 <- load GradientOOB gradient (gradp st + x - offset);
  do b <- store BlurOOB (nblur st) (blurq st + x)
            (if F32.leb (F32.max g1 g2) g then g else F32.NEG_FLT_MAX);
  Done (mkN b (gradp st) (dirp st) (blurq st)).

(** The body of the row loop; [blur[0] = blur[width - 1] = -FLT_MAX]
    assigns right to left. *)
Definition nms_row (y : Z) (st : nms_state) : outcome nms_state :=
  do st' <- for_range 1 (width - 1) nms_pixel
              (mkN (nblur st) (gradp st + stride) (dirp st + stride)
                   (blurq st + blurStride));
  do b <- store BlurOOB (nblur st') (blurq st' + (width - 1)) F32.NEG_FLT_MAX;
  do b' <- store BlurOOB b (blurq st' + 0) F32.NEG_FLT_MAX;
  Done (mkN b' (gradp st') (dirp st') (blurq st')).

(** [nonMaximumSuppression]; [blurp] is the index of the plane's first
    sample in [blur]. *)
Definition nonMaximumSuppression (blur : list float32) (blurp : Z)
  : outcome (list float32) :=
  do b <- fill_n BlurOOB blur blurp width F32.NEG_FLT_MAX;
  do st <- for_range 1 (height - 1) nms_row (mkN b 0 0 blurp);
  fill_n BlurOOB (nblur st) (blurq st + blurStride) width F32.NEG_FLT_MAX.

End NonMaximumSuppression.

(** The magnitude that [detectEdge] stores:
    [gradient[x] = std::sqrt(gx * gx + gy * gy)]. *)
Definition gradient_magnitude (gx gy : float32) : float32 :=
  F32.sqrt (F32.add (F32.mul gx gx) (F32.mul gy gy)).

(** ** The filter: construction *)

Inductive VSSampleType : Type := stInteger | stFloat.

(** [cmRGB], or one of the other colour families. *)
Inductive VSColorFamily : Type := cmRGB | cmOther.

Record VSFormat : Type := mkFormat {
  colorFamily : VSColorFamily;
  sampleType : VSSampleType;
  bitsPerSample : Z;
  numPlanes : Z
}.

(** [VSVideoInfo], with the outcome of [isConstantFormat]. *)
Record VSVideoInfo : Type := mkVideoInfo {
  format : VSFormat;
  vi_width : Z;
  vi_height : Z;
  isConstantFormat : bool
}.

(** [struct TCannyData] (the function pointers of the x86 build left
    out). *)
Record TCannyData : Type := mkData {
  vi : VSVideoInfo;
  sigma : float32;
  t_h : float32;
  t_l : float32;
  gmmax : float32;
  mode : Z;
  op : Z;
  process : list bool;
  radius : Z;
  radiusAlign : Z;
  bins : Z;
  weights : list float32;
  magnitude : float32;
  peak : Z;
  offset : list float32;
  lower : list float32;
  upper : list float32
}.

(** The arguments of the filter as [tcannyCreate] reads them from the map
    [in]: a number is [None] when the key is absent, and is given after
    its conversion ([static_cast<float>], [int64ToIntS]). *)
Record Arguments : Type := mkArgs {
  arg_clip : VSVideoInfo;
  arg_sigma : option float32;
  arg_t_h : option float32;
  arg_t_l : option float32;
  arg_mode : option Z;
  arg_op : option Z;
  arg_gmmax : option float32;
  arg_planes : option (list Z)
}.

(** What [tcannyCreate] does to its environment, in order. *)
Inductive event : Type :=
| SetError (msg : string)
| GetNode
| FreeNode
| NewWeights
| CreateFilter (d : TCannyData).

(** [scale]: [val * ((1 << bits) - 1) / 255.f]. *)
Definition scale (val : float32) (bits : Z) : float32 :=
  F32.div (F32.mul val (F32.of_int (Z.shiftl 1 bits - 1))) (F32.of_int 255).

Section Create.

(** [gaussianWeights] in binary32: the radius, and the weights unless the
    allocation failed.  The claims of this section do not depend on it;
    the module [Kernel] gives its model. *)
Variable gaussianWeights32 : float32 -> Z * option (list float32).

(** The loop over the elements of [planes]: [Some] of the new flags, or
    the message of the error. *)
Fixpoint select_planes (nplanes : Z) (l : list Z) (flags : list bool)
  : string + list bool :=
  match l with
  | [] => inr flags
  | n :: l' =>
      if (n <? 0) || (n >=? nplanes) then
        inl "TCanny: plane index out of range"%string
      else if nth (Z.to_nat n) flags false then
        inl "TCanny: plane specified twice"%string
      else select_planes nplanes l' (<[Z.to_nat n := true]> flags)
  end.

(** The per-plane constants of a float clip. *)
Definition float_ranges (fmt : VSFormat) (flags : list bool) (d : TCannyData)
  : TCannyData :=
  fold_left
    (fun d plane =>
       if nth plane flags false then
         if (plane =? 0)%nat || (match colorFamily fmt with cmRGB => true | _ => false end)
         then mkData (vi d) (sigma d) (t_h d) (t_l d) (gmmax d) (mode d) (op d)
                (process d) (radius d) (radiusAlign d) (bins d) (weights d)
                (magnitude d) (peak d)
                (<[plane := F32.zero]> (offset d))
                (<[plane := F32.zero]> (lower d))
                (<[plane := F32.of_int 1]> (upper d))
         else mkData (vi d) (sigma d) (t_h d) (t_l d) (gmmax d) (mode d) (op d)
                (process d) (radius d) (radiusAlign d) (bins d) (weights d)
                (magnitude d) (peak d)
                (<[plane := F32.half]> (offset d))
                (<[plane := SFopp F32.half]> (lower d))
                (<[plane := F32.half]> (upper d))
       else d)
    (seq 0 (Z.to_nat (numPlanes fmt))) d.

(** [tcannyCreate]; [junk] is the content of the local [TCannyData d]
    before any field is assigned. *)
Definition tcannyCreate (junk : TCannyData) (a : Arguments) : list event :=
  let sigma0 := default (S754_finite false 12582912 (-23)) (arg_sigma a) in
  let t_h0 := default (F32.of_int 8) (arg_t_h a) in
  let t_l0 := default (F32.of_int 1) (arg_t_l a) in
  let mode0 := default 0 (arg_mode a) in
  let op0 := default 1 (arg_op a) in
  let gmmax0 := default (F32.of_int 50) (arg_gmmax a) in
  if F32.leb sigma0 F32.zero then
    [SetError "TCanny: sigma must be greater than 0.0"]
  else if F32.leb t_h0 t_l0 then
    [SetError "TCanny: t_h must be greater than t_l"]
  else if (mode0 <? -1) || (mode0 >? 3) then
    [SetError "TCanny: mode must be -1, 0, 1, 2 or 3"]
  else if (op0 <? 0) || (op0 >? 3) then
    [SetError "TCanny: op must be 0, 1, 2 or 3"]
  else if F32.ltb gmmax0 (F32.of_int 1) then
    [SetError "TCanny: gmmax must be greater than or equal to 1.0"]
  else
    let vi0 := arg_clip a in
    let fmt := format vi0 in
    if negb (isConstantFormat vi0)
       || (match sampleType fmt with stInteger => bitsPerSample fmt >? 16 | _ => false end)
       || (match sampleType fmt with stFloat => negb (bitsPerSample fmt =? 32) | _ => false end)
    then
      [GetNode;
       SetError "TCanny: only constant format 8-16 bits integer and 32 bits float input supported";
       FreeNode]
    else
      let m := match arg_planes a with
               | Some l => Z.of_nat (length l)
               | None => -1
               end in
      match select_planes (numPlanes fmt) (default [] (arg_planes a))
              (replicate 3 (m <=? 0)) with
      | inl msg => [GetNode; SetError msg; FreeNode]
      | inr flags =>
          let d1 :=
            match sampleType fmt with
            | stInteger =>
                mkData vi0 sigma0 (scale t_h0 (bitsPerSample fmt))
                  (scale t_l0 (bitsPerSample fmt)) gmmax0 mode0 op0 flags
                  (radius junk) (radiusAlign junk)
                  (Z.shiftl 1 (bitsPerSample fmt)) (weights junk)
                  (magnitude junk) (Z.shiftl 1 (bitsPerSample fmt) - 1)
                  (offset junk) (lower junk) (upper junk)
            | stFloat =>
                float_ranges fmt flags
                  (mkData vi0 sigma0 (F32.div t_h0 (F32.of_int 255))
                     (F32.div t_l0 (F32.of_int 255)) gmmax0 mode0 op0 flags
                     (radius junk) (radiusAlign junk) 1 (weights junk)
                     (magnitude junk) (peak junk)
                     (offset junk) (lower junk) (upper junk))
            end in
          match gaussianWeights32 sigma0 with
          | (_, None) =>
              [GetNode; NewWeights; SetError "TCanny: malloc failure (weights)";
               FreeNode]
          | (r, Some w) =>
              [GetNode; NewWeights;
               CreateFilter
                 (mkData (vi d1) (sigma d1) (t_h d1) (t_l d1) (gmmax d1)
                    (mode d1) (op d1) (process d1) r (Z.land (r + 7) (-8))
                    (bins d1) w (F32.div (F32.of_int 255) gmmax0) (peak d1)
                    (offset d1) (lower d1) (upper d1))]
          end
      end.

End Create.

(** ** The filter: one frame *)

(** The three instances of the template parameter [T]. *)
Inductive sample_kind : Type := U8 | U16 | F32k.

Definition sizeof (k : sample_kind) : Z :=
  match k with U8 => 1 | U16 => 2 | F32k => 4 end.

(** One plane of a frame: its size, the distance between two rows in
    bytes, and its bytes. *)
Record Plane : Type := mkPlane {
  p_width : Z;
  p_height : Z;
  p_stride : Z;
  p_data : list Z
}.

Abbreviation Frame := (list Plane).

(** The scratch memory that [tcannyGetFrame] allocates. *)
Record Scratch : Type := mkScratch {
  s_buffer : list float32;
  s_blur : list float32;
  s_gradient : list float32;
  s_direction : list float32;
  s_stack : Stack
}.

(** [with_thresholds d th tl] differs from [d] in [t_h] and [t_l] only. *)
Definition with_thresholds (d : TCannyData) (th tl : float32) : TCannyData :=
  mkData (vi d) (sigma d) th tl (gmmax d) (mode d) (op d) (process d)
    (radius d) (radiusAlign d) (bins d) (weights d) (magnitude d) (peak d)
    (offset d) (lower d) (upper d).

Section GetFrame.

(** The stages whose arithmetic the claims about a whole frame do not
    depend on, each with the arguments that [process] passes in the
    source; a buffer comes with the index that the pointer stands at. *)
Variable gaussianBlurVertical :
  sample_kind -> list Z -> list float32 -> Z -> list float32 -> Z ->
  list float32 -> Z -> Z -> Z -> Z -> Z -> float32 ->
  outcome (list float32 * list float32).
Variable detectEdge :
  list float32 -> Z -> list float32 -> list float32 -> Z -> Z -> Z -> Z ->
  Z -> Z -> outcome (list float32 * list float32 * list float32).
Variable outputGB :
  sample_kind -> list float32 -> Z -> list Z -> Z -> Z -> Z -> Z -> Z ->
  float32 -> float32 -> outcome (list Z).
Variable binarizeCE :
  sample_kind -> list float32 -> Z -> list Z -> Z -> Z -> Z -> Z -> Z ->
  float32 -> float32 -> outcome (list Z).
Variable discretizeGM :
  sample_kind -> list float32 -> list Z -> Z -> Z -> Z -> float32 -> Z ->
  float32 -> float32 -> outcome (list Z).
Variable discretizeDM_T :
  sample_kind -> list float32 -> Z -> list float32 -> list Z -> Z -> Z -> Z ->
  Z -> Z -> float32 -> float32 -> outcome (list Z).
Variable discretizeDM :
  sample_kind -> list float32 -> list Z -> Z -> Z -> Z -> Z -> float32 ->
  outcome (list Z).

(** The fuel of the [while] loop of [hysteresis]. *)
Variable fuel : nat.

(** The body of the loop of [process<T>] for a selected plane. *)
Definition process_plane (k : sample_kind) (d : TCannyData) (plane : nat)
  (sp dp : Plane) (scr : Scratch) : outcome (Plane * Scratch) :=
  let width := p_width sp in
  let height := p_height sp in
  let stride := Z.quot (p_stride sp) (sizeof k) in
  let blurStride := stride + 16 in
  let off := nth plane (offset d) S754_nan in
  do bb <- gaussianBlurVertical k (p_data sp) (s_buffer scr) (radiusAlign d)
             (s_blur scr) 8 (weights d) width height stride blurStride
             (radius d) off;
  do e <- (if negb (mode d =? -1)
           then detectEdge (snd bb) 8 (s_gradient scr) (s_direction scr)
                  width height stride blurStride (mode d) (op d)
           else Done (snd bb, s_gradient scr, s_direction scr));
  do h <- (if Z.land (mode d) 1 =? 0
           then
             do b <- nonMaximumSuppression (snd (fst e)) (snd e) width height
                       stride blurStride (fst (fst e)) 8;
             do st <- hysteresis 8 width height blurStride (t_h d) (t_l d)
                        fuel b (s_stack scr);
             Done (blur st, stack st)
           else Done (fst (fst e), s_stack scr));
  do dstp <- (if mode d =? -1 then
                outputGB k (fst h) 8 (p_data dp) width height stride blurStride
                  (peak d) off (nth plane (upper d) S754_nan)
              else if mode d =? 0 then
                binarizeCE k (fst h) 8 (p_data dp) width height stride
                  blurStride (peak d) (nth plane (lower d) S754_nan)
                  (nth plane (upper d) S754_nan)
              else if mode d =? 1 then
                discretizeGM k (snd (fst e)) (p_data dp) width height stride
                  (magnitude d) (peak d) off (nth plane (upper d) S754_nan)
              else if mode d =? 2 then
                discretizeDM_T k (fst h) 8 (snd e) (p_data dp) width height
                  stride blurStride (bins d) off (nth plane (lower d) S754_nan)
              else
                discretizeDM k (snd e) (p_data dp) width height stride
                  (bins d) off);
  Done (mkPlane (p_width dp) (p_height dp) (p_stride dp) dstp,
        mkScratch (fst bb) (fst h) (snd (fst e)) (snd e) (snd h)).

(** [process<T>]: the loop over the planes of the format. *)
Definition process_frame (k : sample_kind) (d : TCannyData) (src : Frame)
  (ds : Frame * Scratch) : outcome (Frame * Scratch) :=
  for_range 0 (numPlanes (format (vi d)))
    (fun plane ds =>
       if nth (Z.to_nat plane) (process d) false then
         match src !! Z.to_nat plane, fst ds !! Z.to_nat plane with
         | Some sp, Some dp =>
             do r <- process_plane k d (Z.to_nat plane) sp dp (snd ds);
             Done (<[Z.to_nat plane := fst r]> (fst ds), snd r)
         | _, _ => Fault PlaneOOB
         end
       else Done ds)
    ds.

(** [vsapi->newVideoFrame2(format, width, height, fr, pl, src, core)]:
    plane [i] of the new frame is plane [pl[i]] of the frame [fr[i]], or
    a new plane, of unspecified content, where [fr[i]] is null. *)
Definition newVideoFrame2 (fmt : VSFormat) (fr : list (option Frame))
  (pl : list nat) (fresh : Frame) : Frame :=
  (fun i =>
     match nth i fr None with
     | Some f => nth (nth i pl 0%nat) f (nth i fresh (mkPlane 0 0 0 []))
     | None => nth i fresh (mkPlane 0 0 0 [])
     end) <$> seq 0 (Z.to_nat (numPlanes fmt)).

Inductive activation : Type := arInitial | arAllFramesReady | arOther.

(** Which of the allocations of [tcannyGetFrame] succeed. *)
Record Heap : Type := mkHeap {
  buffer_ok : bool;
  blur_ok : bool;
  gradient_ok : bool;
  direction_ok : bool;
  stack_ok : bool
}.

(** [tcannyGetFrame]: the frame that is returned, [None] for [nullptr].
    [fresh] and [scr] are the new planes and the new scratch memory as
    the allocator hands them out. *)
Definition tcannyGetFrame (d : TCannyData) (reason : activation)
  (src : Frame) (heap : Heap) (fresh : Frame) (scr : Scratch)
  : outcome (option Frame) :=
  match reason with
  | arInitial => Done None
  | arOther => Done None
  | arAllFramesReady =>
      let fr := (fun sel : bool => if sel then None else Some src)
                  <$> [nth 0 (process d) false; nth 1 (process d) false;
                       nth 2 (process d) false] in
      let dst := newVideoFrame2 (format (vi d)) fr [0; 1; 2]%nat fresh in
      if negb (buffer_ok heap) then Done None
      else if negb (blur_ok heap) then Done None
      else if negb (mode d =? -1) && negb (gradient_ok heap) then Done None
      else if negb (mode d =? -1) && negb (mode d =? 1)
              && negb (direction_ok heap) then Done None
      else if (Z.land (mode d) 1 =? 0) && negb (stack_ok heap) then Done None
      else
        let k := match sampleType (format (vi d)) with
                 | stInteger =>
                     if bitsPerSample (format (vi d)) =? 8 then U8 else U16
                 | stFloat => F32k
                 end in
        do r <- process_frame k d src (dst, scr);
        Done (Some (fst r))
  end.

End GetFrame.

(** ** Order facts of binary32 comparisons

    [SFcompare] orders first by sign, then by exponent, then by mantissa.
    [key] sends a number to a triple of integers whose lexicographic order
    is that order, which turns the facts below into linear arithmetic. *)

Module F32Facts.

Import F32.

Definition key (a : float32) : Z * Z * Z :=
  match a with
  | S754_nan => (0, 0, 0)
  | S754_zero _ => (0, 0, 0)
  | S754_infinity true => (-2, 0, 0)
  | S754_infinity false => (2, 0, 0)
  | S754_finite true m e => (-1, - e, - Z.pos m)
  | S754_finite false m e => (1, e, Z.pos m)
  end.

Definition key_lt (k1 k2 : Z * Z * Z) : Prop :=
  let '(c1, e1, m1) := k1 in
  let '(c2, e2, m2) := k2 in
  c1 < c2 \/ (c1 = c2 /\ (e1 < e2 \/ (e1 = e2 /\ m1 < m2))).

Definition key_le (k1 k2 : Z * Z * Z) : Prop :=
  let '(c1, e1, m1) := k1 in
  let '(c2, e2, m2) := k2 in
  c1 < c2 \/ (c1 = c2 /\ (e1 < e2 \/ (e1 = e2 /\ m1 <= m2))).

Ltac cmp_cases :=
  repeat match goal with
  | |- context [Z.compare ?a ?b] => destruct (Z.compare_spec a b)
  | |- context [Pos.compare_cont Eq ?a ?b] =>
      change (Pos.compare_cont Eq a b) with (Pos.compare a b);
      destruct (Pos.compare_spec a b)
  end.

Ltac key_crush :=
  unfold ltb, leb, SFltb, SFleb, SFcompare, key_lt, key_le, key, is_nan;
  repeat match goal with s : bool |- _ => destruct s end;
  cmp_cases; simpl;
  split; intros; repeat split; try discriminate; try reflexivity; try lia.

Lemma ltb_key (a b : float32) :
  ltb a b = true <->
  is_nan a = false /\ is_nan b = false /\ key_lt (key a) (key b).
Proof. destruct a, b; key_crush. Qed.

Lemma leb_key (a b : float32) :
  leb a b = true <->
  is_nan a = false /\ is_nan b = false /\ key_le (key a) (key b).
Proof. destruct a, b; key_crush. Qed.

Lemma key_lt_le (k1 k2 : Z * Z * Z) : key_lt k1 k2 -> key_le k1 k2.
Proof. destruct k1 as [[? ?] ?], k2 as [[? ?] ?]; unfold key_lt, key_le; lia. Qed.

Lemma key_lt_irrefl (k : Z * Z * Z) : ~ key_lt k k.
Proof. destruct k as [[? ?] ?]; unfold key_lt; lia. Qed.

Lemma key_le_refl (k : Z * Z * Z) : key_le k k.
Proof. destruct k as [[? ?] ?]; unfold key_le; lia. Qed.

Lemma key_total (k1 k2 : Z * Z * Z) : key_lt k1 k2 \/ key_le k2 k1.
Proof. destruct k1 as [[? ?] ?], k2 as [[? ?] ?]; unfold key_lt, key_le; lia. Qed.

Lemma key_lt_not_le (k1 k2 : Z * Z * Z) : key_lt k1 k2 -> ~ key_le k2 k1.
Proof. destruct k1 as [[? ?] ?], k2 as [[? ?] ?]; unfold key_lt, key_le; lia. Qed.

Lemma key_le_trans (k1 k2 k3 : Z * Z * Z) :
  key_le k1 k2 -> key_le k2 k3 -> key_le k1 k3.
Proof.
  destruct k1 as [[? ?] ?], k2 as [[? ?] ?], k3 as [[? ?] ?];
    unfold key_le; lia.
Qed.

Lemma key_lt_le_trans (k1 k2 k3 : Z * Z * Z) :
  key_lt k1 k2 -> key_le k2 k3 -> key_lt k1 k3.
Proof.
  destruct k1 as [[? ?] ?], k2 as [[? ?] ?], k3 as [[? ?] ?];
    unfold key_lt, key_le; lia.
Qed.

Lemma key_le_lt_trans (k1 k2 k3 : Z * Z * Z) :
  key_le k1 k2 -> key_lt k2 k3 -> key_lt k1 k3.
Proof.
  destruct k1 as [[? ?] ?], k2 as [[? ?] ?], k3 as [[? ?] ?];
    unfold key_lt, key_le; lia.
Qed.

Lemma ltb_not_nan (a b : float32) :
  ltb a b = true -> is_nan a = false /\ is_nan b = false.
Proof. intros H. apply ltb_key in H. tauto. Qed.

Lemma leb_not_nan (a b : float32) :
  leb a b = true -> is_nan a = false /\ is_nan b = false.
Proof. intros H. apply leb_key in H. tauto. Qed.

Lemma ltb_leb (a b : float32) : ltb a b = true -> leb a b = true.
Proof.
  intros H. apply ltb_key in H. destruct H as (Ha & Hb & H).
  apply leb_key. auto using key_lt_le.
Qed.

Lemma ltb_irrefl (a : float32) : ltb a a = false.
Proof.
  destruct (ltb a a) eqn:E; [|reflexivity].
  apply ltb_key in E. destruct E as (_ & _ & E).
  destruct (key_lt_irrefl _ E).
Qed.

Lemma leb_refl (a : float32) : is_nan a = false -> leb a a = true.
Proof. intros H. apply leb_key. auto using key_le_refl. Qed.

(** On numbers, [!(a < b)] is [b <= a]. *)
Lemma ltb_false_leb (a b : float32) :
  is_nan a = false -> is_nan b = false ->
  ltb a b = false -> leb b a = true.
Proof.
  intros Ha Hb H. apply leb_key. repeat split; trivial.
  destruct (key_total (key a) (key b)) as [Hlt|Hle]; [|exact Hle].
  assert (ltb a b = true) as E by (apply ltb_key; auto).
  rewrite E in H. discriminate.
Qed.

Lemma ltb_true_leb_false (a b : float32) :
  ltb a b = true -> leb b a = false.
Proof.
  intros H. apply ltb_key in H. destruct H as (_ & _ & H).
  destruct (leb b a) eqn:E; [|reflexivity].
  apply leb_key in E. destruct E as (_ & _ & E).
  destruct (key_lt_not_le _ _ H E).
Qed.

Lemma leb_true_ltb_false (a b : float32) :
  leb a b = true -> ltb b a = false.
Proof.
  intros H. destruct (ltb b a) eqn:E; [|reflexivity].
  apply ltb_true_leb_false in E. congruence.
Qed.

Lemma leb_trans (a b c : float32) :
  leb a b = true -> leb b c = true -> leb a c = true.
Proof.
  intros H1 H2. apply leb_key in H1, H2. apply leb_key.
  destruct H1 as (? & ? & ?), H2 as (? & ? & ?).
  eauto using key_le_trans.
Qed.

Lemma ltb_leb_trans (a b c : float32) :
  ltb a b = true -> leb b c = true -> ltb a c = true.
Proof.
  intros H1 H2. apply ltb_key in H1. apply leb_key in H2. apply ltb_key.
  destruct H1 as (? & ? & ?), H2 as (? & ? & ?).
  eauto using key_lt_le_trans.
Qed.

Lemma leb_ltb_trans (a b c : float32) :
  leb a b = true -> ltb b c = true -> ltb a c = true.
Proof.
  intros H1 H2. apply leb_key in H1. apply ltb_key in H2. apply ltb_key.
  destruct H1 as (? & ? & ?), H2 as (? & ? & ?).
  eauto using key_le_lt_trans.
Qed.

(** [a == FLT_MAX] holds for exactly one value. *)
Lemma FLT_MAX_eq : FLT_MAX = S754_finite false 16777215 104.
Proof. reflexivity. Qed.

Lemma eqb_finite (a : float32) (m : positive) (e : Z) :
  eqb a (S754_finite false m e) = true <-> a = S754_finite false m e.
Proof.
  split.
  - unfold eqb, SFeqb, SFcompare.
    destruct a as [s|s| |s m' e']; try destruct s; try discriminate.
    fold (Pos.compare m' m).
    destruct (Z.compare_spec e' e); try discriminate.
    destruct (Pos.compare_spec m' m); try discriminate.
    intros _. subst. reflexivity.
  - intros ->. unfold eqb, SFeqb, SFcompare.
    rewrite Z.compare_refl. fold (Pos.compare m m).
    rewrite Pos.compare_refl. reflexivity.
Qed.

Lemma eqb_FLT_MAX (a : float32) : eqb a FLT_MAX = true <-> a = FLT_MAX.
Proof. rewrite FLT_MAX_eq. apply eqb_finite. Qed.

(** On an argument that is not negative, [static_cast<int>] is the
    floor. *)
Lemma to_int_floor (a : float32) (k : Z) :
  leb zero a = true -> to_int a = Some k -> floor a = Some k /\ 0 <= k.
Proof.
  unfold to_int, floor.
  destruct a as [s|s| |s m e]; try discriminate.
  - intros _ E. injection E as <-. split; [reflexivity|lia].
  - destruct s; [discriminate|]. intros _. cbn [cond_Zopp].
    destruct ((INT_MIN <=? Z.shiftl (Z.pos m) e) && (Z.shiftl (Z.pos m) e <=? INT_MAX));
      [|discriminate].
    intros E. injection E as <-. split; [reflexivity|].
    apply Z.shiftl_nonneg. lia.
Qed.

Lemma NEG_FLT_MAX_eq : NEG_FLT_MAX = S754_finite true 16777215 104.
Proof. reflexivity. Qed.

(** A rounded number keeps the sign it is given. *)
Lemma round_nonneg (m e : Z) (l : location) :
  ltb (binary_round_aux prec emax false m e l) NEG_FLT_MAX = false.
Proof.
  rewrite NEG_FLT_MAX_eq. unfold binary_round_aux.
  destruct (shr_fexp prec emax m e l) as [mrs e'].
  destruct (shr_fexp prec emax _ e' loc_Exact) as [mrs' e''].
  destruct (shr_m mrs') as [|m'|m']; try reflexivity.
  destruct (e'' <=? emax - prec); reflexivity.
Qed.

(** A square root is a NaN or not below the "suppressed" sentinel. *)
Lemma sqrt_not_below (v : float32) : ltb (sqrt v) NEG_FLT_MAX = false.
Proof.
  unfold sqrt, SFsqrt. destruct v as [s|s| |s m e].
  - destruct s; reflexivity.
  - destruct s; reflexivity.
  - reflexivity.
  - destruct s; [reflexivity|].
    destruct (SFsqrt_core_binary prec emax (Z.pos m) e) as [[mz ez] lz].
    apply round_nonneg.
Qed.

Lemma FLT_MAX_not_nan : is_nan FLT_MAX = false.
Proof. reflexivity. Qed.

Lemma NEG_FLT_MAX_not_nan : is_nan NEG_FLT_MAX = false.
Proof. reflexivity. Qed.

Lemma NEG_FLT_MAX_neq_FLT_MAX : NEG_FLT_MAX <> FLT_MAX.
Proof. discriminate. Qed.

End F32Facts.

(** ** Reasoning about runs

    [sat allowed fuel_ok Q r]: the run [r] ends in a state that satisfies
    [Q], or with a fault that [allowed] admits, or (only if [fuel_ok]) out
    of fuel. *)

Definition sat {A : Type} (allowed : fault -> Prop) (fuel_ok : Prop)
  (Q : A -> Prop) (r : outcome A) : Prop :=
  match r with
  | Done a => Q a
  | Fault f => allowed f
  | OutOfFuel => fuel_ok
  end.

Section SatRules.

Variable allowed : fault -> Prop.
Variable fuel_ok : Prop.

Lemma sat_bind {A B : Type} (m : outcome A) (k : A -> outcome B)
  (Q : B -> Prop) :
  sat allowed fuel_ok (fun a => sat allowed fuel_ok Q (k a)) m ->
  sat allowed fuel_ok Q (bind m k).
Proof. destruct m; cbn [bind sat]; auto. Qed.

Lemma sat_weaken {A : Type} (Q Q' : A -> Prop) (r : outcome A) :
  (forall a, Q a -> Q' a) ->
  sat allowed fuel_ok Q r -> sat allowed fuel_ok Q' r.
Proof. destruct r; cbn [sat]; auto. Qed.

Lemma sat_for_loop {A : Type} (body : Z -> A -> outcome A)
  (I : Z -> A -> Prop) :
  forall (n : nat) (i : Z) (s : A),
    (forall j s', i <= j < i + Z.of_nat n -> I j s' ->
                  sat allowed fuel_ok (I (j + 1)) (body j s')) ->
    I i s ->
    sat allowed fuel_ok (I (i + Z.of_nat n)) (for_loop n i body s).
Proof.
  induction n as [|n IH]; intros i s Hbody Hi.
  - cbn [for_loop sat]. rewrite Z.add_0_r. exact Hi.
  - cbn [for_loop]. apply sat_bind.
    eapply sat_weaken; [|apply (Hbody i s); [lia | exact Hi]].
    intros s' Hs'. cbv beta.
    replace (i + Z.of_nat (S n)) with ((i + 1) + Z.of_nat n) by lia.
    apply IH; [|exact Hs'].
    intros j s'' Hj. apply Hbody. lia.
Qed.

(** The rule for [for (i = lo; i < hi; i++)]: the invariant moves from
    [lo] to [hi] (to [lo] when the loop does not run). *)
Lemma sat_for_range {A : Type} (body : Z -> A -> outcome A)
  (I : Z -> A -> Prop) (lo hi : Z) (s : A) :
  (forall j s', lo <= j < hi -> I j s' ->
                sat allowed fuel_ok (I (j + 1)) (body j s')) ->
  I lo s ->
  sat allowed fuel_ok (I (Z.max lo hi)) (for_range lo hi body s).
Proof.
  intros Hbody Hlo. unfold for_range.
  replace (Z.max lo hi) with (lo + Z.of_nat (Z.to_nat (hi - lo))) by lia.
  apply sat_for_loop; [|exact Hlo].
  intros j s' Hj. apply Hbody. lia.
Qed.

Lemma sat_load {A : Type} (f : fault) (l : list A) (i : Z) (Q : A -> Prop) :
  allowed f ->
  (forall v, 0 <= i -> l !! Z.to_nat i = Some v -> Q v) ->
  sat allowed fuel_ok Q (load f l i).
Proof.
  intros Hf HQ. unfold load. destruct (Z.ltb_spec i 0); [exact Hf|].
  destruct (l !! Z.to_nat i) eqn:E; cbn [sat]; auto.
Qed.

Lemma sat_store {A : Type} (f : fault) (l : list A) (i : Z) (v : A)
  (Q : list A -> Prop) :
  allowed f ->
  (0 <= i < Z.of_nat (length l) -> Q (<[Z.to_nat i := v]> l)) ->
  sat allowed fuel_ok Q (store f l i v).
Proof.
  intros Hf HQ. unfold store.
  destruct (Z.leb_spec 0 i), (Z.ltb_spec i (Z.of_nat (length l)));
    cbn [andb sat]; auto.
Qed.

End SatRules.

Lemma load_Done {A : Type} (f : fault) (l : list A) (i : Z) (v : A) :
  0 <= i -> l !! Z.to_nat i = Some v -> load f l i = Done v.
Proof.
  intros Hi Hv. unfold load. destruct (Z.ltb_spec i 0); [lia|].
  rewrite Hv. reflexivity.
Qed.

Lemma store_Done {A : Type} (f : fault) (l : list A) (i : Z) (v : A) :
  0 <= i < Z.of_nat (length l) ->
  store f l i v = Done (<[Z.to_nat i := v]> l).
Proof.
  intros Hi. unfold store.
  destruct (Z.leb_spec 0 i), (Z.ltb_spec i (Z.of_nat (length l)));
    try lia; reflexivity.
Qed.

(** Two runs that satisfy complementary sets of faults end normally. *)
Lemma sat_both {A : Type} (al1 al2 : fault -> Prop) (fo1 fo2 : Prop)
  (Q1 Q2 : A -> Prop) (r : outcome A) :
  (forall f, al1 f -> al2 f -> False) -> (fo1 -> fo2 -> False) ->
  sat al1 fo1 Q1 r -> sat al2 fo2 Q2 r ->
  exists a, r = Done a /\ Q1 a /\ Q2 a.
Proof.
  intros Hal Hfo H1 H2. destruct r as [a|f|]; cbn [sat] in *.
  - eauto.
  - destruct (Hal f H1 H2).
  - destruct (Hfo H1 H2).
Qed.

(** ** The stack discipline of the hysteresis pass *)

(** The number of visit-mask bytes that are still zero. *)
Fixpoint zeros (l : list Z) : Z :=
  match l with
  | [] => 0
  | z :: l' => (if z =? 0 then 1 else 0) + zeros l'
  end.

Lemma zeros_bounds (l : list Z) : 0 <= zeros l <= Z.of_nat (length l).
Proof.
  induction l as [|z l IH]; cbn [zeros length]; [lia|].
  destruct (z =? 0); lia.
Qed.

Lemma zeros_replicate (n : nat) : zeros (replicate n 0) = Z.of_nat n.
Proof. induction n as [|n IH]; cbn [replicate zeros]; [reflexivity|]. cbn. lia. Qed.

Lemma zeros_insert (l : list Z) (i : nat) (v : Z) :
  l !! i = Some 0 -> v <> 0 -> zeros (<[i := v]> l) = zeros l - 1.
Proof.
  revert i. induction l as [|z l IH]; intros i Hi Hv; [discriminate|].
  destruct i as [|i]; simpl in Hi |- *.
  - injection Hi as ->. destruct (Z.eqb_spec v 0); [contradiction|].
    simpl. lia.
  - rewrite (IH i Hi Hv). lia.
Qed.

Section StackDiscipline.

Variables (blurp width height blurStride : Z).
Variables (t_h t_l : float32).

Let midxp (p : Z * Z) : Z := midx width (fst p) (snd p).

(** Sizes, the position of the top, the budget [index + 1 + zeros <=
    width * height], and the log: no mask byte is pushed twice and
    every pushed pixel has its byte set. *)
Definition stack_inv (st : hstate) : Prop :=
  Z.of_nat (length (map (stack st))) = width * height /\
  Z.of_nat (length (pos (stack st))) = width * height /\
  -1 <= index (stack st) /\
  index (stack st) + 1 + zeros (map (stack st)) <= width * height /\
  NoDup (midxp <$> pushed st) /\
  (forall p, p ∈ pushed st ->
     0 <= midxp p /\ map (stack st) !! Z.to_nat (midxp p) = Some UINT8_MAX).

Definition budget (st : hstate) : Z :=
  index (stack st) + 1 + zeros (map (stack st)).

(** The faults that the stack discipline does not exclude: a load or a
    store outside [blur] or outside the visit mask. *)
Definition plane_fault (f : fault) : Prop := f = BlurOOB \/ f = MapOOB.

Lemma confirm_stack_inv (x y : Z) (st : hstate) :
  stack_inv st ->
  0 <= midx width x y ->
  map (stack st) !! Z.to_nat (midx width x y) = Some 0 ->
  sat plane_fault False
    (fun st' => stack_inv st' /\ budget st' = budget st /\
                pushed st' = (x, y) :: pushed st /\
                map (stack st') !! Z.to_nat (midx width x y) = Some UINT8_MAX)
    (confirm blurp width blurStride x y st).
Proof.
  intros (Hm & Hp & Hi & Hb & Hnd & Hlog) Hge Hz.
  unfold confirm. apply sat_bind, sat_store; [left; reflexivity|].
  intros _. apply sat_bind, sat_store; [right; reflexivity|].
  intros Hin. unfold push. cbn [index pos map].
  assert (1 <= zeros (map (stack st))) as Hz1.
  { clear - Hz. revert Hz. generalize (Z.to_nat (midx width x y)).
    induction (map (stack st)) as [|z l IH]; intros [|i] Hz;
      try discriminate; cbn in Hz |- *.
    - injection Hz as ->. pose proof (zeros_bounds l). cbn. lia.
    - specialize (IH i Hz). destruct (z =? 0); lia. }
  rewrite store_Done by lia.
  cbn [bind sat]. unfold stack_inv, budget. cbn [stack map pos index pushed blur].
  rewrite !length_insert, zeros_insert by (trivial; discriminate).
  repeat split; try lia.
  - rewrite fmap_cons. apply NoDup_cons. split; [|exact Hnd].
    intros Hel. apply list_elem_of_fmap in Hel. destruct Hel as (p & Hpe & Hpin).
    destruct (Hlog p Hpin) as (_ & Hl). unfold midxp in *. cbn [fst snd] in Hpe.
    rewrite <- Hpe in Hl. rewrite Hz in Hl. discriminate.
  - apply elem_of_cons in H. destruct H as [->|H]; [exact Hge|].
    apply (Hlog p H).
  - apply elem_of_cons in H. destruct H as [->|H].
    + unfold midxp. cbn [fst snd]. apply list_lookup_insert_eq. lia.
    + destruct (Hlog p H) as (Hp0 & Hl).
      destruct (decide (Z.to_nat (midx width x y) = Z.to_nat (midxp p))) as [E|E].
      * rewrite <- E. apply list_lookup_insert_eq. lia.
      * rewrite list_lookup_insert_ne by exact E. exact Hl.
  - apply list_lookup_insert_eq. lia.
Qed.

Lemma visit_stack_inv (yy xx : Z) (st : hstate) :
  stack_inv st ->
  sat plane_fault False (fun st' => stack_inv st' /\ budget st' = budget st)
    (visit blurp width blurStride t_l yy xx st).
Proof.
  intros Hinv. unfold visit.
  apply sat_bind, sat_load; [left; reflexivity|]. intros v _ _.
  destruct (F32.leb t_l v); [|cbn [sat]; auto].
  apply sat_bind, sat_load; [right; reflexivity|]. intros m Hge Hm.
  destruct (Z.eqb_spec m 0) as [->|_]; [|cbn [sat]; auto].
  eapply sat_weaken; [|apply confirm_stack_inv; eauto].
  cbv beta. tauto.
Qed.

Lemma drain_step_stack_inv (st : hstate) :
  stack_inv st -> index (stack st) > -1 ->
  sat plane_fault False
    (fun st' => stack_inv st' /\ budget st' = budget st - 1)
    (drain_step blurp width blurStride t_l st).
Proof.
  intros Hinv Hidx. unfold drain_step, pop.
  pose proof Hinv as (Hm & Hp & Hi & Hb & Hnd & Hlog).
  pose proof (zeros_bounds (map (stack st))) as Hz.
  destruct (lookup_lt_is_Some_2 (pos (stack st)) (Z.to_nat (index (stack st))))
    as [p Hpl]; [lia|].
  rewrite (load_Done _ _ _ p) by (trivial; lia).
  cbn [bind fst snd].
  set (st1 := mkH (blur st) (mkStack (map (stack st)) (pos (stack st))
                                     (index (stack st) - 1)) (pushed st)).
  assert (stack_inv st1 /\ budget st1 = budget st - 1) as H1.
  { unfold stack_inv, budget, st1. cbn [stack map pos index pushed].
    repeat split; trivial; try lia; apply Hlog; assumption. }
  eapply sat_weaken;
    [|apply (sat_for_range plane_fault False _
               (fun _ st' => stack_inv st' /\ budget st' = budget st - 1))].
  - cbv beta. tauto.
  - intros yy s' _ Hs'.
    eapply sat_weaken;
      [|apply (sat_for_range plane_fault False _
                 (fun _ st' => stack_inv st' /\ budget st' = budget st - 1))].
    + cbv beta. tauto.
    + intros xx s'' _ (Hs1 & Hs2).
      eapply sat_weaken; [|apply visit_stack_inv; exact Hs1].
      cbv beta. intros a (? & ?). split; [assumption|lia].
    + exact Hs'.
  - exact H1.
Qed.

Lemma drain_stack_inv (fuel : nat) :
  forall st : hstate,
    stack_inv st -> budget st < Z.of_nat fuel ->
    sat plane_fault False
      (fun st' => stack_inv st' /\ index (stack st') = -1)
      (drain blurp width blurStride t_l fuel st).
Proof.
  induction fuel as [|fuel IH]; intros st Hinv Hfuel;
    unfold drain; cbn [while_loop];
    pose proof Hinv as (Hm & Hp & Hi & Hb & Hnd & Hlog);
    pose proof (zeros_bounds (map (stack st))) as Hz;
    unfold budget in Hfuel;
    destruct (Z.gtb_spec (index (stack st)) (-1)) as [Hgt|Hle].
  - lia.
  - cbn [sat]. split; [exact Hinv|lia].
  - apply sat_bind.
    eapply sat_weaken; [|apply drain_step_stack_inv; [exact Hinv|lia]].
    cbv beta. intros st' (Hinv' & Hbud). apply IH; [exact Hinv'|].
    unfold budget in Hbud |- *. lia.
  - cbn [sat]. split; [exact Hinv|lia].
Qed.

Lemma seed_stack_inv (fuel : nat) (y x : Z) (st : hstate) :
  width * height < Z.of_nat fuel ->
  stack_inv st /\ index (stack st) = -1 ->
  sat plane_fault False
    (fun st' => stack_inv st' /\ index (stack st') = -1)
    (seed blurp width blurStride t_h t_l fuel y x st).
Proof.
  intros Hfuel (Hinv & Hidx). unfold seed.
  apply sat_bind, sat_load; [left; reflexivity|]. intros v _ _.
  destruct (F32.ltb v t_h); [cbn [sat]; auto|].
  apply sat_bind, sat_load; [right; reflexivity|]. intros m Hge Hm.
  destruct (Z.eqb_spec m 0) as [->|_]; cbn [negb]; [|cbn [sat]; auto].
  apply sat_bind.
  eapply sat_weaken; [|apply confirm_stack_inv; eauto].
  cbv beta. intros st' (Hinv' & Hbud & _). apply drain_stack_inv; [exact Hinv'|].
  destruct Hinv as (_ & _ & _ & Hb & _). unfold budget in *. lia.
Qed.

(** No run of the pass overflows the stack or runs out of fuel, whatever
    the content of [blur] and the thresholds are. *)
Lemma hysteresis_stack_inv (fuel : nat) (b : list float32) (s : Stack) :
  Z.of_nat (length (map s)) = width * height ->
  Z.of_nat (length (pos s)) = width * height ->
  width * height < Z.of_nat fuel ->
  sat plane_fault False
    (fun st' => stack_inv st' /\ index (stack st') = -1)
    (hysteresis blurp width height blurStride t_h t_l fuel b s).
Proof.
  intros Hm Hp Hfuel. unfold hysteresis, memset0.
  destruct ((0 <=? width * height) && (width * height <=? Z.of_nat (length (map s))))
    eqn:E; [|right; reflexivity].
  cbn [bind].
  replace (drop (Z.to_nat (width * height)) (map s)) with (@nil Z)
    by (symmetry; apply drop_ge; lia).
  rewrite app_nil_r.
  set (st0 := mkH b (mkStack (replicate (Z.to_nat (width * height)) 0) (pos s) (-1)) []).
  assert (stack_inv st0 /\ index (stack st0) = -1) as H0.
  { unfold stack_inv, st0. cbn [stack map pos index pushed].
    rewrite length_replicate, zeros_replicate.
    repeat split; try lia.
    - rewrite fmap_nil. constructor.
    - apply elem_of_nil in H. destruct H.
    - apply elem_of_nil in H. destruct H. }
  eapply sat_weaken;
    [|apply (sat_for_range plane_fault False _
               (fun _ st' => stack_inv st' /\ index (stack st') = -1))].
  - cbv beta. tauto.
  - intros y s' _ Hs'.
    eapply sat_weaken;
      [|apply (sat_for_range plane_fault False _
                 (fun _ st' => stack_inv st' /\ index (stack st') = -1))].
    + cbv beta. tauto.
    + intros x s'' _ Hs''. apply seed_stack_inv; assumption.
    + exact Hs'.
  - exact H0.
Qed.

End StackDiscipline.

(** ** Double-threshold connectivity *)

Abbreviation pixel := (Z * Z)%type.

(** The 8-neighbourhood scanned by the two inner loops (the pixel itself
    included). *)
Definition adjacent8 (p q : pixel) : Prop :=
  fst p - 1 <= fst q <= fst p + 1 /\ snd p - 1 <= snd q <= snd p + 1.

Section Plane.

Variables (blurp width height blurStride : Z).

Definition in_plane (p : pixel) : Prop :=
  0 <= fst p < width /\ 0 <= snd p < height.

(** The pixels visited by the two outer loops. *)
Definition interior (p : pixel) : Prop :=
  1 <= fst p < width - 1 /\ 1 <= snd p < height - 1.

(** [blur[blurStride * y + x]] and [stack.map[width * y + x]]. *)
Definition blur_at (b : list float32) (p : pixel) : float32 :=
  default S754_nan (b !! Z.to_nat (bidx blurp blurStride (fst p) (snd p))).

Definition mask_at (m : list Z) (p : pixel) : Z :=
  default 0 (m !! Z.to_nat (midx width (fst p) (snd p))).

(** The scratch buffers cover the plane, and rows do not overlap. *)
Definition plane_fits (b : list float32) (m : list Z) : Prop :=
  0 <= blurp /\ 0 <= width <= blurStride /\ 0 <= height /\
  (0 < height -> blurp + blurStride * (height - 1) + width <= Z.of_nat (length b)) /\
  Z.of_nat (length m) = width * height.

Lemma interior_in_plane (p : pixel) : interior p -> in_plane p.
Proof. unfold interior, in_plane. lia. Qed.

Lemma adjacent_interior_in_plane (p q : pixel) :
  interior p -> adjacent8 p q -> in_plane q.
Proof. unfold interior, adjacent8, in_plane. lia. Qed.

Lemma bidx_range (b : list float32) (m : list Z) (p : pixel) :
  plane_fits b m -> in_plane p ->
  0 <= bidx blurp blurStride (fst p) (snd p) < Z.of_nat (length b).
Proof.
  unfold plane_fits, in_plane, bidx. intros (H1 & H2 & H3 & H4 & H5) (Hx & Hy).
  assert (blurStride * snd p <= blurStride * (height - 1)) by nia.
  assert (0 <= blurStride * snd p) by nia.
  lia.
Qed.

Lemma midx_range (b : list float32) (m : list Z) (p : pixel) :
  plane_fits b m -> in_plane p ->
  0 <= midx width (fst p) (snd p) < Z.of_nat (length m).
Proof.
  unfold plane_fits, in_plane, midx. intros (H1 & H2 & H3 & H4 & H5) (Hx & Hy).
  rewrite H5.
  assert (width * snd p <= width * (height - 1)) by nia.
  assert (0 <= width * snd p) by nia.
  lia.
Qed.

Lemma row_inj (s x1 y1 x2 y2 : Z) :
  0 <= x1 < s -> 0 <= x2 < s -> s * y1 + x1 = s * y2 + x2 ->
  x1 = x2 /\ y1 = y2.
Proof.
  intros H1 H2 E.
  assert (y1 = y2) by nia. subst. lia.
Qed.

Lemma bidx_inj (p q : pixel) :
  0 <= width <= blurStride -> in_plane p -> in_plane q ->
  bidx blurp blurStride (fst p) (snd p) = bidx blurp blurStride (fst q) (snd q) ->
  p = q.
Proof.
  unfold in_plane, bidx. intros Hw (Hx & Hy) (Hx' & Hy') E.
  destruct (row_inj blurStride (fst p) (snd p) (fst q) (snd q)) as [E1 E2];
    try lia.
  destruct p, q; cbn [fst snd] in *; congruence.
Qed.

Lemma midx_inj (p q : pixel) :
  in_plane p -> in_plane q ->
  midx width (fst p) (snd p) = midx width (fst q) (snd q) -> p = q.
Proof.
  unfold in_plane, midx. intros (Hx & Hy) (Hx' & Hy') E.
  destruct (row_inj width (fst p) (snd p) (fst q) (snd q)) as [E1 E2];
    try lia.
  destruct p, q; cbn [fst snd] in *; congruence.
Qed.

Lemma blur_at_lookup (b : list float32) (m : list Z) (p : pixel) :
  plane_fits b m -> in_plane p ->
  b !! Z.to_nat (bidx blurp blurStride (fst p) (snd p)) = Some (blur_at b p).
Proof.
  intros Hf Hp. pose proof (bidx_range b m p Hf Hp) as Hr.
  unfold blur_at.
  destruct (lookup_lt_is_Some_2 b (Z.to_nat (bidx blurp blurStride (fst p) (snd p))))
    as [v Hv]; [lia|].
  rewrite Hv. reflexivity.
Qed.

Lemma mask_at_lookup (b : list float32) (m : list Z) (p : pixel) :
  plane_fits b m -> in_plane p ->
  m !! Z.to_nat (midx width (fst p) (snd p)) = Some (mask_at m p).
Proof.
  intros Hf Hp. pose proof (midx_range b m p Hf Hp) as Hr.
  unfold mask_at.
  destruct (m !! Z.to_nat (midx width (fst p) (snd p))) eqn:E;
    [reflexivity|].
  apply lookup_ge_None in E. lia.
Qed.

Lemma blur_at_insert_eq (b : list float32) (m : list Z) (p : pixel) (v : float32) :
  plane_fits b m -> in_plane p ->
  blur_at (<[Z.to_nat (bidx blurp blurStride (fst p) (snd p)) := v]> b) p = v.
Proof.
  intros Hf Hp. pose proof (bidx_range b m p Hf Hp) as Hr.
  unfold blur_at. rewrite list_lookup_insert_eq by lia. reflexivity.
Qed.

Lemma blur_at_insert_ne (b : list float32) (m : list Z) (p q : pixel) (v : float32) :
  plane_fits b m -> in_plane p -> in_plane q -> p <> q ->
  blur_at (<[Z.to_nat (bidx blurp blurStride (fst p) (snd p)) := v]> b) q
  = blur_at b q.
Proof.
  intros Hf Hp Hq Hne.
  pose proof (bidx_range b m p Hf Hp). pose proof (bidx_range b m q Hf Hq).
  unfold blur_at. rewrite list_lookup_insert_ne; [reflexivity|].
  intros E. apply Hne, bidx_inj; trivial; [apply Hf|lia].
Qed.

Lemma mask_at_insert_eq (b : list float32) (m : list Z) (p : pixel) (v : Z) :
  plane_fits b m -> in_plane p ->
  mask_at (<[Z.to_nat (midx width (fst p) (snd p)) := v]> m) p = v.
Proof.
  intros Hf Hp. pose proof (midx_range b m p Hf Hp) as Hr.
  unfold mask_at. rewrite list_lookup_insert_eq by lia. reflexivity.
Qed.

Lemma mask_at_insert_ne (b : list float32) (m : list Z) (p q : pixel) (v : Z) :
  plane_fits b m -> in_plane p -> in_plane q -> p <> q ->
  mask_at (<[Z.to_nat (midx width (fst p) (snd p)) := v]> m) q = mask_at m q.
Proof.
  intros Hf Hp Hq Hne.
  pose proof (midx_range b m p Hf Hp). pose proof (midx_range b m q Hf Hq).
  unfold mask_at. rewrite list_lookup_insert_ne; [reflexivity|].
  intros E. apply Hne, midx_inj; trivial. lia.
Qed.

End Plane.

Section Flood.

Variables (blurp width height blurStride : Z).
Variables (t_h t_l : float32).

(** [b0] is the content of [blur] when the pass starts: the suppressed
    map. *)
Variable b0 : list float32.

Definition weak (p : pixel) : Prop :=
  F32.leb t_l (blur_at blurp blurStride b0 p) = true.

Definition strong (p : pixel) : Prop :=
  F32.leb t_h (blur_at blurp blurStride b0 p) = true.

(** [reach p]: [p] is tied to an interior pixel that reaches [t_h], by
    steps between 8-neighbours that reach [t_l]. *)
Inductive reach : pixel -> Prop :=
| reach_seed (p : pixel) :
    interior width height p -> strong p -> reach p
| reach_step (p q : pixel) :
    reach p -> adjacent8 p q -> in_plane width height q -> weak q -> reach q.

Definition visited (st : hstate) (p : pixel) : Prop :=
  mask_at width (map (stack st)) p = UINT8_MAX.

Definition on_stack (st : hstate) (p : pixel) : Prop :=
  exists i, 0 <= i <= index (stack st) /\
            pos (stack st) !! Z.to_nat i = Some p.

(** The invariant of the flood fill.  [P p q] holds while the scan
    around [p] has not looked at the neighbour [q] yet, [Sd p] while the
    outer loops have not looked at [p] yet. *)
Definition flood_inv (P : pixel -> pixel -> Prop) (Sd : pixel -> Prop)
  (st : hstate) : Prop :=
  plane_fits blurp width height blurStride (blur st) (map (stack st)) /\
  -1 <= index (stack st) /\
  (forall p, in_plane width height p ->
     (mask_at width (map (stack st)) p = 0 /\
      blur_at blurp blurStride (blur st) p = blur_at blurp blurStride b0 p) \/
     (visited st p /\ blur_at blurp blurStride (blur st) p = F32.FLT_MAX /\
      interior width height p /\ reach p)) /\
  (forall p, on_stack st p -> interior width height p /\ visited st p) /\
  (forall p, in_plane width height p -> visited st p ->
     on_stack st p \/
     (forall q, adjacent8 p q -> in_plane width height q -> weak q ->
                visited st q \/ P p q)) /\
  (forall p, interior width height p -> strong p -> visited st p \/ Sd p).

Lemma flood_inv_weaken (P P' : pixel -> pixel -> Prop)
  (Sd Sd' : pixel -> Prop) (st : hstate) :
  flood_inv P Sd st ->
  (forall p q, adjacent8 p q -> in_plane width height q -> weak q ->
               P p q -> visited st q \/ P' p q) ->
  (forall p, interior width height p -> strong p -> Sd p ->
             visited st p \/ Sd' p) ->
  flood_inv P' Sd' st.
Proof.
  intros (Hfit & Hidx & Hpix & Hstk & Hclo & Hsd) HP HS.
  repeat split; trivial; try apply Hfit; try apply Hstk; trivial.
  - intros p Hp Hv. destruct (Hclo p Hp Hv) as [Hon|Hc]; [left; exact Hon|].
    right. intros q Hadj Hq Hw.
    destruct (Hc q Hadj Hq Hw) as [?|HPq]; [left; assumption|].
    apply HP; assumption.
  - intros p Hp Hs. destruct (Hsd p Hp Hs) as [?|HSp]; [left; assumption|].
    apply HS; assumption.
Qed.

(** The only fault left open here is a full stack; [hysteresis_stack_inv]
    excludes it. *)
Definition stack_fault (f : fault) : Prop := f = StackOOB.

Lemma confirm_flood (P : pixel -> pixel -> Prop) (Sd : pixel -> Prop)
  (st : hstate) (q : pixel) :
  flood_inv P Sd st ->
  interior width height q ->
  mask_at width (map (stack st)) q = 0 ->
  reach q ->
  sat stack_fault True
    (fun st' => flood_inv P Sd st' /\ visited st' q /\
                index (stack st') = index (stack st) + 1 /\
                (forall p, in_plane width height p -> visited st p -> visited st' p))
    (confirm blurp width blurStride (fst q) (snd q) st).
Proof.
  intros (Hfit & Hidx & Hpix & Hstk & Hclo & Hsd) Hq Hm Hr.
  pose proof (interior_in_plane _ _ q Hq) as Hqp.
  pose proof (bidx_range _ _ _ _ _ _ q Hfit Hqp) as Hbr.
  pose proof (midx_range _ _ _ _ _ _ q Hfit Hqp) as Hmr.
  unfold confirm. rewrite store_Done by lia. cbn [bind].
  rewrite store_Done by lia. cbn [bind].
  unfold push. cbn [index pos map].
  apply sat_bind, sat_bind, sat_store; [reflexivity|].
  intros Hpos. cbn [sat].
  set (b' := <[Z.to_nat (bidx blurp blurStride (fst q) (snd q)) := F32.FLT_MAX]> (blur st)).
  set (m' := <[Z.to_nat (midx width (fst q) (snd q)) := UINT8_MAX]> (map (stack st))).
  set (ps' := <[Z.to_nat (index (stack st) + 1) := (fst q, snd q)]> (pos (stack st))).
  assert (plane_fits blurp width height blurStride b' m') as Hfit'.
  { unfold plane_fits, b', m' in *. rewrite !length_insert. exact Hfit. }
  assert (mask_at width m' q = UINT8_MAX) as Hmq.
  { apply (mask_at_insert_eq blurp _ height blurStride (blur st)); assumption. }
  assert (forall p, in_plane width height p -> p <> q ->
                    mask_at width m' p = mask_at width (map (stack st)) p) as Hmne.
  { intros p Hp Hne.
    apply (mask_at_insert_ne blurp _ height blurStride (blur st)); auto. }
  assert (blur_at blurp blurStride b' q = F32.FLT_MAX) as Hbq.
  { apply (blur_at_insert_eq _ width height _ _ (map (stack st))); assumption. }
  assert (forall p, in_plane width height p -> p <> q ->
                    blur_at blurp blurStride b' p
                    = blur_at blurp blurStride (blur st) p) as Hbne.
  { intros p Hp Hne.
    apply (blur_at_insert_ne _ width height _ _ (map (stack st))); auto. }
  assert (forall p, in_plane width height p -> visited st p ->
                    mask_at width m' p = UINT8_MAX) as Hmono.
  { intros p Hp Hv. destruct (decide (p = q)) as [->|Hne]; [exact Hmq|].
    rewrite Hmne by assumption. exact Hv. }
  assert ((fst q, snd q) = q) as Hqeq by (destruct q; reflexivity).
  unfold flood_inv, visited, on_stack.
  cbn [stack blur map pos index].
  assert (forall p i, 0 <= i <= index (stack st) + 1 ->
                      ps' !! Z.to_nat i = Some p ->
                      (i = index (stack st) + 1 /\ p = q) \/ on_stack st p) as Hps.
  { intros p i Hi Hl. unfold ps' in Hl.
    destruct (decide (i = index (stack st) + 1)) as [->|Hne].
    - rewrite list_lookup_insert_eq in Hl by lia. left. split; congruence.
    - rewrite list_lookup_insert_ne in Hl by lia.
      right. exists i. split; [lia|exact Hl]. }
  split; [|split; [exact Hmq|split; [reflexivity|exact Hmono]]].
  refine (conj Hfit' (conj _ (conj _ (conj _ (conj _ _))))).
  - lia.
  - intros p Hp. destruct (decide (p = q)) as [->|Hne].
    + right. auto.
    + rewrite Hmne, Hbne by assumption. apply Hpix, Hp.
  - intros p (i & Hi & Hl).
    destruct (Hps p i Hi Hl) as [(_ & ->)|Hon]; [split; assumption|].
    destruct (Hstk p Hon) as (Hip & Hvp). split; [exact Hip|].
    apply Hmono; [apply interior_in_plane, Hip|exact Hvp].
  - intros p Hp Hv. destruct (decide (p = q)) as [->|Hne].
    + left. exists (index (stack st) + 1). split; [lia|].
      unfold ps'. rewrite list_lookup_insert_eq by lia. rewrite Hqeq. reflexivity.
    + rewrite Hmne in Hv by assumption.
      destruct (Hclo p Hp Hv) as [(i & Hi & Hl)|Hc].
      * left. exists i. split; [lia|].
        unfold ps'. rewrite list_lookup_insert_ne by lia. exact Hl.
      * right. intros r Hadj Hrp Hw.
        destruct (Hc r Hadj Hrp Hw) as [Hvr|HP]; [left|right; exact HP].
        apply Hmono; assumption.
  - intros p Hp Hs. destruct (Hsd p Hp Hs) as [Hv|HS]; [left|right; exact HS].
    apply Hmono; [apply interior_in_plane, Hp|exact Hv].
Qed.

(** What the border of a suppressed map gives the pass: no pixel outside
    the interior reaches [t_l], and the interior holds numbers. *)
Hypothesis border_below :
  forall p, in_plane width height p -> ~ interior width height p ->
            F32.leb t_l (blur_at blurp blurStride b0 p) = false.
Hypothesis interior_numbers :
  forall p, interior width height p ->
            F32.is_nan (blur_at blurp blurStride b0 p) = false.
Hypothesis t_h_number : F32.is_nan t_h = false.

(** The neighbours of [cur] that the scan has not reached when it is
    about to look at column [xx] of row [yy]. *)
Definition pend (cur : pixel) (yy xx : Z) (p q : pixel) : Prop :=
  p = cur /\ (yy < snd q \/ (snd q = yy /\ xx <= fst q)).

(** The interior pixels that the outer loops have not reached when they
    are about to look at column [x] of row [y]. *)
Definition unscanned (y x : Z) (p : pixel) : Prop :=
  y < snd p \/ (snd p = y /\ x <= fst p).

Lemma pend_step (Sd : pixel -> Prop) (cur : pixel) (yy xx : Z) (st : hstate) :
  flood_inv (pend cur yy xx) Sd st ->
  visited st (xx, yy) \/ ~ weak (xx, yy) ->
  flood_inv (pend cur yy (xx + 1)) Sd st.
Proof.
  intros Hinv Hq. apply (flood_inv_weaken _ _ _ _ _ Hinv); [|auto].
  intros p r _ _ Hw (-> & Hr).
  destruct (decide (r = (xx, yy))) as [->|Hne].
  - left. destruct Hq as [Hv|Hnw]; [exact Hv|contradiction].
  - right. split; [reflexivity|]. cbn [fst snd] in *.
    destruct Hr as [Hr|(Hr1 & Hr2)]; [left; exact Hr|right].
    split; [exact Hr1|].
    destruct (decide (fst r = xx)) as [E|E]; [|lia].
    exfalso. apply Hne. destruct r; cbn [fst snd] in *; congruence.
Qed.

Lemma visited_reach (P : pixel -> pixel -> Prop) (Sd : pixel -> Prop)
  (st : hstate) (p : pixel) :
  flood_inv P Sd st -> in_plane width height p -> visited st p ->
  interior width height p /\ reach p.
Proof.
  intros (_ & _ & Hpix & _) Hp Hv.
  destruct (Hpix p Hp) as [(Hz & _)|(_ & _ & Hi & Hr)]; [|auto].
  unfold visited in Hv. rewrite Hz in Hv. discriminate.
Qed.

Lemma unvisited_value (P : pixel -> pixel -> Prop) (Sd : pixel -> Prop)
  (st : hstate) (p : pixel) :
  flood_inv P Sd st -> in_plane width height p ->
  (mask_at width (map (stack st)) p = 0 /\
   blur_at blurp blurStride (blur st) p = blur_at blurp blurStride b0 p) \/
  visited st p.
Proof.
  intros (_ & _ & Hpix & _) Hp.
  destruct (Hpix p Hp) as [H|(Hv & _)]; [left; exact H|right; exact Hv].
Qed.

Lemma visit_flood (Sd : pixel -> Prop) (cur : pixel) (yy xx : Z)
  (st : hstate) :
  flood_inv (pend cur yy xx) Sd st ->
  interior width height cur -> visited st cur ->
  adjacent8 cur (xx, yy) ->
  sat stack_fault True
    (fun st' => flood_inv (pend cur yy (xx + 1)) Sd st' /\ visited st' cur)
    (visit blurp width blurStride t_l yy xx st).
Proof.
  intros Hinv Hcur Hvcur Hadj.
  pose proof (adjacent_interior_in_plane _ _ _ _ Hcur Hadj) as Hq.
  pose proof Hinv as (Hfit & _).
  unfold visit.
  rewrite (load_Done _ _ _ (blur_at blurp blurStride (blur st) (xx, yy))).
  2: { apply (bidx_range _ _ _ _ _ _ (xx, yy) Hfit Hq). }
  2: { apply (blur_at_lookup _ _ _ _ _ _ (xx, yy) Hfit Hq). }
  cbn [bind].
  destruct (F32.leb t_l (blur_at blurp blurStride (blur st) (xx, yy))) eqn:E.
  - rewrite (load_Done _ _ _ (mask_at width (map (stack st)) (xx, yy))).
    2: { apply (midx_range _ _ _ _ _ _ (xx, yy) Hfit Hq). }
    2: { apply (mask_at_lookup _ _ _ _ _ _ (xx, yy) Hfit Hq). }
    cbn [bind].
    destruct (Z.eqb_spec (mask_at width (map (stack st)) (xx, yy)) 0) as [Hz|Hnz].
    + destruct (unvisited_value _ _ _ _ Hinv Hq) as [(_ & Hb)|Hv];
        [|unfold visited in Hv; rewrite Hz in Hv; discriminate].
      rewrite Hb in E.
      assert (interior width height (xx, yy)) as Hqi.
      { assert (interior width height (xx, yy) \/ ~ interior width height (xx, yy))
          as [?|Hn] by (unfold interior; lia); [assumption|].
        rewrite (border_below _ Hq Hn) in E. discriminate. }
      assert (reach (xx, yy)) as Hr.
      { apply (reach_step cur); trivial.
        apply (visited_reach _ _ _ _ Hinv); [apply interior_in_plane|]; assumption. }
      eapply sat_weaken;
        [|apply (confirm_flood _ _ st (xx, yy) Hinv Hqi Hz Hr)].
      cbv beta. intros st' (Hinv' & Hvq & _ & Hmono). split.
      * apply pend_step; [exact Hinv'|left; exact Hvq].
      * apply Hmono; [apply interior_in_plane|]; assumption.
    + cbn [sat]. split; [|exact Hvcur].
      apply pend_step; [exact Hinv|left].
      destruct (unvisited_value _ _ _ _ Hinv Hq) as [(Hz & _)|Hv];
        [contradiction|exact Hv].
  - cbn [sat]. split; [|exact Hvcur].
    apply pend_step; [exact Hinv|].
    destruct (unvisited_value _ _ _ _ Hinv Hq) as [(_ & Hb)|Hv];
      [right|left; exact Hv].
    unfold weak. rewrite <- Hb, E. discriminate.
Qed.

Definition scanned_all (p q : pixel) : Prop := False.

Lemma drain_step_flood (Sd : pixel -> Prop) (st : hstate) :
  flood_inv scanned_all Sd st ->
  sat stack_fault True (flood_inv scanned_all Sd)
    (drain_step blurp width blurStride t_l st).
Proof.
  intros Hinv. pose proof Hinv as (Hfit & Hidx & Hpix & Hstk & Hclo & Hsd).
  unfold drain_step, pop.
  apply sat_bind, sat_bind, sat_load; [reflexivity|]. intros cur Hge Hl.
  cbn [sat fst snd].
  assert (on_stack st cur) as Hon by (exists (index (stack st)); split; [lia|exact Hl]).
  destruct (Hstk cur Hon) as (Hcur & Hvcur).
  set (st1 := mkH (blur st) (mkStack (map (stack st)) (pos (stack st))
                                     (index (stack st) - 1)) (pushed st)).
  assert (flood_inv (pend cur (snd cur - 1) (fst cur - 1)) Sd st1) as H1.
  { unfold flood_inv, visited, on_stack, st1 in *. cbn [stack blur map pos index].
    refine (conj Hfit (conj _ (conj Hpix (conj _ (conj _ Hsd))))).
    - lia.
    - intros p (i & Hi & Hli). apply Hstk. exists i. split; [lia|exact Hli].
    - intros p Hp Hv. destruct (Hclo p Hp Hv) as [(i & Hi & Hli)|Hc].
      + destruct (decide (i = index (stack st))) as [->|Hne].
        * right. intros q Hadj _ _. right. split; [congruence|].
          unfold adjacent8 in Hadj. assert (p = cur) as -> by congruence. lia.
        * left. exists i. split; [lia|exact Hli].
      + right. intros q Hadj Hq Hw. destruct (Hc q Hadj Hq Hw) as [?|[]].
        left. assumption. }
  assert (visited st1 cur) as Hv1 by exact Hvcur.
  clearbody st1.
  eapply sat_weaken;
    [|apply (sat_for_range stack_fault True _
               (fun yy st' => flood_inv (pend cur yy (fst cur - 1)) Sd st' /\
                              visited st' cur))].
  - cbv beta. intros st' (Hinv' & _).
    apply (flood_inv_weaken _ _ _ _ _ Hinv'); [|auto].
    intros p q Hadj _ _ (-> & Hq). unfold adjacent8 in Hadj. lia.
  - intros yy s' Hyy (Hs' & Hvs').
    eapply sat_weaken;
      [|apply (sat_for_range stack_fault True _
                 (fun xx st' => flood_inv (pend cur yy xx) Sd st' /\
                                visited st' cur))].
    + cbv beta. intros st' (Hinv' & Hv'). split; [|exact Hv'].
      apply (flood_inv_weaken _ _ _ _ _ Hinv'); [|auto].
      intros p q Hadj _ _ (-> & Hq). right. split; [reflexivity|].
      unfold adjacent8 in Hadj. lia.
    + intros xx s'' Hxx (Hs'' & Hvs'').
      apply visit_flood; trivial.
      unfold adjacent8. cbn [fst snd]. lia.
    + split; assumption.
  - split; assumption.
Qed.

Lemma drain_flood (Sd : pixel -> Prop) (fuel : nat) :
  forall st : hstate,
    flood_inv scanned_all Sd st ->
    sat stack_fault True
      (fun st' => flood_inv scanned_all Sd st' /\ index (stack st') = -1)
      (drain blurp width blurStride t_l fuel st).
Proof.
  induction fuel as [|fuel IH]; intros st Hinv;
    unfold drain; cbn [while_loop];
    pose proof Hinv as (_ & Hidx & _);
    destruct (Z.gtb_spec (index (stack st)) (-1)) as [Hgt|Hle].
  - exact I.
  - cbn [sat]. split; [exact Hinv|lia].
  - apply sat_bind.
    eapply sat_weaken; [|apply drain_step_flood; exact Hinv].
    cbv beta. intros st' Hinv'. apply IH, Hinv'.
  - cbn [sat]. split; [exact Hinv|lia].
Qed.

Lemma unscanned_step (P : pixel -> pixel -> Prop) (y x : Z) (st : hstate) :
  flood_inv P (unscanned y x) st ->
  visited st (x, y) \/ ~ strong (x, y) ->
  flood_inv P (unscanned y (x + 1)) st.
Proof.
  intros Hinv Hq. apply (flood_inv_weaken _ _ _ _ _ Hinv); [auto|].
  intros p _ Hs Hp.
  destruct (decide (p = (x, y))) as [->|Hne].
  - left. destruct Hq as [Hv|Hns]; [exact Hv|contradiction].
  - right. unfold unscanned in *.
    destruct Hp as [Hp|(Hp1 & Hp2)]; [left; exact Hp|right].
    split; [exact Hp1|].
    destruct (decide (fst p = x)) as [E|E]; [|lia].
    exfalso. apply Hne. destruct p; cbn [fst snd] in *; congruence.
Qed.

Lemma seed_flood (fuel : nat) (y x : Z) (st : hstate) :
  interior width height (x, y) ->
  flood_inv scanned_all (unscanned y x) st ->
  sat stack_fault True
    (fun st' => flood_inv scanned_all (unscanned y (x + 1)) st' /\
                index (stack st') = -1 \/ index (stack st) <> -1)
    (seed blurp width blurStride t_h t_l fuel y x st).
Proof.
  intros Hqi Hinv.
  pose proof (interior_in_plane _ _ _ Hqi) as Hq.
  pose proof Hinv as (Hfit & Hidx & _).
  unfold seed.
  rewrite (load_Done _ _ _ (blur_at blurp blurStride (blur st) (x, y))).
  2: { apply (bidx_range _ _ _ _ _ _ (x, y) Hfit Hq). }
  2: { apply (blur_at_lookup _ _ _ _ _ _ (x, y) Hfit Hq). }
  cbn [bind].
  assert (forall st', flood_inv scanned_all (unscanned y (x + 1)) st' ->
                      index (stack st') = index (stack st) ->
                      flood_inv scanned_all (unscanned y (x + 1)) st' /\
                      index (stack st') = -1 \/ index (stack st) <> -1) as Hfin.
  { intros st' H' E. destruct (decide (index (stack st) = -1)); [left|right];
      [split|]; congruence. }
  destruct (F32.ltb (blur_at blurp blurStride (blur st) (x, y)) t_h) eqn:E.
  - cbn [sat]. apply Hfin; [|reflexivity].
    apply unscanned_step; [exact Hinv|].
    destruct (unvisited_value _ _ _ _ Hinv Hq) as [(_ & Hb)|Hv];
      [right|left; exact Hv].
    unfold strong. rewrite <- Hb.
    rewrite (F32Facts.ltb_true_leb_false _ _ E). discriminate.
  - rewrite (load_Done _ _ _ (mask_at width (map (stack st)) (x, y))).
    2: { apply (midx_range _ _ _ _ _ _ (x, y) Hfit Hq). }
    2: { apply (mask_at_lookup _ _ _ _ _ _ (x, y) Hfit Hq). }
    cbn [bind].
    destruct (Z.eqb_spec (mask_at width (map (stack st)) (x, y)) 0) as [Hz|Hnz];
      cbn [negb].
    + destruct (unvisited_value _ _ _ _ Hinv Hq) as [(_ & Hb)|Hv];
        [|unfold visited in Hv; rewrite Hz in Hv; discriminate].
      rewrite Hb in E.
      assert (strong (x, y)) as Hs.
      { apply F32Facts.ltb_false_leb; auto. }
      apply sat_bind.
      eapply sat_weaken;
        [|apply (confirm_flood _ _ st (x, y) Hinv Hqi Hz (reach_seed _ Hqi Hs))].
      cbv beta. intros st' (Hinv' & Hvq & _ & _).
      eapply sat_weaken;
        [|apply drain_flood, unscanned_step; [exact Hinv'|left; exact Hvq]].
      cbv beta. intros st'' H''. left. exact H''.
    + cbn [sat]. apply Hfin; [|reflexivity].
      apply unscanned_step; [exact Hinv|left].
      destruct (unvisited_value _ _ _ _ Hinv Hq) as [(Hz & _)|Hv];
        [contradiction|exact Hv].
Qed.

Lemma mask_at_replicate (n : nat) (p : pixel) :
  mask_at width (replicate n 0) p = 0.
Proof.
  unfold mask_at.
  destruct (replicate n 0 !! Z.to_nat (midx width (fst p) (snd p))) eqn:E;
    [|reflexivity].
  apply lookup_replicate in E. destruct E as [-> _]. reflexivity.
Qed.

(** The state in which the flood fill ends. *)
Definition flooded (st : hstate) : Prop :=
  flood_inv scanned_all (fun _ => False) st /\ index (stack st) = -1.

Lemma hysteresis_flood (fuel : nat) (s : Stack) :
  plane_fits blurp width height blurStride b0 (map s) ->
  sat stack_fault True flooded
    (hysteresis blurp width height blurStride t_h t_l fuel b0 s).
Proof.
  intros Hfit. pose proof Hfit as (Hbp & Hw & Hh & Hlen & Hm).
  unfold hysteresis, memset0.
  assert (0 <= width * height) by nia.
  destruct (Z.leb_spec 0 (width * height)); [|lia].
  destruct (Z.leb_spec (width * height) (Z.of_nat (length (map s)))); [|lia].
  cbn [andb bind].
  replace (drop (Z.to_nat (width * height)) (map s)) with (@nil Z)
    by (symmetry; apply drop_ge; lia).
  rewrite app_nil_r.
  set (st0 := mkH b0 (mkStack (replicate (Z.to_nat (width * height)) 0) (pos s) (-1)) []).
  assert (flood_inv scanned_all (unscanned 1 1) st0 /\ index (stack st0) = -1)
    as Hst0.
  { split; [|reflexivity].
    unfold flood_inv, visited, on_stack, st0. cbn [stack blur map pos index].
    refine (conj _ (conj _ (conj _ (conj _ (conj _ _))))).
    - unfold plane_fits. rewrite length_replicate.
      repeat split; trivial; try lia.
    - lia.
    - intros p _. left. split; [apply mask_at_replicate|reflexivity].
    - intros p (i & Hi & _). lia.
    - intros p _ Hv. rewrite mask_at_replicate in Hv. discriminate.
    - intros p Hp _. right. unfold unscanned, interior in *. lia. }
  clearbody st0.
  eapply sat_weaken;
    [|apply (sat_for_range stack_fault True _
               (fun y st' => flood_inv scanned_all (unscanned y 1) st' /\
                             index (stack st') = -1))].
  - cbv beta. intros st' (Hinv' & Hi'). split; [|exact Hi'].
    apply (flood_inv_weaken _ _ _ _ _ Hinv'); [auto|].
    intros p Hp _ Hu. unfold unscanned, interior in *. lia.
  - intros y s' Hy (Hs' & Hi').
    eapply sat_weaken;
      [|apply (sat_for_range stack_fault True _
                 (fun x st' => flood_inv scanned_all (unscanned y x) st' /\
                               index (stack st') = -1))].
    + cbv beta. intros st' (Hinv' & Hi''). split; [|exact Hi''].
      apply (flood_inv_weaken _ _ _ _ _ Hinv'); [auto|].
      intros p Hp _ Hu. right. unfold unscanned, interior in *. lia.
    + intros x s'' Hx (Hs'' & Hi'').
      eapply sat_weaken; [|apply seed_flood; [|exact Hs'']].
      * cbv beta. intros st' [H'|H']; [exact H'|contradiction].
      * unfold interior. cbn [fst snd]. lia.
    + split; assumption.
  - exact Hst0.
Qed.

Lemma reach_in_plane (p : pixel) : reach p -> in_plane width height p.
Proof. intros [q Hq _|q r _ _ Hr _]; [apply interior_in_plane, Hq|exact Hr]. Qed.

Lemma flooded_visited (st : hstate) (p : pixel) :
  flooded st -> reach p -> visited st p.
Proof.
  intros ((Hfit & Hidx & Hpix & Hstk & Hclo & Hsd) & Hi) Hr.
  induction Hr as [p Hp Hs|p q Hr IH Hadj Hq Hw].
  - destruct (Hsd p Hp Hs) as [Hv|[]]. exact Hv.
  - destruct (Hclo p (reach_in_plane p Hr) IH) as [(i & Hi' & _)|Hc]; [lia|].
    destruct (Hc q Hadj Hq Hw) as [Hv|[]]. exact Hv.
Qed.

(** After the pass a pixel holds [FLT_MAX] if it is reached, and its
    old value otherwise. *)
Lemma flooded_blur (st : hstate) (p : pixel) :
  flooded st -> in_plane width height p ->
  (reach p /\ blur_at blurp blurStride (blur st) p = F32.FLT_MAX) \/
  (~ reach p /\
   blur_at blurp blurStride (blur st) p = blur_at blurp blurStride b0 p).
Proof.
  intros Hfl Hp. pose proof Hfl as ((_ & _ & Hpix & _) & _).
  destruct (Hpix p Hp) as [(Hz & Hb)|(_ & Hb & _ & Hr)]; [right|left; auto].
  split; [|exact Hb]. intros Hr.
  pose proof (flooded_visited st p Hfl Hr) as Hv.
  unfold visited in Hv. rewrite Hz in Hv. discriminate.
Qed.

End Flood.

(** The pass ends normally on a map whose border stays below [t_l]: the
    two invariants hold of the same run. *)
Lemma hysteresis_runs (blurp width height blurStride : Z) (t_h t_l : float32)
  (fuel : nat) (b0 : list float32) (s : Stack) :
  plane_fits blurp width height blurStride b0 (map s) ->
  Z.of_nat (length (pos s)) = width * height ->
  width * height < Z.of_nat fuel ->
  (forall p, in_plane width height p -> ~ interior width height p ->
             F32.leb t_l (blur_at blurp blurStride b0 p) = false) ->
  (forall p, interior width height p ->
             F32.is_nan (blur_at blurp blurStride b0 p) = false) ->
  F32.is_nan t_h = false ->
  exists st,
    hysteresis blurp width height blurStride t_h t_l fuel b0 s = Done st /\
    flooded blurp width height blurStride t_h t_l b0 st /\
    stack_inv width height st.
Proof.
  intros Hfit Hpos Hfuel Hborder Hnum Hth.
  destruct (sat_both stack_fault plane_fault True False
              (flooded blurp width height blurStride t_h t_l b0)
              (fun st' => stack_inv width height st' /\ index (stack st') = -1)
              (hysteresis blurp width height blurStride t_h t_l fuel b0 s))
    as (st & E & Hfl & Hst & _).
  - intros f -> [?|?]; discriminate.
  - intros _ [].
  - apply hysteresis_flood; assumption.
  - apply hysteresis_stack_inv; trivial. apply Hfit.
  - exists st. auto.
Qed.

(** ** Chains of pixels *)

Section Connectivity.

Variables (blurp width height blurStride : Z).
Variables (t_h t_l : float32).
Variable b0 : list float32.

(** [chain p ps q]: stepping from [p] through the pixels [ps], each an
    8-neighbour of the one before, inside the plane and with a value
    [>= t_l], ends at [q]. *)
Fixpoint chain (p : pixel) (ps : list pixel) (q : pixel) : Prop :=
  match ps with
  | [] => p = q
  | r :: ps' =>
      adjacent8 p r /\ in_plane width height r /\
      weak blurp blurStride t_l b0 r /\ chain r ps' q
  end.

(** [q] is tied by a chain of pixels [>= t_l] to an interior pixel
    [>= t_h]. *)
Definition connected (q : pixel) : Prop :=
  exists (s : pixel) (ps : list pixel),
    interior width height s /\
    strong blurp blurStride t_h b0 s /\
    weak blurp blurStride t_l b0 s /\
    chain s ps q.

Lemma chain_snoc (p : pixel) (ps : list pixel) (q r : pixel) :
  chain p ps q -> adjacent8 q r -> in_plane width height r ->
  weak blurp blurStride t_l b0 r -> chain p (ps ++ [r]) r.
Proof.
  revert p. induction ps as [|a ps IH]; intros p Hc Hadj Hr Hw.
  - cbn in Hc |- *. subst. auto.
  - cbn in Hc |- *. destruct Hc as (H1 & H2 & H3 & H4). auto.
Qed.

Lemma chain_reach (ps : list pixel) :
  forall p q : pixel,
    reach blurp width height blurStride t_h t_l b0 p -> chain p ps q ->
    reach blurp width height blurStride t_h t_l b0 q.
Proof.
  induction ps as [|a ps IH]; intros p q Hr Hc.
  - cbn in Hc. subst. exact Hr.
  - cbn in Hc. destruct Hc as (H1 & H2 & H3 & H4).
    apply (IH a q); [|exact H4]. apply (reach_step _ _ _ _ _ _ _ p); assumption.
Qed.

Lemma reach_connected (q : pixel) :
  F32.ltb t_l t_h = true ->
  reach blurp width height blurStride t_h t_l b0 q <-> connected q.
Proof.
  intros Hlt. split.
  - intros Hr. induction Hr as [p Hp Hs|p q Hr IH Hadj Hq Hw].
    + exists p, []. refine (conj Hp (conj Hs (conj _ eq_refl))).
      unfold weak, strong in *.
      apply (F32Facts.leb_trans _ t_h); [apply F32Facts.ltb_leb, Hlt|exact Hs].
    + destruct IH as (s & ps & H1 & H2 & H3 & H4).
      exists s, (ps ++ [q]). refine (conj H1 (conj H2 (conj H3 _))).
      apply (chain_snoc _ _ p); assumption.
  - intros (s & ps & H1 & H2 & H3 & H4).
    apply (chain_reach ps s); [|exact H4]. apply reach_seed; assumption.
Qed.

(** A suppressed map: sentinels on the first and last row and column,
    and everywhere a number other than the "confirmed" sentinel. *)
Definition suppressed_map : Prop :=
  forall p, in_plane width height p ->
    (~ interior width height p ->
     blur_at blurp blurStride b0 p = F32.NEG_FLT_MAX) /\
    F32.is_nan (blur_at blurp blurStride b0 p) = false /\
    blur_at blurp blurStride b0 p <> F32.FLT_MAX.

(** The pass on a suppressed map, for a low threshold above the
    sentinel. *)
Lemma hysteresis_connected (fuel : nat) (s : Stack) :
  plane_fits blurp width height blurStride b0 (map s) ->
  Z.of_nat (length (pos s)) = width * height ->
  width * height < Z.of_nat fuel ->
  suppressed_map ->
  F32.ltb t_l t_h = true ->
  F32.ltb F32.NEG_FLT_MAX t_l = true ->
  exists st,
    hysteresis blurp width height blurStride t_h t_l fuel b0 s = Done st /\
    forall p, in_plane width height p ->
      (blur_at blurp blurStride (blur st) p = F32.FLT_MAX <-> connected p) /\
      (~ connected p ->
       blur_at blurp blurStride (blur st) p = blur_at blurp blurStride b0 p).
Proof.
  intros Hfit Hpos Hfuel Hsup Hlt Hlow.
  destruct (hysteresis_runs blurp width height blurStride t_h t_l fuel b0 s)
    as (st & E & Hfl & _); trivial.
  - intros p Hp Hn. destruct (Hsup p Hp) as (Hb & _).
    rewrite (Hb Hn). apply F32Facts.ltb_true_leb_false, Hlow.
  - intros p Hp. apply Hsup, interior_in_plane, Hp.
  - apply (F32Facts.ltb_not_nan _ _ Hlt).
  - exists st. split; [exact E|]. intros p Hp.
    rewrite <- (reach_connected p Hlt).
    destruct (Hsup p Hp) as (_ & _ & Hne).
    destruct (flooded_blur _ _ _ _ _ _ _ st p Hfl Hp) as [(Hr & Hb)|(Hn & Hb)].
    + split; [split; auto|]. intros Hn. contradiction.
    + split; [split|auto].
      * intros Hmax. rewrite Hb in Hmax. contradiction.
      * intros Hr. contradiction.
Qed.

End Connectivity.

(** ** What non-maximum suppression writes *)

(** A run that ends normally in a state that satisfies [Q]. *)
Definition total {A : Type} (Q : A -> Prop) (r : outcome A) : Prop :=
  sat (fun _ => False) False Q r.

Lemma total_Done {A : Type} (Q : A -> Prop) (r : outcome A) :
  total Q r -> exists a, r = Done a /\ Q a.
Proof. destruct r as [a|f|]; cbn; [eauto|tauto|tauto]. Qed.

(** The neighbour that [offsets[bin]] points to, as a step in [x] and in
    [y]: right, up-right, up, up-left ("up" is the row above). *)
Definition axis (bin : Z) : Z * Z :=
  if bin =? 0 then (1, 0)
  else if bin =? 1 then (1, -1)
  else if bin =? 2 then (0, -1)
  else (-1, -1).

Definition shift (p : pixel) (d : Z * Z) : pixel :=
  (fst p + fst d, snd p + snd d).

Definition unshift (p : pixel) (d : Z * Z) : pixel :=
  (fst p - fst d, snd p - snd d).

Definition interiorb (width height : Z) (p : pixel) : bool :=
  (1 <=? fst p) && (fst p <? width - 1) && (1 <=? snd p) && (snd p <? height - 1).

Lemma interiorb_spec (width height : Z) (p : pixel) :
  interiorb width height p = true <-> interior width height p.
Proof. unfold interiorb, interior. lia. Qed.

Section NmsValue.

Variables (gradient direction : list float32).
Variables (width height stride : Z).

(** [gradient[stride * y + x]] and [direction[stride * y + x]]. *)
Definition grad_at (p : pixel) : float32 := blur_at 0 stride gradient p.
Definition dir_at (p : pixel) : float32 := blur_at 0 stride direction p.

(** The bin of a pixel, when the conversion to [int] is defined. *)
Definition bin_at (p : pixel) : Z :=
  match F32.to_int (getBin_arg (dir_at p) 4) with
  | Some k => if k >=? 4 then 0 else k
  | None => 0
  end.

(** The test of the source, [gradient[x] >= std::max(.., ..)]. *)
Definition is_maximum (p : pixel) : bool :=
  F32.leb (F32.max (grad_at (shift p (axis (bin_at p))))
                   (grad_at (unshift p (axis (bin_at p)))))
          (grad_at p).

(** The value that ends up in [blur] at [p]. *)
Definition nms_value (p : pixel) : float32 :=
  if interiorb width height p
  then if is_maximum p then grad_at p else F32.NEG_FLT_MAX
  else F32.NEG_FLT_MAX.

End NmsValue.


Lemma fits_intro (blurp width height s : Z) (l : list float32) :
  0 <= blurp -> 0 <= width <= s -> 0 <= height ->
  (0 < height -> blurp + s * (height - 1) + width <= Z.of_nat (length l)) ->
  plane_fits blurp width height s l (replicate (Z.to_nat (width * height)) 0).
Proof.
  intros. unfold plane_fits. rewrite length_replicate.
  repeat split; trivial; try lia; nia.
Qed.

Lemma load_at (f : fault) (blurp width height s : Z) (l : list float32)
  (i : Z) (p : pixel) :
  0 <= blurp -> 0 <= width <= s -> 0 <= height ->
  (0 < height -> blurp + s * (height - 1) + width <= Z.of_nat (length l)) ->
  in_plane width height p ->
  i = bidx blurp s (fst p) (snd p) ->
  load f l i = Done (blur_at blurp s l p).
Proof.
  intros H1 H2 H3 H4 Hp ->.
  pose proof (fits_intro blurp width height s l H1 H2 H3 H4) as Hfit.
  apply load_Done.
  - apply (bidx_range _ _ _ _ _ _ p Hfit Hp).
  - apply (blur_at_lookup _ _ _ _ _ _ p Hfit Hp).
Qed.

Lemma blur_at_store (blurp width height s : Z) (l : list float32)
  (i x y : Z) (v : float32) (q : pixel) :
  0 <= blurp -> 0 <= width <= s ->
  i = bidx blurp s x y -> 0 <= x < width ->
  0 <= i < Z.of_nat (length l) ->
  in_plane width height q ->
  blur_at blurp s (<[Z.to_nat i := v]> l) q
  = if decide (q = (x, y)) then v else blur_at blurp s l q.
Proof.
  intros Hbp Hw -> Hx Hi Hq. unfold blur_at.
  destruct (decide (q = (x, y))) as [->|Hne].
  - cbn [fst snd]. rewrite list_lookup_insert_eq by lia. reflexivity.
  - rewrite list_lookup_insert_ne; [reflexivity|].
    intros E. apply Hne. unfold in_plane, bidx in *.
    assert (0 <= s * snd q) by nia.
    destruct (row_inj s x y (fst q) (snd q)) as [E1 E2]; try lia.
    destruct q; cbn [fst snd] in *; congruence.
Qed.

Section NmsProof.

Variables (gradient direction : list float32).
Variables (width height stride blurStride blurp : Z).

(** The three buffers cover the plane; [blur] also holds the row that
    the last [std::fill_n] writes when the plane has a single row. *)
Definition nms_fits (blur0 : list float32) : Prop :=
  1 <= width /\ 1 <= height /\ width <= stride /\ width <= blurStride /\
  0 <= blurp /\
  stride * (height - 1) + width <= Z.of_nat (length gradient) /\
  stride * (height - 1) + width <= Z.of_nat (length direction) /\
  blurp + blurStride * (Z.max height 2 - 1) + width <= Z.of_nat (length blur0).

(** For the direction of every interior pixel, the argument of the
    conversion to [int] in [getBin] is not negative and the conversion is
    defined. *)
Definition castable : Prop :=
  forall p, interior width height p ->
    F32.leb F32.zero (getBin_arg (dir_at direction stride p) 4) = true /\
    exists k, F32.to_int (getBin_arg (dir_at direction stride p) 4) = Some k.

Variable blur0 : list float32.
Hypothesis fits : nms_fits blur0.
Hypothesis cast : castable.

Lemma fill_row (l : list float32) (r : Z) (v : float32) :
  length l = length blur0 -> 0 <= r < Z.max height 2 ->
  total
    (fun l' => length l' = length blur0 /\
               forall q, in_plane width height q ->
                         blur_at blurp blurStride l' q
                         = if snd q =? r then v else blur_at blurp blurStride l q)
    (fill_n BlurOOB l (blurp + blurStride * r) width v).
Proof.
  intros Hlen Hr. destruct fits as (Hw & Hh & Hs & Hbs & Hbp & _ & _ & Hb).
  unfold fill_n, total.
  eapply sat_weaken;
    [|apply (sat_for_range _ _ _
               (fun j l' => length l' = length blur0 /\
                  forall q, in_plane width height q ->
                    blur_at blurp blurStride l' q
                    = if (snd q =? r) && (fst q <? j) then v
                      else blur_at blurp blurStride l q))].
  - cbv beta. intros l' (Hl' & Hq). split; [exact Hl'|].
    intros q Hin. rewrite (Hq q Hin). unfold in_plane in Hin.
    destruct (snd q =? r); [|reflexivity].
    destruct (Z.ltb_spec (fst q) (Z.max 0 width)); [reflexivity|lia].
  - intros j l' Hj (Hl' & Hq).
    assert (blurStride * r <= blurStride * (Z.max height 2 - 1)) by nia.
    assert (0 <= blurStride * r) by nia.
    assert (0 <= blurp + blurStride * r + j < Z.of_nat (length l')) as Hi
      by (rewrite Hl'; lia).
    rewrite store_Done by exact Hi. cbn [sat]. split.
    + rewrite length_insert. exact Hl'.
    + intros q Hin.
      rewrite (blur_at_store blurp width height blurStride l' _ j r v q);
        trivial; try lia; [|unfold bidx; lia].
      rewrite (Hq q Hin).
      destruct (decide (q = (j, r))) as [->|Hne]; cbn [fst snd].
      * rewrite Z.eqb_refl. destruct (Z.ltb_spec j (j + 1)); [reflexivity|lia].
      * destruct (Z.eqb_spec (snd q) r) as [E|E]; [|reflexivity]. cbn [andb].
        destruct (Z.ltb_spec (fst q) j), (Z.ltb_spec (fst q) (j + 1));
          try reflexivity; try lia.
        exfalso. apply Hne. destruct q; cbn [fst snd] in *.
        f_equal; lia.
  - split; [exact Hlen|]. intros q Hin. unfold in_plane in Hin.
    destruct (Z.ltb_spec (fst q) 0); [lia|]. rewrite andb_false_r. reflexivity.
Qed.

(** The pointers of the state stand at row [y]. *)
Definition at_row (y : Z) (st : nms_state) : Prop :=
  gradp st = stride * y /\ dirp st = stride * y /\
  blurq st = blurp + blurStride * y /\
  length (nblur st) = length blur0.

Lemma getBin_castable (p : pixel) :
  interior width height p ->
  getBin_int (dir_at direction stride p) 4 = Done (bin_at direction stride p) /\
  0 <= bin_at direction stride p < 4.
Proof.
  intros Hp. destruct (cast p Hp) as (Hpos & k & Hk).
  destruct (F32Facts.to_int_floor _ _ Hpos Hk) as (_ & Hk0).
  unfold getBin_int, bin_at. rewrite Hk.
  destruct (Z.geb_spec k 4); split; try reflexivity; lia.
Qed.

Lemma axis_offset (bin : Z) :
  0 <= bin < 4 ->
  load OffsetsOOB (offsets stride) bin
  = Done (stride * snd (axis bin) + fst (axis bin)).
Proof.
  intros Hb.
  assert (bin = 0 \/ bin = 1 \/ bin = 2 \/ bin = 3) as [-> | [-> | [-> | ->] ] ] by lia;
    cbn; f_equal; lia.
Qed.

Lemma axis_small (bin : Z) :
  -1 <= fst (axis bin) <= 1 /\ -1 <= snd (axis bin) <= 1.
Proof.
  unfold axis. destruct (bin =? 0), (bin =? 1), (bin =? 2); cbn; lia.
Qed.

Lemma nms_pixel_spec (y x : Z) (st : nms_state) :
  interior width height (x, y) -> at_row y st ->
  total
    (fun st' => at_row y st' /\
                forall q, in_plane width height q ->
                  blur_at blurp blurStride (nblur st') q
                  = if decide (q = (x, y))
                    then nms_value gradient direction width height stride (x, y)
                    else blur_at blurp blurStride (nblur st) q)
    (nms_pixel gradient direction stride x st).
Proof.
  intros Hp (Hgp & Hdp & Hbq & Hlen).
  destruct fits as (Hw & Hh & Hs & Hbs & Hbp & Hg & Hd & Hb).
  pose proof (interior_in_plane _ _ _ Hp) as Hin.
  destruct (getBin_castable (x, y) Hp) as (Hbin & Hrange).
  pose proof (axis_small (bin_at direction stride (x, y))) as Hax.
  set (a := axis (bin_at direction stride (x, y))) in *.
  assert (in_plane width height (shift (x, y) a)) as Hin1.
  { unfold shift, in_plane, interior in *. cbn [fst snd] in *. lia. }
  assert (in_plane width height (unshift (x, y) a)) as Hin2.
  { unfold unshift, in_plane, interior in *. cbn [fst snd] in *. lia. }
  unfold nms_pixel, total.
  rewrite (load_at _ 0 width height stride direction _ (x, y)); trivial;
    try lia; [|unfold bidx; cbn [fst snd]; lia].
  cbn [bind]. fold (dir_at direction stride (x, y)). rewrite Hbin. cbn [bind].
  rewrite (axis_offset _ Hrange). cbn [bind]. fold a.
  rewrite (load_at _ 0 width height stride gradient _ (x, y)); trivial;
    try lia; [|unfold bidx; cbn [fst snd]; lia].
  cbn [bind].
  rewrite (load_at _ 0 width height stride gradient _ (shift (x, y) a)); trivial;
    try lia; [|unfold bidx, shift; cbn [fst snd]; lia].
  cbn [bind].
  rewrite (load_at _ 0 width height stride gradient _ (unshift (x, y) a)); trivial;
    try lia; [|unfold bidx, unshift; cbn [fst snd]; lia].
  cbn [bind].
  assert (0 <= blurq st + x < Z.of_nat (length (nblur st))) as Hi.
  { rewrite Hlen, Hbq. unfold interior in Hp. cbn [fst snd] in Hp.
    assert (blurStride * y <= blurStride * (Z.max height 2 - 1)) by nia.
    assert (0 <= blurStride * y) by nia. lia. }
  rewrite store_Done by exact Hi. cbn [bind sat nblur gradp dirp blurq].
  split.
  - unfold at_row. cbn [nblur gradp dirp blurq]. rewrite length_insert. auto.
  - intros q Hq.
    rewrite (blur_at_store blurp width height blurStride (nblur st) _ x y _ q);
      trivial; try lia;
      [|unfold bidx; lia|unfold in_plane in Hin; cbn [fst snd] in Hin; lia].
    destruct (decide (q = (x, y))) as [_|_]; [|reflexivity].
    unfold nms_value, is_maximum, grad_at.
    apply interiorb_spec in Hp. rewrite Hp. fold a. reflexivity.
Qed.

Lemma nms_value_border (q : pixel) :
  ~ interior width height q ->
  nms_value gradient direction width height stride q = F32.NEG_FLT_MAX.
Proof.
  intros Hn. unfold nms_value.
  destruct (interiorb width height q) eqn:E; [|reflexivity].
  apply interiorb_spec in E. contradiction.
Qed.

Lemma nms_row_spec (y : Z) (st : nms_state) :
  1 <= y < height - 1 -> at_row (y - 1) st ->
  total
    (fun st' => at_row y st' /\
                forall q, in_plane width height q ->
                  blur_at blurp blurStride (nblur st') q
                  = if snd q =? y
                    then nms_value gradient direction width height stride q
                    else blur_at blurp blurStride (nblur st) q)
    (nms_row gradient direction width stride blurStride y st).
Proof.
  intros Hy (Hgp & Hdp & Hbq & Hlen).
  pose proof fits as (Hw & Hh & Hs & Hbs & Hbp & Hg & Hd & Hb).
  unfold nms_row, total. apply sat_bind.
  eapply sat_weaken;
    [|apply (sat_for_range _ _ _
               (fun x st' => at_row y st' /\
                  forall q, in_plane width height q ->
                    blur_at blurp blurStride (nblur st') q
                    = if (snd q =? y) && (1 <=? fst q) && (fst q <? x)
                      then nms_value gradient direction width height stride q
                      else blur_at blurp blurStride (nblur st) q))].
  - cbv beta. intros st' ((Hgp' & Hdp' & Hbq' & Hlen') & Hq).
    assert (blurStride * y <= blurStride * (Z.max height 2 - 1)) by nia.
    assert (0 <= blurStride * y) by nia.
    rewrite store_Done by (rewrite Hlen', Hbq'; lia). cbn [bind].
    rewrite store_Done by (rewrite length_insert, Hlen', Hbq'; lia).
    cbn [bind sat nblur gradp dirp blurq]. split.
    + unfold at_row. cbn [nblur gradp dirp blurq].
      rewrite !length_insert. auto.
    + intros q Hin.
      rewrite (blur_at_store blurp width height blurStride _ _ 0 y _ q)
        by (trivial; try lia;
            rewrite ?length_insert, ?Hlen', ?Hbq'; unfold bidx; lia).
      rewrite (blur_at_store blurp width height blurStride _ _ (width - 1) y _ q)
        by (trivial; try lia;
            rewrite ?length_insert, ?Hlen', ?Hbq'; unfold bidx; lia).
      rewrite (Hq q Hin). unfold in_plane in Hin.
      destruct (decide (q = (0, y))) as [->|Hn0].
      { cbn [snd]. rewrite Z.eqb_refl. symmetry. apply nms_value_border.
        unfold interior. cbn [fst snd]. lia. }
      destruct (decide (q = (width - 1, y))) as [->|Hn1].
      { cbn [snd]. rewrite Z.eqb_refl. symmetry. apply nms_value_border.
        unfold interior. cbn [fst snd]. lia. }
      destruct (Z.eqb_spec (snd q) y) as [E|E]; [|reflexivity].
      assert (fst q <> 0) by (intros E0; apply Hn0; destruct q; cbn [fst snd] in *; congruence).
      assert (fst q <> width - 1) by (intros E0; apply Hn1; destruct q; cbn [fst snd] in *; congruence).
      destruct (Z.leb_spec 1 (fst q)); [|lia].
      destruct (Z.ltb_spec (fst q) (Z.max 1 (width - 1))); [reflexivity|lia].
  - intros x s' Hx (Hrow & Hq).
    eapply sat_weaken; [|apply (nms_pixel_spec y x s'); [|exact Hrow]].
    + cbv beta. intros st' (Hrow' & Hq'). split; [exact Hrow'|].
      intros q Hin. rewrite (Hq' q Hin), (Hq q Hin).
      destruct (decide (q = (x, y))) as [->|Hne]; cbn [fst snd].
      * rewrite Z.eqb_refl.
        destruct (Z.leb_spec 1 x); [|lia].
        destruct (Z.ltb_spec x (x + 1)); [reflexivity|lia].
      * destruct (Z.eqb_spec (snd q) y) as [E|E]; [|reflexivity].
        destruct (Z.leb_spec 1 (fst q)); [|reflexivity]. cbn [andb].
        destruct (Z.ltb_spec (fst q) x), (Z.ltb_spec (fst q) (x + 1));
          try reflexivity; try lia.
        exfalso. apply Hne. destruct q; cbn [fst snd] in *. f_equal; lia.
    + unfold interior. cbn [fst snd]. lia.
  - split.
    + unfold at_row. cbn [nblur gradp dirp blurq].
      repeat split; first [lia | exact Hlen].
    + intros q Hin. cbn [nblur].
      destruct (Z.leb_spec 1 (fst q)), (Z.ltb_spec (fst q) 1); try lia;
        rewrite ?andb_false_r; reflexivity.
Qed.

(** What the whole stage leaves in [blur]. *)
Lemma nms_spec :
  total
    (fun b' => length b' = length blur0 /\
               forall q, in_plane width height q ->
                 blur_at blurp blurStride b' q
                 = nms_value gradient direction width height stride q)
    (nonMaximumSuppression gradient direction width height stride blurStride
                           blur0 blurp).
Proof.
  pose proof fits as (Hw & Hh & Hs & Hbs & Hbp & Hg & Hd & Hb).
  unfold nonMaximumSuppression, total. apply sat_bind.
  replace blurp with (blurp + blurStride * 0) at 1 by lia.
  eapply sat_weaken; [|apply (fill_row blur0 0); [reflexivity|lia]].
  cbv beta. intros b1 (Hlen1 & Hq1). apply sat_bind.
  eapply sat_weaken;
    [|apply (sat_for_range _ _ _
               (fun y st' => at_row (y - 1) st' /\
                  forall q, in_plane width height q -> snd q < y ->
                    blur_at blurp blurStride (nblur st') q
                    = nms_value gradient direction width height stride q))].
  - cbv beta. intros st' ((Hgp & Hdp & Hbq & Hlen) & Hq).
    replace (blurq st' + blurStride)
      with (blurp + blurStride * (Z.max 1 (height - 1))) by (rewrite Hbq; lia).
    eapply sat_weaken; [|apply (fill_row (nblur st') _); [exact Hlen|lia]].
    cbv beta. intros b' (Hlen' & Hq'). split; [exact Hlen'|].
    intros q Hin. rewrite (Hq' q Hin). unfold in_plane in Hin.
    destruct (Z.eqb_spec (snd q) (Z.max 1 (height - 1))) as [E|E].
    + symmetry. apply nms_value_border. unfold interior. lia.
    + apply Hq; [exact Hin|lia].
  - intros y s' Hy (Hrow & Hq).
    eapply sat_weaken; [|apply (nms_row_spec y s'); [lia|exact Hrow]].
    cbv beta. intros st' (Hrow' & Hq'). split.
    + replace (y + 1 - 1) with y by lia. exact Hrow'.
    + intros q Hin Hlt. rewrite (Hq' q Hin).
      destruct (Z.eqb_spec (snd q) y) as [E|E]; [reflexivity|].
      apply Hq; [exact Hin|lia].
  - split.
    + unfold at_row. cbn [nblur gradp dirp blurq].
      repeat split; first [lia | exact Hlen1].
    + intros q Hin Hlt. cbn [nblur]. rewrite (Hq1 q Hin).
      unfold in_plane in Hin.
      destruct (Z.eqb_spec (snd q) 0) as [E|E]; [|lia].
      symmetry. apply nms_value_border. unfold interior. lia.
Qed.

End NmsProof.

(** The output of the stage is a suppressed map, as long as no magnitude
    is the "confirmed" sentinel itself. *)
Lemma nms_suppressed (gradient direction : list float32)
  (width height stride blurStride blurp : Z) (blur0 : list float32) :
  nms_fits gradient direction width height stride blurStride blurp blur0 ->
  castable direction width height stride ->
  (forall p, in_plane width height p ->
             grad_at gradient stride p <> F32.FLT_MAX) ->
  exists b',
    nonMaximumSuppression gradient direction width height stride blurStride
                          blur0 blurp = Done b' /\
    length b' = length blur0 /\
    suppressed_map blurp width height blurStride b'.
Proof.
  intros Hfit Hcast Hmax.
  destruct (total_Done _ _ (nms_spec _ _ _ _ _ _ _ _ Hfit Hcast))
    as (b' & E & Hlen & Hq).
  exists b'. split; [exact E|]. split; [exact Hlen|].
  intros p Hp. rewrite (Hq p Hp). split; [|split].
  - apply nms_value_border.
  - unfold nms_value. destruct (interiorb width height p); [|reflexivity].
    destruct (is_maximum gradient direction stride p) eqn:Em; [|reflexivity].
    apply (F32Facts.leb_not_nan _ _ Em).
  - unfold nms_value. destruct (interiorb width height p); [|discriminate].
    destruct (is_maximum gradient direction stride p); [|discriminate].
    apply Hmax, Hp.
Qed.



(** C6.  For every pixel, the value that non-maximum suppression writes
    is the magnitude of the pixel or the sentinel [-FLT_MAX], nothing
    else, and it never exceeds that magnitude (the magnitudes being the
    square roots that [detectEdge] stores). *)
Theorem nms_never_increases (gradient direction : list float32)
  (width height stride blurStride blurp : Z) (blur0 : list float32) :
  nms_fits gradient direction width height stride blurStride blurp blur0 ->
  castable direction width height stride ->
  (forall p, in_plane width height p ->
             exists gx gy, grad_at gradient stride p = gradient_magnitude gx gy) ->
  exists b',
    nonMaximumSuppression gradient direction width height stride blurStride
                          blur0 blurp = Done b' /\
    forall p, in_plane width height p ->
      (blur_at blurp blurStride b' p = grad_at gradient stride p \/
       blur_at blurp blurStride b' p = F32.NEG_FLT_MAX) /\
      F32.ltb (grad_at gradient stride p) (blur_at blurp blurStride b' p) = false.
Proof.
  intros Hfit Hcast Hmag.
  destruct (total_Done _ _ (nms_spec _ _ _ _ _ _ _ _ Hfit Hcast))
    as (b' & E & Hlen & Hq).
  exists b'. split; [exact E|]. intros p Hp. rewrite (Hq p Hp).
  assert (F32.ltb (grad_at gradient stride p) F32.NEG_FLT_MAX = false) as Hlow.
  { destruct (Hmag p Hp) as (gx & gy & ->). apply F32Facts.sqrt_not_below. }
  unfold nms_value. destruct (interiorb width height p).
  - destruct (is_maximum gradient direction stride p).
    + split; [left; reflexivity|apply F32Facts.ltb_irrefl].
    + split; [right; reflexivity|exact Hlow].
  - split; [right; reflexivity|exact Hlow].
Qed.

(** ** The claims about the hysteresis pass *)

Lemma load_inv {A : Type} (f : fault) (l : list A) (i : Z) (v : A) :
  load f l i = Done v -> 0 <= i /\ l !! Z.to_nat i = Some v.
Proof.
  unfold load. destruct (Z.ltb_spec i 0); [discriminate|].
  destruct (l !! Z.to_nat i); [|discriminate].
  intros E. injection E as ->. auto.
Qed.

Lemma store_inv {A : Type} (f : fault) (l l' : list A) (i : Z) (v : A) :
  store f l i v = Done l' ->
  0 <= i < Z.of_nat (length l) /\ l' = <[Z.to_nat i := v]> l.
Proof.
  unfold store.
  destruct (Z.leb_spec 0 i), (Z.ltb_spec i (Z.of_nat (length l)));
    cbn [andb]; try discriminate.
  intros E. injection E as <-. split; [lia|reflexivity].
Qed.

Lemma bind_inv {A B : Type} (m : outcome A) (k : A -> outcome B) (b : B) :
  bind m k = Done b -> exists a, m = Done a /\ k a = Done b.
Proof. destruct m as [a| |]; cbn [bind]; [eauto|discriminate|discriminate]. Qed.

(** [confirm] sets the mask byte and then pushes, one entry, below the
    capacity of the stack. *)
Lemma confirm_inv (blurp width blurStride x y : Z) (st st' : hstate) :
  confirm blurp width blurStride x y st = Done st' ->
  map (stack st') = <[Z.to_nat (midx width x y) := UINT8_MAX]> (map (stack st)) /\
  map (stack st') !! Z.to_nat (midx width x y) = Some UINT8_MAX /\
  pushed st' = (x, y) :: pushed st /\
  index (stack st') = index (stack st) + 1 /\
  index (stack st') < Z.of_nat (length (pos (stack st))).
Proof.
  unfold confirm, push. cbn [index pos map]. intros E.
  apply bind_inv in E. destruct E as (b & Eb & E).
  apply bind_inv in E. destruct E as (m & Em & E).
  apply bind_inv in E. destruct E as (s & Es & E).
  apply bind_inv in Es. destruct Es as (ps & Eps & Es).
  injection Es as <-. injection E as <-. cbn [stack map pos index pushed].
  apply store_inv in Em. destruct Em as (Hm & ->).
  apply store_inv in Eps. destruct Eps as (Hps & _).
  repeat split; trivial; try lia.
  apply list_lookup_insert_eq. lia.
Qed.

(** A neighbour is pushed only while its mask byte is zero. *)
Lemma visit_inv (blurp width blurStride : Z) (t_l : float32) (yy xx : Z)
  (st st' : hstate) :
  visit blurp width blurStride t_l yy xx st = Done st' ->
  st' = st \/
  (map (stack st) !! Z.to_nat (midx width xx yy) = Some 0 /\
   confirm blurp width blurStride xx yy st = Done st').
Proof.
  unfold visit. intros E.
  apply bind_inv in E. destruct E as (v & _ & E).
  destruct (F32.leb t_l v); [|injection E as <-; left; reflexivity].
  apply bind_inv in E. destruct E as (m & Em & E).
  apply load_inv in Em. destruct Em as (_ & Em).
  destruct (Z.eqb_spec m 0) as [->|_]; [right; auto|].
  injection E as <-. left. reflexivity.
Qed.

(** A seed is pushed only while its mask byte is zero. *)
Lemma seed_inv (blurp width blurStride : Z) (t_h t_l : float32) (fuel : nat)
  (y x : Z) (st st' : hstate) :
  seed blurp width blurStride t_h t_l fuel y x st = Done st' ->
  st' = st \/
  (map (stack st) !! Z.to_nat (midx width x y) = Some 0 /\
   exists st1, confirm blurp width blurStride x y st = Done st1 /\
               drain blurp width blurStride t_l fuel st1 = Done st').
Proof.
  unfold seed. intros E.
  apply bind_inv in E. destruct E as (v & _ & E).
  destruct (F32.ltb v t_h); [injection E as <-; left; reflexivity|].
  apply bind_inv in E. destruct E as (m & Em & E).
  apply load_inv in Em. destruct Em as (_ & Em).
  destruct (Z.eqb_spec m 0) as [->|_]; cbn [negb] in E.
  - apply bind_inv in E. destruct E as (st1 & E1 & E). right. eauto.
  - injection E as <-. left. reflexivity.
Qed.

Lemma NoDup_bounded_length (l : list Z) (n : Z) :
  0 <= n -> NoDup l -> (forall z, z ∈ l -> 0 <= z < n) ->
  Z.of_nat (length l) <= n.
Proof.
  intros Hn Hnd Hin.
  assert (l ⊆+ seqZ 0 n) as Hsub.
  { apply NoDup_submseteq; [exact Hnd|].
    intros z Hz. apply elem_of_seqZ. specialize (Hin z Hz). lia. }
  apply submseteq_length in Hsub. rewrite length_seqZ in Hsub. lia.
Qed.

(** C3.  During one pass on a [width] x [height] plane, with a visit
    mask and a stack of [width * height] entries: a neighbour or a seed
    is pushed only while its mask byte is zero, and [confirm] sets the
    byte before it pushes; so no mask byte is pushed twice, the index of
    the stack never reaches [width * height] (no push leaves the array)
    and the pass ends within the fuel [width * height + 1] per run of
    the [while] loop.  The thresholds and the content of [blur] are
    arbitrary; the only faults left are accesses outside [blur] and the
    mask. *)
Theorem hysteresis_stack_discipline (blurp width height blurStride : Z)
  (t_h t_l : float32) (fuel : nat) (b : list float32) (s : Stack) :
  Z.of_nat (length (map s)) = width * height ->
  Z.of_nat (length (pos s)) = width * height ->
  width * height < Z.of_nat fuel ->
  (forall yy xx st st',
     visit blurp width blurStride t_l yy xx st = Done st' ->
     st' = st \/
     (map (stack st) !! Z.to_nat (midx width xx yy) = Some 0 /\
      confirm blurp width blurStride xx yy st = Done st')) /\
  (forall y x st st',
     seed blurp width blurStride t_h t_l fuel y x st = Done st' ->
     st' = st \/
     (map (stack st) !! Z.to_nat (midx width x y) = Some 0 /\
      exists st1, confirm blurp width blurStride x y st = Done st1 /\
                  drain blurp width blurStride t_l fuel st1 = Done st')) /\
  (forall x y st st',
     confirm blurp width blurStride x y st = Done st' ->
     map (stack st') !! Z.to_nat (midx width x y) = Some UINT8_MAX /\
     pushed st' = (x, y) :: pushed st /\
     index (stack st') = index (stack st) + 1 /\
     index (stack st') < Z.of_nat (length (pos (stack st)))) /\
  match hysteresis blurp width height blurStride t_h t_l fuel b s with
  | Done st =>
      index (stack st) = -1 /\
      NoDup ((fun p => midx width (fst p) (snd p)) <$> pushed st) /\
      Z.of_nat (length (pushed st)) <= width * height /\
      (forall p, p ∈ pushed st ->
         map (stack st) !! Z.to_nat (midx width (fst p) (snd p))
         = Some UINT8_MAX)
  | Fault f => f = BlurOOB \/ f = MapOOB
  | OutOfFuel => False
  end.
Proof.
  intros Hm Hp Hfuel.
  split; [intros yy xx st st'; apply visit_inv|].
  split; [intros y x st st'; apply seed_inv|].
  split; [intros x y st st' E; apply confirm_inv in E; tauto|].
  pose proof (hysteresis_stack_inv blurp width height blurStride t_h t_l
                fuel b s Hm Hp Hfuel) as H.
  destruct (hysteresis blurp width height blurStride t_h t_l fuel b s)
    as [st|f|]; cbn [sat] in H; [|exact H|exact H].
  destruct H as ((Hm' & Hp' & Hi & Hb & Hnd & Hlog) & Hidx).
  split; [exact Hidx|]. split; [exact Hnd|]. split.
  - rewrite <- (length_fmap (fun p => midx width (fst p) (snd p))).
    apply NoDup_bounded_length; [lia|exact Hnd|].
    intros z Hz. apply list_elem_of_fmap in Hz. destruct Hz as (p & -> & Hin).
    destruct (Hlog p Hin) as (H0 & Hl). apply lookup_lt_Some in Hl. lia.
  - intros p Hin. apply (Hlog p Hin).
Qed.

(** ** A 3 x 3 plane

    The buffers have the sizes that [tcannyGetFrame] allocates for an
    8-bit plane of 3 x 3 samples whose rows are 32 bytes apart: [blur]
    has [(32 + 16) * 3] entries and starts at entry 8, [gradient] and
    [direction] have [32 * (3 + 1)] entries, the mask and the stack
    have 9.  The only magnitude that is not zero is 10, in the centre. *)

Module Example.

Definition gradient : list float32 :=
  <[33%nat := F32.of_int 10]> (replicate 128 F32.zero).

Definition direction : list float32 := replicate 128 F32.zero.

Definition scratch : list float32 := replicate 144 F32.zero.

(** The suppressed map of the plane. *)
Definition suppressed : list float32 :=
  Eval vm_compute in
    match nonMaximumSuppression gradient direction 3 3 32 48 scratch 8 with
    | Done b => b
    | _ => []
    end.

(** The mask and the stack as an earlier pass may have left them. *)
Definition stack0 : Stack := mkStack (replicate 9 UINT8_MAX) (replicate 9 (2, 2)) 4.

End Example.

Lemma hysteresis_stack_discipline_witness :
  match hysteresis 8 3 3 48 (F32.of_int 8) (F32.of_int 1) 10
          Example.suppressed Example.stack0 with
  | Done st =>
      index (stack st) = -1 /\
      NoDup ((fun p => midx 3 (fst p) (snd p)) <$> pushed st) /\
      Z.of_nat (length (pushed st)) <= 3 * 3 /\
      (forall p, p ∈ pushed st ->
         map (stack st) !! Z.to_nat (midx 3 (fst p) (snd p)) = Some UINT8_MAX)
  | Fault f => f = BlurOOB \/ f = MapOOB
  | OutOfFuel => False
  end.
Proof.
  exact (proj2 (proj2 (proj2
    (hysteresis_stack_discipline 8 3 3 48 (F32.of_int 8) (F32.of_int 1) 10
       Example.suppressed Example.stack0 eq_refl eq_refl eq_refl)))).
Defined.

(** C1.  The low threshold of this run is minus infinity, which
    [tcannyCreate] accepts since it is below [t_h]: every pixel of the
    suppressed map, the sentinels of the border included, then reaches
    [t_l], the flood fill leaves the plane, and the pass reads the visit
    mask one byte past its end instead of ending with the connected
    pixels confirmed. *)
Theorem hysteresis_leaves_plane :
  F32.ltb F32.neg_infinity (F32.of_int 8) = true /\
  nonMaximumSuppression Example.gradient Example.direction 3 3 32 48
    Example.scratch 8 = Done Example.suppressed /\
  hysteresis 8 3 3 48 (F32.of_int 8) F32.neg_infinity 10
    Example.suppressed Example.stack0 = Fault MapOOB.
Proof. vm_compute. auto. Qed.

(** Raising both thresholds only removes reached pixels. *)
Lemma reach_antitone (blurp width height blurStride : Z)
  (t_h t_l t_h' t_l' : float32) (b0 : list float32) (p : pixel) :
  F32.leb t_h t_h' = true -> F32.leb t_l t_l' = true ->
  reach blurp width height blurStride t_h' t_l' b0 p ->
  reach blurp width height blurStride t_h t_l b0 p.
Proof.
  intros Hh Hl Hr. induction Hr as [p Hp Hs|p q Hr IH Hadj Hq Hw].
  - apply reach_seed; [exact Hp|]. unfold strong in *.
    apply (F32Facts.leb_trans _ t_h'); assumption.
  - apply (reach_step _ _ _ _ _ _ _ p); trivial. unfold weak in *.
    apply (F32Facts.leb_trans _ t_l'); assumption.
Qed.

(** C7.  For a fixed suppressed map, the set of pixels that the
    hysteresis pass confirms is antitone in both thresholds: with
    [t_h <= t_h'] and [t_l <= t_l'] (each low threshold below its high
    one), both passes run to their end and every pixel that holds
    [FLT_MAX] after the pass with [t_h'] and [t_l'] holds it after the
    pass with [t_h] and [t_l]; taking [t_l' = t_l] or [t_h' = t_h] gives
    the two cases of the claim.  The low thresholds are above the
    sentinel [-FLT_MAX] of the border, the buffers cover the plane. *)
Theorem hysteresis_antitone (blurp width height blurStride : Z)
  (t_h t_l t_h' t_l' : float32) (fuel : nat) (b0 : list float32)
  (s s' : Stack) :
  plane_fits blurp width height blurStride b0 (map s) ->
  plane_fits blurp width height blurStride b0 (map s') ->
  Z.of_nat (length (pos s)) = width * height ->
  Z.of_nat (length (pos s')) = width * height ->
  width * height < Z.of_nat fuel ->
  suppressed_map blurp width height blurStride b0 ->
  F32.ltb t_l t_h = true -> F32.ltb t_l' t_h' = true ->
  F32.ltb F32.NEG_FLT_MAX t_l = true ->
  F32.leb t_h t_h' = true -> F32.leb t_l t_l' = true ->
  exists st st',
    hysteresis blurp width height blurStride t_h t_l fuel b0 s = Done st /\
    hysteresis blurp width height blurStride t_h' t_l' fuel b0 s' = Done st' /\
    forall p, in_plane width height p ->
      blur_at blurp blurStride (blur st') p = F32.FLT_MAX ->
      blur_at blurp blurStride (blur st) p = F32.FLT_MAX.
Proof.
  intros Hfit Hfit' Hpos Hpos' Hfuel Hsup Hlt Hlt' Hlow Hh Hl.
  assert (F32.ltb F32.NEG_FLT_MAX t_l' = true) as Hlow'
    by (apply (F32Facts.ltb_leb_trans _ t_l); assumption).
  destruct (hysteresis_connected blurp width height blurStride t_h t_l b0
              fuel s Hfit Hpos Hfuel Hsup Hlt Hlow) as (st & E & H).
  destruct (hysteresis_connected blurp width height blurStride t_h' t_l' b0
              fuel s' Hfit' Hpos' Hfuel Hsup Hlt' Hlow') as (st' & E' & H').
  exists st, st'. split; [exact E|]. split; [exact E'|].
  intros p Hp Hmax. apply (H p Hp). apply (H' p Hp) in Hmax.
  apply reach_connected; [exact Hlt|].
  apply reach_connected in Hmax; [|exact Hlt'].
  apply (reach_antitone _ _ _ _ _ _ t_h' t_l'); assumption.
Qed.

(** ** The claims about the filter *)

Definition sigma_message : string := "TCanny: sigma must be greater than 0.0".
Definition threshold_message : string := "TCanny: t_h must be greater than t_l".

(** C8, as amended.  When the low threshold is not below the high one
    (each with its default when absent), [tcannyCreate] only sets an
    error: it takes no node, allocates nothing and creates no filter.
    The message is the one about the order of the thresholds, unless
    [sigma <= 0], which is tested first and reported instead. *)
Theorem create_rejects_inverted_thresholds
  (gaussianWeights32 : float32 -> Z * option (list float32))
  (junk : TCannyData) (a : Arguments) :
  F32.leb (default (F32.of_int 8) (arg_t_h a))
          (default (F32.of_int 1) (arg_t_l a)) = true ->
  tcannyCreate gaussianWeights32 junk a
  = [SetError
       (if F32.leb (default (S754_finite false 12582912 (-23)) (arg_sigma a))
                   F32.zero
        then sigma_message else threshold_message)].
Proof.
  intros H. unfold tcannyCreate.
  destruct (F32.leb (default (S754_finite false 12582912 (-23)) (arg_sigma a))
                    F32.zero); [reflexivity|].
  rewrite H. reflexivity.
Qed.

Module ExampleCreate.

Definition gray8 : VSVideoInfo :=
  mkVideoInfo (mkFormat cmOther stInteger 8 1) 3 3 true.

Definition junk : TCannyData :=
  mkData gray8 F32.zero F32.zero F32.zero F32.zero 0 0 [] 0 0 0 []
    F32.zero 0 [F32.zero; F32.zero; F32.zero] [F32.zero; F32.zero; F32.zero]
    [F32.zero; F32.zero; F32.zero].

(** No weights: the allocation fails. *)
Definition no_weights (s : float32) : Z * option (list float32) := (1, None).

(** [t_l = 2 >= t_h = 1], with the default [sigma]. *)
Definition inverted : Arguments :=
  mkArgs gray8 None (Some (F32.of_int 1)) (Some (F32.of_int 2))
    None None None None.

(** The same thresholds, with [sigma = 0]. *)
Definition inverted_sigma0 : Arguments :=
  mkArgs gray8 (Some F32.zero) (Some (F32.of_int 1)) (Some (F32.of_int 2))
    None None None None.

End ExampleCreate.

Lemma create_rejects_inverted_thresholds_witness :
  F32.leb (F32.of_int 1) (F32.of_int 2) = true /\
  tcannyCreate ExampleCreate.no_weights ExampleCreate.junk
    ExampleCreate.inverted
  = [SetError threshold_message].
Proof.
  split; [reflexivity|].
  exact (create_rejects_inverted_thresholds ExampleCreate.no_weights
           ExampleCreate.junk ExampleCreate.inverted eq_refl).
Defined.

(** C8 as stated fails: with [t_l = 2 >= t_h = 1] and [sigma = 0] the
    error that [tcannyCreate] sets is the one about [sigma], not the one
    about the order of the thresholds. *)
Lemma create_reports_sigma_first :
  F32.leb (F32.of_int 1) (F32.of_int 2) = true /\
  tcannyCreate ExampleCreate.no_weights ExampleCreate.junk
    ExampleCreate.inverted_sigma0
  = [SetError sigma_message] /\
  sigma_message <> threshold_message.
Proof.
  split; [reflexivity|]. split; [reflexivity|]. discriminate.
Qed.

Lemma for_loop_ext {S : Type} (body1 body2 : Z -> S -> outcome S) :
  (forall j s, body1 j s = body2 j s) ->
  forall (n : nat) (i : Z) (s : S),
    for_loop n i body1 s = for_loop n i body2 s.
Proof.
  intros Hb. induction n as [|n IH]; intros i s; cbn [for_loop]; [reflexivity|].
  rewrite Hb. destruct (body2 i s); cbn [bind]; auto.
Qed.

Section FrameClaims.

Variable gaussianBlurVertical :
  sample_kind -> list Z -> list float32 -> Z -> list float32 -> Z ->
  list float32 -> Z -> Z -> Z -> Z -> Z -> float32 ->
  outcome (list float32 * list float32).
Variable detectEdge :
  list float32 -> Z -> list float32 -> list float32 -> Z -> Z -> Z -> Z ->
  Z -> Z -> outcome (list float32 * list float32 * list float32).
Variable outputGB :
  sample_kind -> list float32 -> Z -> list Z -> Z -> Z -> Z -> Z -> Z ->
  float32 -> float32 -> outcome (list Z).
Variable binarizeCE :
  sample_kind -> list float32 -> Z -> list Z -> Z -> Z -> Z -> Z -> Z ->
  float32 -> float32 -> outcome (list Z).
Variable discretizeGM :
  sample_kind -> list float32 -> list Z -> Z -> Z -> Z -> float32 -> Z ->
  float32 -> float32 -> outcome (list Z).
Variable discretizeDM_T :
  sample_kind -> list float32 -> Z -> list float32 -> list Z -> Z -> Z -> Z ->
  Z -> Z -> float32 -> float32 -> outcome (list Z).
Variable discretizeDM :
  sample_kind -> list float32 -> list Z -> Z -> Z -> Z -> Z -> float32 ->
  outcome (list Z).
Variable fuel : nat.

Let run_frame :=
  process_frame gaussianBlurVertical detectEdge outputGB binarizeCE
    discretizeGM discretizeDM_T discretizeDM fuel.

Let get_frame :=
  tcannyGetFrame gaussianBlurVertical detectEdge outputGB binarizeCE
    discretizeGM discretizeDM_T discretizeDM fuel.

(** [process<T>] writes the selected planes only. *)
Lemma process_frame_keeps (k : sample_kind) (d : TCannyData) (src : Frame)
  (ds ds' : Frame * Scratch) :
  run_frame k d src ds = Done ds' ->
  forall i, nth i (process d) false = false -> fst ds' !! i = fst ds !! i.
Proof.
  intros E.
  assert (sat (fun _ => True) True
            (fun r => forall i, nth i (process d) false = false ->
                                fst r !! i = fst ds !! i)
            (run_frame k d src ds)) as H.
  { unfold run_frame, process_frame.
    eapply sat_weaken;
      [|apply (sat_for_range _ _ _
                 (fun _ r => forall i, nth i (process d) false = false ->
                                       fst r !! i = fst ds !! i))].
    - cbv beta. auto.
    - intros j r Hj Hr.
      destruct (nth (Z.to_nat j) (process d) false) eqn:Esel; [|exact Hr].
      destruct (src !! Z.to_nat j); [|exact I].
      destruct (fst r !! Z.to_nat j); [|exact I].
      apply sat_bind.
      destruct (process_plane _ _ _ _ _ _ _ _ _ _ _ _ _ _);
        cbn [sat]; trivial.
      cbv beta. cbn [sat fst]. intros i Hi. rewrite list_lookup_insert_ne; [apply Hr, Hi|].
      intros Eji. subst i. congruence.
    - reflexivity. }
  rewrite E in H. exact H.
Qed.

(** C9.  In the frame that [tcannyGetFrame] returns, every plane that is
    not selected is the plane of the source frame: [newVideoFrame2]
    takes it from the source and [process] writes the selected planes
    only.  (A format has at most three planes and the source frame has
    the planes of the format.) *)
Theorem unselected_planes_are_copied (d : TCannyData) (src : Frame)
  (heap : Heap) (fresh : Frame) (scr : Scratch) (dst : Frame) :
  numPlanes (format (vi d)) <= 3 ->
  length src = Z.to_nat (numPlanes (format (vi d))) ->
  tcannyGetFrame gaussianBlurVertical detectEdge outputGB binarizeCE
    discretizeGM discretizeDM_T discretizeDM fuel
    d arAllFramesReady src heap fresh scr = Done (Some dst) ->
  forall i, (i < length src)%nat -> nth i (process d) false = false ->
            dst !! i = src !! i.
Proof.
  intros Hn Hlen E i Hi Hsel. unfold tcannyGetFrame in E.
  destruct (negb (buffer_ok heap)); [discriminate|].
  destruct (negb (blur_ok heap)); [discriminate|].
  destruct (negb (mode d =? -1) && negb (gradient_ok heap)); [discriminate|].
  destruct (negb (mode d =? -1) && negb (mode d =? 1) && negb (direction_ok heap));
    [discriminate|].
  destruct ((Z.land (mode d) 1 =? 0) && negb (stack_ok heap)); [discriminate|].
  apply bind_inv in E. destruct E as (r & Er & E). injection E as <-.
  rewrite (process_frame_keeps _ _ _ _ _ Er i Hsel). cbn [fst].
  unfold newVideoFrame2. rewrite list_lookup_fmap.
  rewrite lookup_seq_lt by lia. cbn [fmap option_fmap option_map Nat.add].
  destruct (lookup_lt_is_Some_2 src i Hi) as [pl Hpl].
  rewrite Hpl. f_equal.
  assert (i < 3)%nat as Hi3 by lia.
  destruct i as [|[|[|i]]]; try lia; cbn [nth fmap list_fmap];
    rewrite Hsel; cbn [nth];
    erewrite nth_lookup_Some by exact Hpl; reflexivity.
Qed.

Lemma process_plane_thresholds (k : sample_kind) (d : TCannyData)
  (th tl : float32) (plane : nat) (sp dp : Plane) (scr : Scratch) :
  mode d = -1 \/ mode d = 1 \/ mode d = 3 ->
  process_plane gaussianBlurVertical detectEdge outputGB binarizeCE
    discretizeGM discretizeDM_T discretizeDM fuel
    k (with_thresholds d th tl) plane sp dp scr
  = process_plane gaussianBlurVertical detectEdge outputGB binarizeCE
      discretizeGM discretizeDM_T discretizeDM fuel k d plane sp dp scr.
Proof.
  intros Hm. unfold process_plane, with_thresholds.
  cbn [vi sigma t_h t_l gmmax mode op process radius radiusAlign bins weights
       magnitude peak offset lower upper].
  assert ((Z.land (mode d) 1 =? 0) = false) as ->
    by (destruct Hm as [-> | [-> | ->] ]; reflexivity).
  reflexivity.
Qed.

(** C10.  In the modes -1, 1 and 3, [process] runs neither
    [nonMaximumSuppression] nor [hysteresis], so a second invocation that
    differs only in [t_h] and [t_l] returns the same frame. *)
Theorem odd_modes_ignore_thresholds (d : TCannyData) (th tl : float32)
  (reason : activation) (src : Frame) (heap : Heap) (fresh : Frame)
  (scr : Scratch) :
  mode d = -1 \/ mode d = 1 \/ mode d = 3 ->
  tcannyGetFrame gaussianBlurVertical detectEdge outputGB binarizeCE
    discretizeGM discretizeDM_T discretizeDM fuel
    (with_thresholds d th tl) reason src heap fresh scr
  = tcannyGetFrame gaussianBlurVertical detectEdge outputGB binarizeCE
      discretizeGM discretizeDM_T discretizeDM fuel
      d reason src heap fresh scr.
Proof.
  intros Hm. unfold tcannyGetFrame.
  destruct reason; [reflexivity| |reflexivity].
  change (mode (with_thresholds d th tl)) with (mode d).
  change (process (with_thresholds d th tl)) with (process d).
  change (vi (with_thresholds d th tl)) with (vi d).
  assert (forall k ds,
            process_frame gaussianBlurVertical detectEdge outputGB binarizeCE
              discretizeGM discretizeDM_T discretizeDM fuel
              k (with_thresholds d th tl) src ds
            = process_frame gaussianBlurVertical detectEdge outputGB binarizeCE
                discretizeGM discretizeDM_T discretizeDM fuel k d src ds) as Hp.
  { intros k ds. unfold process_frame, for_range.
    change (process (with_thresholds d th tl)) with (process d).
    change (vi (with_thresholds d th tl)) with (vi d).
    apply for_loop_ext. intros j s.
    destruct (nth (Z.to_nat j) (process d) false); [|reflexivity].
    destruct (src !! Z.to_nat j); [|reflexivity].
    destruct (fst s !! Z.to_nat j); [|reflexivity].
    rewrite process_plane_thresholds by exact Hm. reflexivity. }
  rewrite Hp. reflexivity.
Qed.

End FrameClaims.

(** ** [gaussianWeights] *)

Module Kernel.




(** The array [weights] and the variable [sum]. *)
Record kstate : Type := mkK {
  kweights : list float32;
  ksum : float32
}.

Section Weights.

(** [std::exp] on [float]. *)
Variable expf : float32 -> float32.

(** [new (std::nothrow) float[n]]: the new array, of unspecified
    content, unless the allocation fails. *)
Variable heap : Z -> option (list float32).



End Weights.



Section WeightsProof.

Variable expf : float32 -> float32.
Variable heap : Z -> option (list float32).
Variable sigma : float32.
Variable r : Z.
Hypothesis r_range : 1 <= r <= 46340.

Let w (k : Z) : float32 :=
  expf (F32.div (F32.of_int (- (k * k)))
                (F32.mul (F32.mul (F32.of_int 2) sigma) sigma)).

Let partial (n : Z) : float32 :=
  fold_left (fun s k => F32.add s (w k)) (seqZ (- r) n) F32.zero.




End WeightsProof.






End Kernel.

(** ** Rounding to nearest and a bound that is a binary32 number *)

Module Rounding.

(** [digits2_pos m] is the number of binary digits of [m]. *)
Lemma digits2_size (m : positive) : digits2_pos m = Pos.size m.
Proof. induction m as [m IH|m IH|]; cbn; congruence. Qed.

Lemma digits_bounds (m : positive) :
  2 ^ (Z.pos (digits2_pos m) - 1) <= Z.pos m < 2 ^ Z.pos (digits2_pos m).
Proof.
  rewrite digits2_size. split.
  - pose proof (Pos.size_le m) as H.
    assert (Z.pos (2 ^ Pos.size m) <= Z.pos m~0) as H' by exact H.
    rewrite Pos2Z.inj_pow in H'.
    replace (Z.pos (Pos.size m)) with (Z.pos (Pos.size m) - 1 + 1) in H' by lia.
    rewrite Z.pow_add_r in H' by lia. lia.
  - pose proof (Pos.size_gt m) as H.
    assert (Z.pos m < Z.pos (2 ^ Pos.size m)) as H' by exact H.
    rewrite Pos2Z.inj_pow in H'. exact H'.
Qed.

(** The number of digits is fixed by the two powers of two around. *)
Lemma digits_unique (m : positive) (d : Z) :
  2 ^ (d - 1) <= Z.pos m < 2 ^ d -> Z.pos (digits2_pos m) = d.
Proof.
  intros H. pose proof (digits_bounds m) as Hm.
  set (k := Z.pos (digits2_pos m)) in *.
  assert (0 < k) by (subst k; lia).
  destruct (Z.lt_trichotomy k d) as [Hlt|[Heq|Hgt] ]; [|exact Heq|].
  - assert (2 ^ k <= 2 ^ (d - 1)) by (apply Z.pow_le_mono_r; lia). lia.
  - assert (0 <= d \/ d < 0) as [Hd|Hd] by lia.
    + assert (2 ^ d <= 2 ^ (k - 1)) by (apply Z.pow_le_mono_r; lia). lia.
    + rewrite (Z.pow_neg_r 2 d) in H by lia. lia.
Qed.

Lemma iter_xO (d m : positive) :
  Z.pos (Pos.iter xO m d) = Z.pos m * 2 ^ Z.pos d.
Proof.
  induction d as [|d IH] using Pos.peano_ind.
  - cbn. lia.
  - rewrite Pos.iter_succ. rewrite Pos2Z.inj_xO, IH.
    rewrite Pos2Z.inj_succ. rewrite Z.pow_succ_r by lia. lia.
Qed.

(** [iter_pos] of SpecFloat is [Pos.iter]. *)
Lemma iter_pos_comm {A : Type} (f : A -> A) (n : positive) (x : A) :
  SpecFloat.iter_pos f n (f x) = f (SpecFloat.iter_pos f n x).
Proof.
  revert x. induction n as [n IH|n IH|]; intros x; cbn.
  - rewrite !IH. reflexivity.
  - rewrite !IH. reflexivity.
  - reflexivity.
Qed.

Lemma iter_pos_iter {A : Type} (f : A -> A) (n : positive) (x : A) :
  SpecFloat.iter_pos f n x = Pos.iter f x n.
Proof.
  revert x. induction n as [n IH|n IH|]; intros x; cbn.
  - rewrite !iter_pos_comm, !IH. reflexivity.
  - rewrite !IH. reflexivity.
  - reflexivity.
Qed.

(** What [n] steps of [shr_1] leave of a mantissa that is not negative:
    the quotient by [2^n], and no round or sticky bit when the division
    is exact. *)
Definition shifted (m : Z) (n : Z) (mrs : shr_record) : Prop :=
  shr_m mrs = m / 2 ^ n /\
  (m mod 2 ^ n = 0 -> shr_r mrs = false /\ shr_s mrs = false).

Lemma shr_1_shifted (m : Z) (n : Z) (mrs : shr_record) :
  0 <= m -> 0 <= n -> shifted m n mrs -> shifted m (n + 1) (shr_1 mrs).
Proof.
  intros Hm Hn (H1 & H2). destruct mrs as [m' r s]. cbn [shr_m shr_r shr_s] in *.
  assert (0 < 2 ^ n) by (apply Z.pow_pos_nonneg; lia).
  assert (m / 2 ^ (n + 1) = m' / 2) as Hq.
  { rewrite Z.pow_add_r by lia. rewrite <- Z.div_div by lia.
    rewrite <- H1. reflexivity. }
  assert (m mod 2 ^ (n + 1) = 0 -> m mod 2 ^ n = 0 /\ m' mod 2 = 0) as Hr.
  { intros Hz. rewrite Z.pow_add_r in Hz by lia.
    rewrite Z.rem_mul_r in Hz by lia. change (2 ^ 1) with 2 in Hz.
    rewrite <- H1 in Hz.
    pose proof (Z.mod_pos_bound m (2 ^ n)).
    pose proof (Z.mod_pos_bound m' 2). nia. }
  assert (0 <= m') as Hm' by (rewrite H1; apply Z.div_pos; lia).
  unfold shifted. rewrite Hq.
  destruct m' as [|p|p]; [| |lia].
  - cbn [shr_1 shr_m shr_r shr_s]. split; [reflexivity|].
    intros Hz. destruct (Hr Hz) as (Hz1 & _). destruct (H2 Hz1) as (-> & ->).
    split; reflexivity.
  - destruct p as [p|p|]; cbn [shr_1 shr_m shr_r shr_s].
    + split; [rewrite Pos2Z.inj_xI; rewrite Z.mul_comm, Z.div_add_l by lia;
              reflexivity|].
      intros Hz. destruct (Hr Hz) as (_ & Hodd).
      rewrite Pos2Z.inj_xI in Hodd. rewrite Z.add_comm, Z.mul_comm in Hodd.
      rewrite Z.mod_add in Hodd by lia. discriminate.
    + split; [rewrite Pos2Z.inj_xO; rewrite Z.mul_comm, Z.div_mul by lia;
              reflexivity|].
      intros Hz. destruct (Hr Hz) as (Hz1 & _). destruct (H2 Hz1) as (-> & ->).
      split; reflexivity.
    + split; [reflexivity|].
      intros Hz. destruct (Hr Hz) as (_ & Hodd). discriminate.
Qed.

Lemma iter_shr_1_shifted (m : Z) (n : positive) :
  0 <= m ->
  shifted m (Z.pos n) (SpecFloat.iter_pos shr_1 n (Build_shr_record m false false)).
Proof.
  intros Hm. rewrite iter_pos_iter.
  induction n as [|n IH] using Pos.peano_ind.
  - cbn [Pos.iter]. apply (shr_1_shifted m 0); [exact Hm|lia|].
    split; cbn [shr_m shr_r shr_s]; [rewrite Z.div_1_r; reflexivity|auto].
  - rewrite Pos.iter_succ. rewrite Pos2Z.inj_succ.
    apply shr_1_shifted; [exact Hm|lia|exact IH].
Qed.

Lemma round_nearest_even_bounds (mrs : shr_record) :
  shr_m mrs
  <= round_nearest_even (shr_m mrs) (loc_of_shr_record mrs)
  <= shr_m mrs + 1 /\
  (shr_r mrs = false -> shr_s mrs = false ->
   round_nearest_even (shr_m mrs) (loc_of_shr_record mrs) = shr_m mrs).
Proof.
  destruct mrs as [m r s]. cbn [shr_m shr_r shr_s].
  destruct r, s; cbn [loc_of_shr_record round_nearest_even];
    try destruct (Z.even m); (split; [lia|]); intros; try discriminate;
    reflexivity.
Qed.

(** The first half of [binary_round_aux] at precision 24: the mantissa
    is cut down to the exponent [e'], then rounded. *)
Lemma shift_and_round (mz : positive) (ez : Z) :
  exists e' m1 m2,
    shr_fexp 24 128 (Z.pos mz) ez loc_Exact
    = (fst (shr_fexp 24 128 (Z.pos mz) ez loc_Exact), e') /\
    m1 = shr_m (fst (shr_fexp 24 128 (Z.pos mz) ez loc_Exact)) /\
    m2 = round_nearest_even m1
           (loc_of_shr_record (fst (shr_fexp 24 128 (Z.pos mz) ez loc_Exact))) /\
    e' = Z.max ez (Z.max (Z.pos (digits2_pos mz) + ez - 24) (-149)) /\
    m1 = Z.pos mz / 2 ^ (e' - ez) /\
    m1 <= m2 <= m1 + 1 /\
    (Z.pos mz mod 2 ^ (e' - ez) = 0 -> m2 = m1) /\
    m1 < 2 ^ 24.
Proof.
  pose proof (digits_bounds mz) as Hd.
  set (d := Z.pos (digits2_pos mz)) in *.
  unfold shr_fexp, shr. cbn [Zdigits2 shr_record_of_loc]. fold d.
  unfold fexp, emin. change (3 - 128 - 24) with (-149).
  set (e1 := Z.max (d + ez - 24) (-149)).
  assert (0 < d) as Hdpos by (subst d; lia).
  destruct (e1 - ez) as [|n|n] eqn:En.
  - exists ez, (Z.pos mz), (Z.pos mz). cbn [fst shr_m loc_of_shr_record
      round_nearest_even].
    assert (Z.max ez e1 = ez) as -> by lia.
    rewrite Z.sub_diag, Z.pow_0_r, Z.div_1_r.
    repeat split; try reflexivity; try lia.
    assert (2 ^ d <= 2 ^ 24) by (apply Z.pow_le_mono_r; lia). lia.
  - pose proof (iter_shr_1_shifted (Z.pos mz) n ltac:(lia)) as (H1 & H2).
    set (mrs := SpecFloat.iter_pos shr_1 n _) in *.
    pose proof (round_nearest_even_bounds mrs) as (H3 & H4).
    exists (ez + Z.pos n), (shr_m mrs),
      (round_nearest_even (shr_m mrs) (loc_of_shr_record mrs)).
    cbn [fst].
    assert (Z.max ez e1 = ez + Z.pos n) as -> by lia.
    replace (ez + Z.pos n - ez) with (Z.pos n) by lia.
    repeat split; try reflexivity; try lia; try exact H1.
    + intros Hz. destruct (H2 Hz) as (Hr & Hs). apply H4; assumption.
    + rewrite H1.
      assert (0 < 2 ^ Z.pos n) by (apply Z.pow_pos_nonneg; lia).
      apply Z.div_lt_upper_bound; [lia|].
      rewrite <- Z.pow_add_r by lia.
      assert (2 ^ d <= 2 ^ (Z.pos n + 24)) by (apply Z.pow_le_mono_r; lia).
      lia.
  - exists ez, (Z.pos mz), (Z.pos mz). cbn [fst shr_m loc_of_shr_record
      round_nearest_even].
    assert (Z.max ez e1 = ez) as -> by lia.
    rewrite Z.sub_diag, Z.pow_0_r, Z.div_1_r.
    repeat split; try reflexivity; try lia.
    assert (2 ^ d <= 2 ^ 24) by (apply Z.pow_le_mono_r; lia). lia.
Qed.

(** The second half: a mantissa of 25 digits, which only a carry of the
    rounding produces, loses its last digit. *)
Lemma carry_shift (m2 e' : Z) :
  0 <= m2 <= 2 ^ 24 -> -149 <= e' ->
  (m2 < 2 ^ 24 ->
   shr_fexp 24 128 m2 e' loc_Exact = (Build_shr_record m2 false false, e')) /\
  (m2 = 2 ^ 24 ->
   shr_fexp 24 128 m2 e' loc_Exact
   = (Build_shr_record (2 ^ 23) false false, e' + 1)).
Proof.
  intros Hm He. unfold shr_fexp, shr, fexp, emin.
  change (3 - 128 - 24) with (-149). cbn [shr_record_of_loc]. split.
  - intros Hlt.
    assert (Z.max (Zdigits2 m2 + e' - 24) (-149) - e' <= 0) as Hn.
    { destruct m2 as [|p|p]; [cbn [Zdigits2]; lia| |lia].
      cbn [Zdigits2]. pose proof (digits_bounds p) as Hd.
      set (d := Z.pos (digits2_pos p)) in *.
      assert (d - 1 < 24); [|lia].
      apply (Z.pow_lt_mono_r_iff 2); lia. }
    destruct (Z.max (Zdigits2 m2 + e' - 24) (-149) - e') as [|n|n];
      [reflexivity|lia|reflexivity].
  - intros ->. change (Zdigits2 (2 ^ 24)) with 25.
    replace (Z.max (25 + e' - 24) (-149) - e') with 1 by lia.
    reflexivity.
Qed.

(** Rounding to nearest does not pass a binary32 number [Pb * 2^eb] that
    the exact value [mz * 2^ez] does not pass. *)
Lemma round_aux_below (mz Pb : positive) (ez eb : Z) :
  ez <= eb -> -149 <= eb <= 104 -> Z.pos (digits2_pos Pb) <= 24 ->
  Z.pos mz <= Z.pos Pb * 2 ^ (eb - ez) ->
  binary_round_aux 24 128 false (Z.pos mz) ez loc_Exact = S754_zero false \/
  exists m e,
    binary_round_aux 24 128 false (Z.pos mz) ez loc_Exact
    = S754_finite false m e /\
    (e < eb \/ (e = eb /\ Z.pos m <= Z.pos Pb)).
Proof.
  intros Hez Heb HdP Hval.
  destruct (shift_and_round mz ez)
    as (e' & m1 & m2 & E1 & Em1 & Em2 & Ee' & Hm1 & Hm2 & Hexact & Hlt).
  pose proof (digits_bounds mz) as Hd. pose proof (digits_bounds Pb) as HP.
  set (d := Z.pos (digits2_pos mz)) in *.
  set (dP := Z.pos (digits2_pos Pb)) in *.
  assert (0 < d) as Hdpos by (subst d; lia).
  assert (0 < 2 ^ (eb - ez)) as Hpow by (apply Z.pow_pos_nonneg; lia).
  assert (d + ez - 24 <= eb) as Hde.
  { assert (2 ^ dP <= 2 ^ 24) by (apply Z.pow_le_mono_r; lia).
    assert (2 ^ (d - 1) < 2 ^ (24 + (eb - ez))).
    { rewrite Z.pow_add_r by lia. nia. }
    assert (d - 1 < 24 + (eb - ez)); [|lia].
    apply (Z.pow_lt_mono_r_iff 2); lia. }
  assert (-149 <= e' <= eb) as He' by lia.
  assert (ez <= e') as Hez' by lia.
  set (q := 2 ^ (e' - ez)) in *.
  set (B := Z.pos Pb * 2 ^ (eb - e')).
  assert (0 < q) as Hq by (apply Z.pow_pos_nonneg; lia).
  assert (0 < 2 ^ (eb - e')) as Hpow' by (apply Z.pow_pos_nonneg; lia).
  assert (Z.pos Pb * 2 ^ (eb - ez) = B * q) as HBq.
  { subst B q. rewrite <- Z.mul_assoc, <- Z.pow_add_r by lia.
    do 2 f_equal. lia. }
  assert (0 <= m1) as Hm1pos by (rewrite Hm1; apply Z.div_pos; lia).
  assert (m2 <= B) as Hm2B.
  { assert (m1 <= B) as Hle.
    { rewrite Hm1. apply Z.div_le_upper_bound; [lia|]. lia. }
    destruct (Z.eq_dec m1 B) as [Heq|Hne]; [|lia].
    rewrite Hexact; [lia|].
    pose proof (Z.div_mod (Z.pos mz) q ltac:(lia)) as Hdm.
    pose proof (Z.mod_pos_bound (Z.pos mz) q Hq). rewrite <- Hm1 in Hdm. nia. }
  unfold binary_round_aux. rewrite E1. rewrite <- Em1, <- Em2.
  destruct (carry_shift m2 e' ltac:(lia) ltac:(lia)) as (Hno & Hcarry).
  destruct (Z.eq_dec m2 (2 ^ 24)) as [Hc|Hnc].
  - rewrite (Hcarry Hc). cbn [shr_m]. change (2 ^ 23) with (Z.pos 8388608).
    cbv beta iota.
    assert (2 ^ 24 <= B) as HB by lia.
    assert (e' < eb) as Hlt'.
    { destruct (Z.eq_dec e' eb) as [->|]; [|lia].
      subst B. rewrite Z.sub_diag, Z.pow_0_r in HB.
      assert (2 ^ dP <= 2 ^ 24) by (apply Z.pow_le_mono_r; lia). lia. }
    destruct (Z.leb_spec (e' + 1) (128 - 24)); [|lia].
    right. exists 8388608%positive, (e' + 1). split; [reflexivity|].
    destruct (Z.eq_dec (e' + 1) eb) as [Heq|]; [right|left; lia].
    split; [exact Heq|].
    assert (eb - e' = 1) as Hone by lia. subst B. rewrite Hone in HB.
    change (2 ^ 1) with 2 in HB. change (2 ^ 24) with 16777216 in HB. lia.
  - rewrite (Hno ltac:(lia)). cbn [shr_m].
    destruct m2 as [|p|p]; [left; reflexivity| |lia].
    destruct (Z.leb_spec e' (128 - 24)); [|lia].
    right. exists p, e'. split; [reflexivity|].
    destruct (Z.eq_dec e' eb) as [Heq|]; [right|left; lia].
    split; [exact Heq|]. subst B. rewrite Heq, Z.sub_diag, Z.pow_0_r in Hm2B.
    lia.
Qed.

Lemma binary_round_below (M Pb : positive) (e eb : Z) :
  e <= eb -> -149 <= eb <= 104 -> Z.pos (digits2_pos Pb) <= 24 ->
  Z.pos M <= Z.pos Pb * 2 ^ (eb - e) ->
  binary_round 24 128 false M e = S754_zero false \/
  exists m' e',
    binary_round 24 128 false M e = S754_finite false m' e' /\
    (e' < eb \/ (e' = eb /\ Z.pos m' <= Z.pos Pb)).
Proof.
  intros He Heb HdP Hval. unfold binary_round, shl_align.
  assert (0 < 2 ^ (eb - e)) by (apply Z.pow_pos_nonneg; lia).
  destruct (fexp 24 128 (Z.pos (digits2_pos M) + e) - e) as [|n|n] eqn:En.
  - apply round_aux_below; assumption.
  - apply round_aux_below; assumption.
  - assert (fexp 24 128 (Z.pos (digits2_pos M) + e) = e - Z.pos n) as -> by lia.
    apply round_aux_below; try assumption; try lia.
    rewrite iter_xO.
    replace (eb - (e - Z.pos n)) with ((eb - e) + Z.pos n) by lia.
    rewrite Z.pow_add_r by lia.
    assert (0 < 2 ^ Z.pos n) by (apply Z.pow_pos_nonneg; lia). nia.
Qed.

Lemma mantissa_24 (m : positive) :
  Z.pos (digits2_pos m) <= 24 -> Z.pos m < 16777216.
Proof.
  intros H. pose proof (digits_bounds m) as Hm.
  assert (2 ^ Z.pos (digits2_pos m) <= 2 ^ 24)
    by (apply Z.pow_le_mono_r; lia).
  change (2 ^ 24) with 16777216 in *. lia.
Qed.

(** Adding [M_PIF] to a binary32 number in [[-M_PIF, 0)] gives a number
    in [[0, M_PIF]]. *)
Lemma add_M_PIF_range (r : float32) :
  valid_binary 24 128 r = true ->
  F32.ltb r F32.zero = true ->
  F32.leb (SFopp F32.M_PIF) r = true ->
  F32.leb F32.zero (F32.add r F32.M_PIF) = true /\
  F32.leb (F32.add r F32.M_PIF) F32.M_PIF = true.
Proof.
  intros Hvalid Hneg Hlow.
  destruct r as [s|s| |s mr er].
  - destruct s; vm_compute in Hneg; discriminate Hneg.
  - destruct s; [vm_compute in Hlow; discriminate Hlow
                |vm_compute in Hneg; discriminate Hneg].
  - vm_compute in Hneg; discriminate Hneg.
  - destruct s; [|vm_compute in Hneg; discriminate Hneg]. clear Hneg.
    assert (Z.pos (digits2_pos mr) <= 24) as Hdig.
    { cbn [valid_binary] in Hvalid. unfold bounded, canonical_mantissa in Hvalid.
      apply andb_true_iff in Hvalid as (Hc & _). apply Z.eqb_eq in Hc.
      unfold fexp in Hc. lia. }
    assert (er < -22 \/ (er = -22 /\ Z.pos mr <= 13176795)) as Her.
    { change (SFopp F32.M_PIF) with (S754_finite true 13176795 (-22)) in Hlow.
      apply F32Facts.leb_key in Hlow as (_ & _ & Hlow).
      cbn [F32Facts.key F32Facts.key_le] in Hlow. lia. }
    pose proof (mantissa_24 mr Hdig) as Hmr24. clear Hvalid Hlow Hdig.
    assert (er = -22 \/ exists n, er - -22 = Z.neg n) as Hcase.
    { destruct (er - -22) as [|n|n] eqn:En; [left; lia|lia|right; eauto]. }
    assert (exists M : Z,
              F32.add (S754_finite true mr er) F32.M_PIF
              = binary_normalize 24 128 M er false /\
              0 <= M <= 13176795 * 2 ^ (-22 - er)) as (M & -> & HM).
    { unfold F32.add, SFadd, F32.M_PIF. unfold shl_align at 1.
      rewrite Z.min_l by lia. rewrite Z.sub_diag. cbn [fst cond_Zopp].
      unfold shl_align. destruct Hcase as [->|(n & En)].
      - change (-22 - -22) with 0. cbn [fst].
        eexists. split; [reflexivity|]. change (2 ^ 0) with 1. lia.
      - rewrite En. cbn [fst]. eexists. split; [reflexivity|].
        rewrite iter_xO.
        assert (-22 - er = Z.pos n) as -> by lia.
        assert (2 <= 2 ^ Z.pos n).
        { change 2 with (2 ^ 1) at 1. apply Z.pow_le_mono_r; lia. }
        lia. }
    destruct M as [|M|M]; [split; reflexivity| |lia].
    cbn [binary_normalize].
    assert (Z.pos M <= 13176795 * 2 ^ (-22 - er)) as HM' by lia.
    destruct (binary_round_below M 13176795 er (-22)
                ltac:(lia) ltac:(lia) ltac:(vm_compute; discriminate) HM')
      as [->|(m' & e' & -> & H)]; [split; reflexivity|].
    split; [reflexivity|].
    change F32.M_PIF with (S754_finite false 13176795 (-22)).
    apply F32Facts.leb_key. split; [reflexivity|]. split; [reflexivity|].
    cbn [F32Facts.key F32Facts.key_le]. lia.
Qed.

End Rounding.

(** ** The direction that [detectEdge] stores *)

Module Direction.

(** [if (dr < 0.f) dr += M_PIF;] *)
Definition wrap_direction (dr : float32) : float32 :=
  if F32.ltb dr F32.zero then F32.add dr F32.M_PIF else dr.

Section Atan2.

(** [std::atan2] on [float]. *)
Variable atan2f : float32 -> float32 -> float32.

(** The value that [detectEdge] stores in [direction[x]] for the
    gradient [(gx, gy)]; in mode 1 it stores none. *)
Definition stored_direction (mode : Z) (gy gx : float32) : option float32 :=
  if mode =? 1 then None
  else Some (wrap_direction (atan2f gy gx)).

End Atan2.

(** The number that a finite binary32 value stands for. *)
Definition to_R (a : float32) : R :=
  match a with
  | S754_finite s m e => (IZR (cond_Zopp s (Z.pos m)) * powerRZ 2 e)%R
  | _ => 0%R
  end.

(** [M_PIF] is the binary32 number next above pi. *)
Lemma M_PIF_above_pi :
  (to_R (S754_finite false 13176794 (-22)) < PI < to_R F32.M_PIF)%R.
Proof.
  unfold to_R, F32.M_PIF. cbn [cond_Zopp].
  assert (powerRZ 2 (-22) = / 4194304)%R as ->.
  { unfold powerRZ. replace (Pos.to_nat 22) with 22%nat by reflexivity.
    simpl pow. lra. }
  pose proof (PI_2_3_7_ineq 3) as (Hlow & Hup).
  unfold sum_f_R0, tg_alt, PI_2_3_7_tg, Ratan_seq in Hlow, Hup.
  simpl in Hlow, Hup. lra.
Qed.

(** C5, as amended.  In every mode but 1, [detectEdge] stores
    [dr = atan2(gy, gx)] when it is not negative and the binary32 sum
    [dr + M_PIF] otherwise, [M_PIF] being [13176795 * 2^-22].  When
    [atan2] returns a binary32 number between [-M_PIF] and [M_PIF], the
    stored direction lies between [0] and [M_PIF], both included:
    rounding the sum never leaves this interval.  [M_PIF] is above pi
    and is stored, so the interval is not [[0, pi)]. *)
Theorem stored_direction_range (atan2f : float32 -> float32 -> float32)
  (mode : Z) (gy gx d : float32) :
  stored_direction atan2f mode gy gx = Some d ->
  valid_binary 24 128 (atan2f gy gx) = true ->
  SFleb (S754_finite true 13176795 (-22)) (atan2f gy gx) = true ->
  SFleb (atan2f gy gx) (S754_finite false 13176795 (-22)) = true ->
  SFleb (S754_zero false) d = true /\
  SFleb d (S754_finite false 13176795 (-22)) = true /\
  ((SFltb (atan2f gy gx) (S754_zero false) = false /\ d = atan2f gy gx) \/
   (SFltb (atan2f gy gx) (S754_zero false) = true /\
    d = SFadd 24 128 (atan2f gy gx) (S754_finite false 13176795 (-22)))).
Proof.
  unfold stored_direction. destruct (mode =? 1); [discriminate|].
  intros E Hvalid Hlow Hup. injection E as <-. unfold wrap_direction.
  destruct (F32.ltb (atan2f gy gx) F32.zero) eqn:Hneg.
  - destruct (Rounding.add_M_PIF_range _ Hvalid Hneg Hlow) as (H1 & H2).
    split; [exact H1|]. split; [exact H2|]. right. split; [exact Hneg|reflexivity].
  - split; [|split; [exact Hup|left; split; [exact Hneg|reflexivity] ] ].
    destruct (F32Facts.leb_not_nan _ _ Hup) as (Hnan & _).
    apply (F32Facts.ltb_false_leb (atan2f gy gx) F32.zero Hnan eq_refl Hneg).
Qed.

(** A stand-in for [std::atan2] with its value at [(+0, x)] for [x < 0]
    and a small negative value elsewhere. *)
Definition example_atan2 (gy gx : float32) : float32 :=
  match gy, gx with
  | S754_zero false, S754_finite true _ _ => F32.M_PIF
  | _, _ => S754_finite true 14073749 (-47)
  end.

Lemma stored_direction_range_witness :
  stored_direction example_atan2 0 (S754_finite true 14073749 (-47))
    (F32.of_int 1) = Some F32.M_PIF /\
  F32.leb F32.zero F32.M_PIF = true /\ F32.leb F32.M_PIF F32.M_PIF = true.
Proof.
  assert (stored_direction example_atan2 0 (S754_finite true 14073749 (-47))
            (F32.of_int 1) = Some F32.M_PIF) as E by reflexivity.
  split; [exact E|].
  destruct (stored_direction_range example_atan2 0 _ _ _ E)
    as (H1 & H2 & _); try reflexivity.
  split; [exact H1|exact H2].
Defined.

(** C5 as stated fails: for [gy = +0] and [gx = -1], [std::atan2]
    returns [M_PIF], which is stored as it is, and for [dr = -1e-7f]
    (the mantissa 14073749 at the exponent -47) the sum [dr + M_PIF]
    rounds to [M_PIF]; the stored direction is then above pi, not below. *)
Lemma stored_direction_reaches_M_PIF :
  wrap_direction F32.M_PIF = F32.M_PIF /\
  wrap_direction (S754_finite true 14073749 (-47)) = F32.M_PIF /\
  (PI < to_R (wrap_direction F32.M_PIF))%R.
Proof.
  split; [reflexivity|]. split; [reflexivity|].
  change (wrap_direction F32.M_PIF) with F32.M_PIF. apply M_PIF_above_pi.
Qed.

End Direction.

(** ** The claims at the 3 x 3 plane *)

Lemma example_fits :
  nms_fits Example.gradient Example.direction 3 3 32 48 8 Example.scratch.
Proof. unfold nms_fits. vm_compute. repeat split; discriminate. Qed.

Lemma example_interior (p : pixel) : interior 3 3 p -> p = (1, 1).
Proof.
  destruct p as [x y]. unfold interior. cbn [fst snd]. intros H.
  f_equal; lia.
Qed.

Lemma example_in_plane (p : pixel) :
  in_plane 3 3 p ->
  (fst p = 0 \/ fst p = 1 \/ fst p = 2) /\ (snd p = 0 \/ snd p = 1 \/ snd p = 2).
Proof. unfold in_plane. lia. Qed.

Lemma example_castable : castable Example.direction 3 3 32.
Proof.
  intros p Hp. rewrite (example_interior p Hp).
  split; [vm_compute; reflexivity|]. exists 0. vm_compute. reflexivity.
Qed.


Lemma example_magnitudes (p : pixel) :
  in_plane 3 3 p ->
  exists gx gy, grad_at Example.gradient 32 p = gradient_magnitude gx gy.
Proof.
  intros Hp. destruct p as [x y].
  destruct (example_in_plane _ Hp) as (Hx & Hy). cbn [fst snd] in Hx, Hy.
  destruct (decide ((x, y) = (1, 1))) as [E|E].
  - injection E as -> ->. exists (F32.of_int 10), F32.zero.
    vm_compute. reflexivity.
  - exists F32.zero, F32.zero.
    destruct Hx as [-> | [-> | ->] ], Hy as [-> | [-> | ->] ];
      try (vm_compute; reflexivity).
    contradiction.
Qed.


Lemma nms_never_increases_witness :
  exists b',
    nonMaximumSuppression Example.gradient Example.direction 3 3 32 48
      Example.scratch 8 = Done b' /\
    F32.ltb (grad_at Example.gradient 32 (1, 1)) (blur_at 8 48 b' (1, 1)) = false.
Proof.
  destruct (nms_never_increases Example.gradient Example.direction 3 3 32 48 8
              Example.scratch example_fits example_castable example_magnitudes)
    as (b' & E & H).
  exists b'. split; [exact E|]. apply H.
  unfold in_plane. cbn [fst snd]. lia.
Defined.

(** Stages that leave every buffer as it is, and a clip of three planes
    of which the first is selected, in mode 1. *)
Module ExampleFrame.

Definition gbv (k : sample_kind) (srcp : list Z) (buffer : list float32)
  (bufferp : Z) (blur : list float32) (blurp : Z) (w : list float32)
  (width height stride blurStride radius : Z) (off : float32)
  : outcome (list float32 * list float32) := Done (buffer, blur).

Definition de (blur : list float32) (blurp : Z) (g dr : list float32)
  (width height stride blurStride mode op : Z)
  : outcome (list float32 * list float32 * list float32) := Done (blur, g, dr).

Definition out4 (k : sample_kind) (b : list float32) (blurp : Z)
  (dstp : list Z) (width height stride blurStride pk : Z) (x y : float32)
  : outcome (list Z) := Done ((fun _ => 0) <$> dstp).

Definition gm (k : sample_kind) (g : list float32) (dstp : list Z)
  (width height stride : Z) (m : float32) (pk : Z) (x y : float32)
  : outcome (list Z) := Done ((fun _ => 0) <$> dstp).

Definition dmt (k : sample_kind) (b : list float32) (blurp : Z)
  (dr : list float32) (dstp : list Z) (width height stride blurStride n : Z)
  (x y : float32) : outcome (list Z) := Done ((fun _ => 0) <$> dstp).

Definition dm (k : sample_kind) (dr : list float32) (dstp : list Z)
  (width height stride n : Z) (x : float32) : outcome (list Z) :=
  Done ((fun _ => 0) <$> dstp).

Definition yuv8 : VSVideoInfo :=
  mkVideoInfo (mkFormat cmOther stInteger 8 3) 3 3 true.

Definition data : TCannyData :=
  mkData yuv8 F32.half (F32.of_int 8) (F32.of_int 1) (F32.of_int 50) 1 1
    [true; false; false] 1 8 256 [F32.zero; F32.of_int 1; F32.zero]
    (F32.of_int 5) 255 [F32.zero; F32.zero; F32.zero]
    [F32.zero; F32.zero; F32.zero] [F32.zero; F32.zero; F32.zero].

Definition plane_of (v : Z) : Plane := mkPlane 3 3 32 (replicate 96 v).

Definition src : Frame := [plane_of 100; plane_of 110; plane_of 120].

Definition fresh : Frame := [plane_of 7; plane_of 7; plane_of 7].

Definition heap : Heap := mkHeap true true true true true.

Definition scratch : Scratch :=
  mkScratch (replicate 19 F32.zero) Example.scratch Example.gradient
    Example.direction Example.stack0.

End ExampleFrame.

Lemma unselected_planes_are_copied_witness :
  exists dst,
    tcannyGetFrame ExampleFrame.gbv ExampleFrame.de ExampleFrame.out4
      ExampleFrame.out4 ExampleFrame.gm ExampleFrame.dmt ExampleFrame.dm 10
      ExampleFrame.data arAllFramesReady ExampleFrame.src ExampleFrame.heap
      ExampleFrame.fresh ExampleFrame.scratch = Done (Some dst) /\
    dst !! 1%nat = ExampleFrame.src !! 1%nat.
Proof.
  eexists. split; [vm_compute; reflexivity|].
  apply (unselected_planes_are_copied ExampleFrame.gbv ExampleFrame.de
           ExampleFrame.out4 ExampleFrame.out4 ExampleFrame.gm ExampleFrame.dmt
           ExampleFrame.dm 10 ExampleFrame.data ExampleFrame.src
           ExampleFrame.heap ExampleFrame.fresh ExampleFrame.scratch).
  - vm_compute. discriminate.
  - reflexivity.
  - vm_compute. reflexivity.
  - cbn. lia.
  - reflexivity.
Defined.

Lemma odd_modes_ignore_thresholds_witness :
  tcannyGetFrame ExampleFrame.gbv ExampleFrame.de ExampleFrame.out4
    ExampleFrame.out4 ExampleFrame.gm ExampleFrame.dmt ExampleFrame.dm 10
    (with_thresholds ExampleFrame.data (F32.of_int 200) (F32.of_int 100))
    arAllFramesReady ExampleFrame.src ExampleFrame.heap ExampleFrame.fresh
    ExampleFrame.scratch
  = tcannyGetFrame ExampleFrame.gbv ExampleFrame.de ExampleFrame.out4
      ExampleFrame.out4 ExampleFrame.gm ExampleFrame.dmt ExampleFrame.dm 10
      ExampleFrame.data arAllFramesReady ExampleFrame.src ExampleFrame.heap
      ExampleFrame.fresh ExampleFrame.scratch.
Proof.
  apply odd_modes_ignore_thresholds. right. left. reflexivity.
Defined.

(** * Further properties of the stages *)

(** ** Suppression followed by the hysteresis pass *)

Lemma example_not_confirmed (p : pixel) :
  in_plane 3 3 p -> grad_at Example.gradient 32 p <> F32.FLT_MAX.
Proof.
  intros Hp. destruct p as [x y].
  destruct (example_in_plane _ Hp) as (Hx & Hy). cbn [fst snd] in Hx, Hy.
  destruct Hx as [-> | [-> | ->] ], Hy as [-> | [-> | ->] ];
    vm_compute; discriminate.
Qed.




Lemma example_suppressed_map : suppressed_map 8 3 3 48 Example.suppressed.
Proof.
  intros p Hp. destruct p as [x y].
  destruct (example_in_plane _ Hp) as (Hx & Hy). cbn [fst snd] in Hx, Hy.
  destruct (decide ((x, y) = (1, 1))) as [E|E].
  - injection E as -> ->. split; [|split].
    + unfold interior. cbn [fst snd]. lia.
    + vm_compute. reflexivity.
    + vm_compute. discriminate.
  - destruct Hx as [-> | [-> | ->] ], Hy as [-> | [-> | ->] ];
      try contradiction;
      (split; [intros _; vm_compute; reflexivity
              |split; [vm_compute; reflexivity|vm_compute; discriminate] ]).
Qed.

Lemma example_plane_fits :
  plane_fits 8 3 3 48 Example.suppressed (map Example.stack0).
Proof. unfold plane_fits. vm_compute. repeat split; try discriminate. Qed.

Lemma hysteresis_antitone_witness :
  exists st st',
    hysteresis 8 3 3 48 (F32.of_int 8) (F32.of_int 1) 10
      Example.suppressed Example.stack0 = Done st /\
    hysteresis 8 3 3 48 (F32.of_int 9) (F32.of_int 2) 10
      Example.suppressed Example.stack0 = Done st' /\
    (blur_at 8 48 (blur st') (1, 1) = F32.FLT_MAX ->
     blur_at 8 48 (blur st) (1, 1) = F32.FLT_MAX).
Proof.
  destruct (hysteresis_antitone 8 3 3 48 (F32.of_int 8) (F32.of_int 1)
              (F32.of_int 9) (F32.of_int 2) 10 Example.suppressed
              Example.stack0 Example.stack0 example_plane_fits
              example_plane_fits)
    as (st & st' & E & E' & H); try reflexivity.
  - exact example_suppressed_map.
  - exists st, st'. split; [exact E|]. split; [exact E'|].
    apply H. unfold in_plane. cbn [fst snd]. lia.
Defined.

(** ** The explicit stack *)

(** X2.  [pop] undoes [push]: when the slot above the top entry exists,
    [push] stores the pair there, and the next [pop] returns that pair
    and brings the index back; the mask is not touched and no entry up
    to the old top is overwritten.  When the slot does not exist, [push]
    writes outside the array. *)
Theorem pop_after_push (s : Stack) (x y : Z) :
  -1 <= index s ->
  (index s + 1 < Z.of_nat (length (pos s)) ->
   exists s' s'',
     push s x y = Done s' /\ pop s' = Done ((x, y), s'') /\
     index s'' = index s /\ map s'' = map s /\
     length (pos s'') = length (pos s) /\
     forall i, 0 <= i <= index s ->
               pos s'' !! Z.to_nat i = pos s !! Z.to_nat i) /\
  (Z.of_nat (length (pos s)) <= index s + 1 ->
   push s x y = Fault StackOOB).
Proof.
  intros Hlow. split.
  - intros Hroom. unfold push.
    rewrite store_Done by lia. cbn [bind].
    eexists _, _. split; [reflexivity|]. unfold pop. cbn [index pos map].
    rewrite (load_Done _ _ _ (x, y)); [|lia|].
    + cbn [bind]. split; [reflexivity|].
      cbn [index map pos]. split; [lia|]. split; [reflexivity|].
      split; [apply length_insert|].
      intros i Hi. apply list_lookup_insert_ne. lia.
    + apply list_lookup_insert_eq. lia.
  - intros Hfull. unfold push, store.
    destruct (Z.ltb_spec (index s + 1) (Z.of_nat (length (pos s)))); [lia|].
    rewrite andb_false_r. reflexivity.
Qed.

Lemma pop_after_push_witness :
  exists s' s'',
    push (mkStack [0; 0] [(5, 5); (6, 6)] 0) 3 4 = Done s' /\
    pop s' = Done ((3, 4), s'') /\ index s'' = 0.
Proof.
  destruct (pop_after_push (mkStack [0; 0] [(5, 5); (6, 6)] 0) 3 4)
    as (H & _); [cbn; lia|].
  destruct H as (s' & s'' & E1 & E2 & E3 & _); [cbn; lia|].
  exists s', s''. auto.
Defined.

(** ** The bin of a direction *)

(** X3.  [getBin<int>] never returns [n] or more; when the binary32
    number [dir * n * M_1_PIF + 0.5] that it converts to [int] is not
    negative (the stored directions are not), the bin is one of
    [0 .. n - 1], so it is an index into an array of [n] entries.  The
    conversion is defined only for a number. *)
Theorem getBin_int_range (dir : float32) (n bin : Z) :
  0 < n ->
  getBin_int dir n = Done bin ->
  bin < n /\
  (SFleb (S754_zero false)
         (SFadd 24 128
            (SFmul 24 128 (SFmul 24 128 dir (binary_normalize 24 128 n 0 false))
                          (S754_finite false 10680707 (-25)))
            (S754_finite false 8388608 (-24))) = true ->
   0 <= bin) /\
  dir <> S754_nan.
Proof.
  intros Hn. unfold getBin_int.
  destruct (F32.to_int (getBin_arg dir n)) as [k|] eqn:E; [|discriminate].
  intros H. injection H as <-. split; [|split].
  - destruct (Z.geb_spec k n); lia.
  - intros Hpos. destruct (F32Facts.to_int_floor _ _ Hpos E) as (_ & Hk).
    destruct (Z.geb_spec k n); lia.
  - intros ->. discriminate E.
Qed.

Lemma getBin_int_range_witness :
  getBin_int F32.M_PIF 4 = Done 0 /\ 0 < 4 /\ F32.M_PIF <> S754_nan.
Proof.
  assert (getBin_int F32.M_PIF 4 = Done 0) as E by (vm_compute; reflexivity).
  split; [exact E|].
  destruct (getBin_int_range F32.M_PIF 4 0) as (H1 & _ & H3);
    [lia|exact E|]. split; [exact H1|exact H3].
Defined.

(** ** The construction of the filter: every path *)

Definition is_error (e : event) : bool :=
  match e with SetError _ => true | _ => false end.

Definition is_create (e : event) : bool :=
  match e with CreateFilter _ => true | _ => false end.

Definition is_get (e : event) : bool :=
  match e with GetNode => true | _ => false end.

Definition is_free (e : event) : bool :=
  match e with FreeNode => true | _ => false end.

Fixpoint count (f : event -> bool) (l : list event) : nat :=
  match l with
  | [] => 0
  | e :: l' => (if f e then 1 else 0) + count f l'
  end.

(** The four shapes of a run of [tcannyCreate]. *)
Lemma create_shapes (gw : float32 -> Z * option (list float32))
  (junk : TCannyData) (a : Arguments) :
  (exists m, tcannyCreate gw junk a = [SetError m]) \/
  (exists m, tcannyCreate gw junk a = [GetNode; SetError m; FreeNode]) \/
  (exists m, tcannyCreate gw junk a
             = [GetNode; NewWeights; SetError m; FreeNode]) \/
  (exists d, tcannyCreate gw junk a = [GetNode; NewWeights; CreateFilter d]).
Proof.
  unfold tcannyCreate. cbv zeta.
  destruct (F32.leb _ F32.zero); [eauto|].
  destruct (F32.leb _ _); [eauto|].
  destruct (_ || _); [eauto|].
  destruct (_ || _); [eauto|].
  destruct (F32.ltb _ _); [eauto|].
  destruct (_ || _); [eauto|].
  destruct (select_planes _ _ _); [eauto|].
  destruct (gw _) as [r [w|] ]; eauto 6.
Qed.

(** X4.  Whatever the arguments, [tcannyCreate] either sets exactly one
    error and creates no filter, or creates exactly one filter and sets
    no error.  On an error the node of the clip is released if it was
    acquired; a created filter keeps the one node that was acquired. *)
Theorem create_error_or_filter (gw : float32 -> Z * option (list float32))
  (junk : TCannyData) (a : Arguments) :
  (count is_error (tcannyCreate gw junk a) = 1
   /\ count is_create (tcannyCreate gw junk a) = 0
   /\ count is_free (tcannyCreate gw junk a)
      = count is_get (tcannyCreate gw junk a))%nat
  \/
  (count is_error (tcannyCreate gw junk a) = 0
   /\ count is_create (tcannyCreate gw junk a) = 1
   /\ count is_get (tcannyCreate gw junk a) = 1
   /\ count is_free (tcannyCreate gw junk a) = 0)%nat.
Proof.
  destruct (create_shapes gw junk a)
    as [(m & ->) | [(m & ->) | [(m & ->) | (d & ->)] ] ]; cbn; auto.
Qed.





(** A float clip of three planes (not RGB), planes 0 and 2 selected,
    every other argument absent, and an allocation that succeeds. *)
Module ExampleFilter.





End ExampleFilter.



(** ** The selection of the planes *)

Lemma nth_insert_true (flags : list bool) (j i : nat) :
  (j < length flags)%nat ->
  nth i (<[j := true]> flags) false
  = (if decide (i = j) then true else nth i flags false).
Proof.
  intros Hj. rewrite !nth_lookup. destruct (decide (i = j)) as [->|Hne].
  - rewrite list_lookup_insert_eq by exact Hj. reflexivity.
  - rewrite list_lookup_insert_ne by congruence. reflexivity.
Qed.

(** The loop over [planes], started from any flags. *)
Lemma select_planes_acc (nplanes : Z) (l : list Z) :
  nplanes <= 3 ->
  forall flags : list bool,
    length flags = 3%nat ->
    match select_planes nplanes l flags with
    | inr flags' =>
        NoDup l /\
        (forall n, n ∈ l ->
           0 <= n < nplanes /\ nth (Z.to_nat n) flags false = false) /\
        length flags' = 3%nat /\
        forall i : nat,
          nth i flags' false = true
          <-> nth i flags false = true \/ Z.of_nat i ∈ l
    | inl _ =>
        ~ (NoDup l /\
           forall n, n ∈ l ->
             0 <= n < nplanes /\ nth (Z.to_nat n) flags false = false)
    end.
Proof.
  intros Hn. induction l as [|n l IH]; intros flags Hlen.
  - cbn [select_planes]. split; [constructor|]. split.
    + intros n Hin. inversion Hin.
    + split; [exact Hlen|]. intros i. split; [auto|].
      intros [H|H]; [exact H|inversion H].
  - cbn [select_planes].
    destruct (Z.ltb_spec n 0) as [Hneg|Hpos]; cbn [orb].
    { intros (_ & H). destruct (H n) as (Hr & _); [left|lia]. }
    destruct (Z.geb_spec n nplanes) as [Hbig|Hsmall].
    { intros (_ & H). destruct (H n) as (Hr & _); [left|lia]. }
    destruct (nth (Z.to_nat n) flags false) eqn:Eflag.
    { intros (_ & H). destruct (H n) as (_ & Hf); [left|congruence]. }
    assert (Z.to_nat n < length flags)%nat as Hidx by lia.
    specialize (IH (<[Z.to_nat n := true]> flags)).
    rewrite length_insert in IH. specialize (IH Hlen).
    destruct (select_planes nplanes l (<[Z.to_nat n := true]> flags))
      as [msg|flags'].
    + intros (Hnd & H). apply IH. apply NoDup_cons in Hnd as (Hnotin & Hnd).
      split; [exact Hnd|]. intros k Hk.
      destruct (H k) as (Hr & Hf); [right; exact Hk|]. split; [exact Hr|].
      rewrite nth_insert_true by exact Hidx.
      destruct (decide (Z.to_nat k = Z.to_nat n)) as [Heq|]; [|exact Hf].
      exfalso. apply Hnotin. replace n with k by lia. exact Hk.
    + destruct IH as (Hnd & Hall & Hlen' & Hflags).
      assert (n ∉ l) as Hnotin.
      { intros Hin. destruct (Hall n Hin) as (_ & Hf).
        rewrite nth_insert_true in Hf by exact Hidx.
        destruct (decide (Z.to_nat n = Z.to_nat n)); [discriminate|congruence]. }
      split; [apply NoDup_cons; auto|]. split.
      * intros k Hk. apply elem_of_cons in Hk as [->|Hk]; [split; [lia|exact Eflag]|].
        destruct (Hall k Hk) as (Hr & Hf). split; [exact Hr|].
        rewrite nth_insert_true in Hf by exact Hidx.
        destruct (decide (Z.to_nat k = Z.to_nat n)); [discriminate|exact Hf].
      * split; [exact Hlen'|]. intros i. rewrite (Hflags i).
        rewrite nth_insert_true by exact Hidx. rewrite elem_of_cons.
        destruct (decide (i = Z.to_nat n)) as [->|Hne].
        -- split; [intros _; right; left; lia|auto].
        -- split.
           ++ intros [H|H]; [left; exact H|right; right; exact H].
           ++ intros [H|[H|H] ]; [left; exact H|lia|right; exact H].
Qed.

(** X6.  The loop of [tcannyCreate] over the argument [planes], started
    with no plane selected, ends without an error exactly when the list
    names each plane at most once and only planes of the clip; the flags
    that it leaves are then set for the planes of the list and for no
    other.  The clip has at most the three planes that [process] has
    flags for. *)
Theorem select_planes_exact (nplanes : Z) (l : list Z) :
  nplanes <= 3 ->
  (forall flags,
     select_planes nplanes l [false; false; false] = inr flags ->
     NoDup l /\ (forall n, n ∈ l -> 0 <= n < nplanes) /\
     length flags = 3%nat /\
     forall i : nat, nth i flags false = true <-> Z.of_nat i ∈ l) /\
  (NoDup l -> (forall n, n ∈ l -> 0 <= n < nplanes) ->
   exists flags, select_planes nplanes l [false; false; false] = inr flags).
Proof.
  intros Hn.
  pose proof (select_planes_acc nplanes l Hn [false; false; false] eq_refl)
    as H.
  split.
  - intros flags E. rewrite E in H. destruct H as (H1 & H2 & H3 & H4).
    split; [exact H1|]. split; [intros n Hin; apply H2, Hin|].
    split; [exact H3|]. intros i. rewrite (H4 i). split; [|auto].
    intros [Hf|Hin]; [|exact Hin].
    destruct i as [|[|[|[|i] ] ] ]; cbn in Hf; discriminate Hf.
  - intros Hnd Hall.
    destruct (select_planes nplanes l [false; false; false]) as [msg|flags];
      [|eauto].
    exfalso. apply H. split; [exact Hnd|]. intros n Hin.
    split; [apply Hall, Hin|].
    destruct (Z.to_nat n) as [|[|[|[|i] ] ] ]; reflexivity.
Qed.

Lemma select_planes_exact_witness :
  exists flags,
    select_planes 3 [0; 2] [false; false; false] = inr flags /\
    (nth 2 flags false = true <-> 2 ∈ [0; 2]).
Proof.
  destruct (select_planes_exact 3 [0; 2]) as (H1 & H2); [lia|].
  destruct H2 as (flags & E).
  - apply NoDup_cons. split; [|apply NoDup_singleton].
    intros H. apply elem_of_cons in H as [H|H]; [discriminate|inversion H].
  - intros n Hin. apply elem_of_cons in Hin as [->|Hin]; [lia|].
    apply elem_of_cons in Hin as [->|Hin]; [lia|inversion Hin].
  - exists flags. split; [exact E|].
    destruct (H1 flags E) as (_ & _ & _ & H). apply (H 2%nat).
Defined.

(** ** The edge map of mode 0 *)

(** The destination plane and the two pointers that the row loop of an
    output stage advances. *)
Record out_state : Type := mkO {
  odst : list Z;
  osrcp : Z;
  odstp : Z
}.

(** [binarizeCE<T>] for an integer [T]:
    [dstp[x] = (blur[x] == FLT_MAX) ? peak : 0]. *)
Definition binarizeCE (blur : list float32) (blurp : Z) (dstp : list Z)
  (width height stride blurStride peak : Z) : outcome (list Z) :=
  do st <- for_range 0 height
             (fun y st =>
                do d <- for_range 0 width
                          (fun x d =>
                             do b <- load BlurOOB blur (osrcp st + x);
                             store DstOOB d (odstp st + x)
                               (if F32.eqb b F32.FLT_MAX then peak else 0))
                          (odst st);
                Done (mkO d (osrcp st + blurStride) (odstp st + stride)))
             (mkO dstp blurp 0);
  Done (odst st).

(** [dstp[stride * y + x]] *)
Definition dst_at (stride : Z) (d : list Z) (p : pixel) : option Z :=
  d !! Z.to_nat (stride * snd p + fst p).

Section BinarizeProof.

Variables (blur : list float32) (blurp : Z) (dstp : list Z).
Variables (width height stride blurStride peak : Z).

(** Both buffers cover the plane. *)
Definition out_fits : Prop :=
  0 <= blurp /\ 0 <= width /\ width <= stride /\ width <= blurStride /\
  0 <= height /\
  (0 < height ->
   blurp + blurStride * (height - 1) + width <= Z.of_nat (length blur) /\
   stride * (height - 1) + width <= Z.of_nat (length dstp)).

Hypothesis fits : out_fits.

Let value (p : pixel) : Z :=
  if F32.eqb (blur_at blurp blurStride blur p) F32.FLT_MAX then peak else 0.

Lemma binarize_row (y : Z) (d : list Z) :
  0 <= y < height -> length d = length dstp ->
  total
    (fun d' => length d' = length dstp /\
               forall i : Z, 0 <= i ->
                 d' !! Z.to_nat i
                 = if (stride * y <=? i) && (i <? stride * y + width)
                   then Some (value (i - stride * y, y))
                   else d !! Z.to_nat i)
    (for_range 0 width
       (fun x d =>
          do b <- load BlurOOB blur (blurp + blurStride * y + x);
          store DstOOB d (stride * y + x)
            (if F32.eqb b F32.FLT_MAX then peak else 0))
       d).
Proof.
  intros Hy Hlen. destruct fits as (Hbp & Hw & Hs & Hbs & Hh & Hcov).
  destruct Hcov as (Hb & Hd); [lia|].
  assert (0 <= stride * y <= stride * (height - 1)) by nia.
  assert (0 <= blurStride * y <= blurStride * (height - 1)) by nia.
  unfold total.
  eapply sat_weaken;
    [|apply (sat_for_range _ _ _
               (fun x d' => length d' = length dstp /\
                  forall i : Z, 0 <= i ->
                    d' !! Z.to_nat i
                    = if (stride * y <=? i) && (i <? stride * y + x)
                      then Some (value (i - stride * y, y))
                      else d !! Z.to_nat i))].
  - cbv beta. intros d' (H1 & H2). split; [exact H1|].
    intros i Hi. rewrite (H2 i Hi).
    replace (Z.max 0 width) with width by lia. reflexivity.
  - intros x d' Hx (H1 & H2).
    rewrite (load_Done _ _ _ (blur_at blurp blurStride blur (x, y))).
    2:{ lia. }
    2:{ unfold blur_at, bidx. cbn [fst snd].
        replace (blurp + (blurStride * y + x)) with (blurp + blurStride * y + x)
          by lia.
        destruct (lookup_lt_is_Some_2 blur (Z.to_nat (blurp + blurStride * y + x)))
          as (v & ->); [lia|reflexivity]. }
    cbn [bind]. rewrite store_Done by lia. cbn [sat].
    split; [rewrite length_insert; exact H1|].
    intros i Hi. destruct (Z.eq_dec i (stride * y + x)) as [->|Hne].
    + rewrite list_lookup_insert_eq by lia.
      destruct (Z.leb_spec (stride * y) (stride * y + x)); [|lia].
      destruct (Z.ltb_spec (stride * y + x) (stride * y + (x + 1))); [|lia].
      cbn [andb]. replace (stride * y + x - stride * y) with x by lia.
      reflexivity.
    + rewrite list_lookup_insert_ne by lia. rewrite (H2 i Hi).
      destruct (Z.leb_spec (stride * y) i); [|reflexivity]. cbn [andb].
      destruct (Z.ltb_spec i (stride * y + x)),
               (Z.ltb_spec i (stride * y + (x + 1))); try reflexivity; lia.
  - split; [exact Hlen|]. intros i Hi.
    destruct (Z.leb_spec (stride * y) i); [|reflexivity]. cbn [andb].
    destruct (Z.ltb_spec i (stride * y + 0)); [lia|reflexivity].
Qed.

Lemma row_cell (y i : Z) :
  0 < stride -> 0 <= width <= stride -> 0 <= i ->
  (stride * y <= i < stride * y + width)
  <-> (i / stride = y /\ i mod stride < width).
Proof.
  intros Hs Hw Hi. split.
  - intros H.
    assert (i = stride * y + (i - stride * y)) as E by lia.
    split.
    + symmetry. apply (Z.div_unique i stride y (i - stride * y)); lia.
    + rewrite <- (Z.mod_unique i stride y (i - stride * y)); lia.
  - intros (<- & Hm). pose proof (Z.div_mod i stride ltac:(lia)).
    pose proof (Z.mod_pos_bound i stride Hs). lia.
Qed.

(** The cell of [dstp] at the index [i] after the rows above [y]. *)
Let written (y i : Z) : option Z :=
  if (0 <? stride) && (i / stride <? y) && (i mod stride <? width)
  then Some (value (i mod stride, i / stride))
  else dstp !! Z.to_nat i.

Lemma binarizeCE_rows :
  total
    (fun d' => length d' = length dstp /\
               forall i : Z, 0 <= i -> d' !! Z.to_nat i = written height i)
    (binarizeCE blur blurp dstp width height stride blurStride peak).
Proof.
  pose proof fits as (Hbp & Hw & Hs & Hbs & Hh & Hcov).
  unfold binarizeCE, total. apply sat_bind.
  eapply sat_weaken;
    [|apply (sat_for_range _ _ _
               (fun y st => osrcp st = blurp + blurStride * y /\
                  odstp st = stride * y /\
                  length (odst st) = length dstp /\
                  forall i : Z, 0 <= i ->
                    odst st !! Z.to_nat i = written y i))].
  - cbv beta. intros st (_ & _ & H1 & H2). cbn [sat].
    replace (Z.max 0 height) with height in H2 by lia. auto.
  - intros y st Hy (Hsrc & Hdst & Hlen & Hcell). apply sat_bind.
    rewrite Hsrc, Hdst.
    eapply sat_weaken; [|apply (binarize_row y (odst st)); [lia|exact Hlen] ].
    cbv beta. intros d' (Hlen' & Hrow). cbn [sat osrcp odstp odst].
    split; [lia|]. split; [lia|]. split; [exact Hlen'|].
    intros i Hi. rewrite (Hrow i Hi), (Hcell i Hi). unfold written.
    destruct (Z.ltb_spec 0 stride) as [Hpos|Hzero].
    + cbn [andb].
      pose proof (row_cell y i Hpos ltac:(lia) Hi) as Hrc.
      destruct (Z.leb_spec (stride * y) i), (Z.ltb_spec i (stride * y + width)),
               (Z.ltb_spec (i / stride) y), (Z.ltb_spec (i / stride) (y + 1)),
               (Z.ltb_spec (i mod stride) width);
        cbn [andb]; try reflexivity; try lia.
      destruct Hrc as ((E & _) & _); [lia|]. rewrite <- E.
      replace (i - stride * (i / stride)) with (i mod stride); [reflexivity|].
      pose proof (Z.div_mod i stride ltac:(lia)). lia.
    + cbn [andb].
      destruct (Z.leb_spec (stride * y) i), (Z.ltb_spec i (stride * y + width));
        cbn [andb]; try reflexivity; lia.
  - cbn [osrcp odstp odst]. split; [lia|]. split; [lia|]. split; [reflexivity|].
    intros i Hi. unfold written.
    destruct (Z.ltb_spec 0 stride); cbn [andb]; [|reflexivity].
    destruct (Z.ltb_spec (i / stride) 0); cbn [andb]; [|reflexivity].
    assert (0 <= i / stride) by (apply Z.div_pos; lia). lia.
Qed.

End BinarizeProof.

(** X7.  [binarizeCE] writes [peak] at the pixels of the plane whose
    value in [blur] is [FLT_MAX] ([16777215 * 2^104]) and 0 at its other
    pixels, and nothing between the rows: a cell of [dstp] that is not a
    pixel of the plane keeps its content.  The buffers cover the
    plane. *)
Theorem binarizeCE_marks_confirmed (blur : list float32) (blurp : Z)
  (dstp : list Z) (width height stride blurStride peak : Z) :
  out_fits blur blurp dstp width height stride blurStride ->
  exists d',
    binarizeCE blur blurp dstp width height stride blurStride peak = Done d' /\
    length d' = length dstp /\
    (forall x y, 0 <= x < width -> 0 <= y < height ->
       (blur !! Z.to_nat (blurp + (blurStride * y + x))
        = Some (S754_finite false 16777215 104) ->
        d' !! Z.to_nat (stride * y + x) = Some peak) /\
       (blur !! Z.to_nat (blurp + (blurStride * y + x))
        <> Some (S754_finite false 16777215 104) ->
        d' !! Z.to_nat (stride * y + x) = Some 0)) /\
    (forall j : nat,
       (forall x y, 0 <= x < width -> 0 <= y < height ->
                    j <> Z.to_nat (stride * y + x)) ->
       d' !! j = dstp !! j).
Proof.
  intros Hfit. pose proof Hfit as (Hbp & Hw & Hs & Hbs & Hh & Hcov).
  destruct (total_Done _ _
              (binarizeCE_rows blur blurp dstp width height stride blurStride
                 peak Hfit)) as (d' & E & Hlen & Hcell).
  exists d'. split; [exact E|]. split; [exact Hlen|]. split.
  - intros x y Hx Hy.
    assert (0 < stride) as Hpos by lia.
    assert (0 <= stride * y) by nia.
    assert ((stride * y + x) / stride = y) as Hq.
    { symmetry. apply (Z.div_unique _ stride y x); lia. }
    assert ((stride * y + x) mod stride = x) as Hr.
    { symmetry. apply (Z.mod_unique _ stride y x); lia. }
    rewrite (Hcell (stride * y + x)) by lia. rewrite Hq, Hr.
    destruct (Z.ltb_spec 0 stride); [|lia].
    destruct (Z.ltb_spec y height); [|lia].
    destruct (Z.ltb_spec x width); [|lia]. cbn [andb].
    unfold blur_at, bidx. cbn [fst snd].
    destruct Hcov as (Hb & _); [lia|].
    assert (0 <= blurStride * y <= blurStride * (height - 1)) by nia.
    destruct (lookup_lt_is_Some_2 blur (Z.to_nat (blurp + (blurStride * y + x))))
      as (v & Ev); [lia|].
    rewrite Ev. cbn [default from_option]. change (Datatypes.id v) with v. split.
    + intros Hv. injection Hv as ->. reflexivity.
    + intros Hv. destruct (F32.eqb v F32.FLT_MAX) eqn:Eq; [|reflexivity].
      apply F32Facts.eqb_FLT_MAX in Eq. subst v. contradiction.
  - intros j Hj. specialize (Hcell (Z.of_nat j) ltac:(lia)).
    rewrite Nat2Z.id in Hcell. rewrite Hcell.
    destruct (Z.ltb_spec 0 stride) as [Hpos|]; cbn [andb]; [|reflexivity].
    destruct (Z.ltb_spec (Z.of_nat j / stride) height); cbn [andb];
      [|reflexivity].
    destruct (Z.ltb_spec (Z.of_nat j mod stride) width); [|reflexivity].
    exfalso.
    pose proof (Z.div_mod (Z.of_nat j) stride ltac:(lia)) as Hdm.
    pose proof (Z.mod_pos_bound (Z.of_nat j) stride Hpos).
    assert (0 <= Z.of_nat j / stride) by (apply Z.div_pos; lia).
    apply (Hj (Z.of_nat j mod stride) (Z.of_nat j / stride)); try lia.
Qed.

Lemma binarizeCE_marks_confirmed_witness :
  exists d',
    binarizeCE Example.suppressed 8 (replicate 96 7) 3 3 32 48 255 = Done d' /\
    d' !! 33%nat = Some 0.
Proof.
  destruct (binarizeCE_marks_confirmed Example.suppressed 8 (replicate 96 7)
              3 3 32 48 255) as (d' & E & _ & Hpix & _).
  - unfold out_fits. vm_compute. repeat split; discriminate.
  - exists d'. split; [exact E|].
    apply (Hpix 1 1); [lia|lia|]. vm_compute. discriminate.
Defined.

(** X8.  The three stages that [process] runs after [detectEdge] in
    mode 0, one after the other: the destination plane holds [peak] at
    the pixels tied to an interior pixel [>= t_h] by an 8-connected
    chain of pixels [>= t_l] of the suppressed map, and 0 at every other
    pixel of the plane.  The buffers cover the plane, no magnitude is
    [FLT_MAX], and [-FLT_MAX < t_l < t_h]. *)
Theorem mode_0_edge_map (gradient direction : list float32)
  (width height stride blurStride blurp : Z) (blur0 : list float32)
  (t_h t_l : float32) (fuel : nat) (s : Stack) (dstp : list Z) (peak : Z) :
  nms_fits gradient direction width height stride blurStride blurp blur0 ->
  castable direction width height stride ->
  (forall p, in_plane width height p ->
             grad_at gradient stride p <> F32.FLT_MAX) ->
  Z.of_nat (length (map s)) = width * height ->
  Z.of_nat (length (pos s)) = width * height ->
  width * height < Z.of_nat fuel ->
  F32.ltb t_l t_h = true ->
  F32.ltb F32.NEG_FLT_MAX t_l = true ->
  stride * (height - 1) + width <= Z.of_nat (length dstp) ->
  exists b st d',
    nonMaximumSuppression gradient direction width height stride blurStride
                          blur0 blurp = Done b /\
    hysteresis blurp width height blurStride t_h t_l fuel b s = Done st /\
    binarizeCE (blur st) blurp dstp width height stride blurStride peak
    = Done d' /\
    forall x y, 0 <= x < width -> 0 <= y < height ->
      (connected blurp width height blurStride t_h t_l b (x, y) ->
       d' !! Z.to_nat (stride * y + x) = Some peak) /\
      (~ connected blurp width height blurStride t_h t_l b (x, y) ->
       d' !! Z.to_nat (stride * y + x) = Some 0).
Proof.
  intros Hfit Hcast Hmax Hmap Hpos Hfuel Hlt Hlow Hdst.
  destruct (nms_suppressed _ _ _ _ _ _ _ _ Hfit Hcast Hmax)
    as (b & E & Hlen & Hsup).
  pose proof Hfit as (Hw & Hh & Hs & Hbs & Hbp & _ & _ & Hb).
  assert (plane_fits blurp width height blurStride b (map s)) as Hpf.
  { unfold plane_fits. rewrite Hlen.
    refine (conj Hbp (conj _ (conj _ (conj _ Hmap)))); try lia.
    intros _. assert (blurStride * (height - 1)
                      <= blurStride * (Z.max height 2 - 1)) by nia. lia. }
  destruct (hysteresis_connected blurp width height blurStride t_h t_l b
              fuel s Hpf Hpos Hfuel Hsup Hlt Hlow) as (st & Est & H).
  destruct (hysteresis_runs blurp width height blurStride t_h t_l fuel b s
              Hpf Hpos Hfuel) as (st' & Est' & ((Hpf' & _) & _) & _).
  { intros p Hp Hn. destruct (Hsup p Hp) as (Hborder & _).
    rewrite (Hborder Hn). apply F32Facts.ltb_true_leb_false, Hlow. }
  { intros p Hp. apply Hsup, interior_in_plane, Hp. }
  { apply (F32Facts.ltb_not_nan _ _ Hlt). }
  rewrite Est in Est'. injection Est' as <-.
  destruct Hpf' as (_ & _ & _ & Hcov & _).
  destruct (binarizeCE_marks_confirmed (blur st) blurp dstp width height stride
              blurStride peak) as (d' & Ed & _ & Hpix & _).
  { unfold out_fits. repeat split; try lia; apply Hcov; lia. }
  exists b, st, d'. split; [exact E|]. split; [exact Est|]. split; [exact Ed|].
  intros x y Hx Hy.
  assert (in_plane width height (x, y)) as Hp
    by (unfold in_plane; cbn [fst snd]; lia).
  destruct (H _ Hp) as (Hiff & Hkeep).
  destruct (Hpix x y Hx Hy) as (Hyes & Hno).
  assert (blur st !! Z.to_nat (blurp + (blurStride * y + x))
          = Some (blur_at blurp blurStride (blur st) (x, y))) as Hlook.
  { unfold blur_at, bidx. cbn [fst snd].
    assert (0 <= blurStride * y <= blurStride * (height - 1)) by nia.
    destruct (lookup_lt_is_Some_2 (blur st)
                (Z.to_nat (blurp + (blurStride * y + x)))) as (v & ->);
      [specialize (Hcov ltac:(lia)); lia|reflexivity]. }
  split.
  - intros Hc. apply Hyes. rewrite Hlook. f_equal.
    rewrite <- F32Facts.FLT_MAX_eq. apply Hiff, Hc.
  - intros Hn. apply Hno. rewrite Hlook. intros Heq. injection Heq as Heq.
    apply Hn, Hiff. rewrite Heq. symmetry. apply F32Facts.FLT_MAX_eq.
Qed.

Lemma mode_0_edge_map_witness :
  exists b st d',
    nonMaximumSuppression Example.gradient Example.direction 3 3 32 48
      Example.scratch 8 = Done b /\
    hysteresis 8 3 3 48 (F32.of_int 8) (F32.of_int 1) 10 b Example.stack0
    = Done st /\
    binarizeCE (blur st) 8 (replicate 96 7) 3 3 32 48 255 = Done d' /\
    d' !! 33%nat = Some 255.
Proof.
  destruct (mode_0_edge_map Example.gradient Example.direction 3 3 32 48 8
              Example.scratch (F32.of_int 8) (F32.of_int 1) 10 Example.stack0
              (replicate 96 7) 255 example_fits example_castable
              example_not_confirmed)
    as (b & st & d' & E & Est & Ed & H); try reflexivity.
  { vm_compute. discriminate. }
  exists b, st, d'. split; [exact E|]. split; [exact Est|]. split; [exact Ed|].
  assert (nonMaximumSuppression Example.gradient Example.direction 3 3 32 48
            Example.scratch 8 = Done Example.suppressed) as E'
    by (vm_compute; reflexivity).
  rewrite E' in E. injection E as <-.
  apply (H 1 1); [lia|lia|].
  exists (1, 1), []. split; [unfold interior; cbn [fst snd]; lia|].
  split; [vm_compute; reflexivity|]. split; [vm_compute; reflexivity|].
  reflexivity.
Defined.

(** ** The horizontal pass of the blur *)

(** [gaussianBlurHorizontal]; [bufp], [blurp] and [wp] are the indices
    that the pointers [buffer], [blur] and [weights] stand at ([weights]
    points to the middle of the kernel). *)
Definition gaussianBlurHorizontal (buffer : list float32) (bufp : Z)
  (blur : list float32) (blurp : Z) (weights : list float32) (wp : Z)
  (width radius : Z) : outcome (list float32 * list float32) :=
  do buf <- for_range 1 (radius + 1)
              (fun i buf =>
                 do a <- load BufferOOB buf (bufp + (i - 1));
                 do buf1 <- store BufferOOB buf (bufp + - i) a;
                 do b <- load BufferOOB buf1 (bufp + (width - i));
                 store BufferOOB buf1 (bufp + (width - 1 + i)) b)
              buffer;
  do bl <- for_range 0 width
             (fun x bl =>
                do sum <- for_range (- radius) (radius + 1)
                            (fun i sum =>
                               do v <- load BufferOOB buf (bufp + (x + i));
                               do w <- load WeightsOOB weights (wp + i);
                               Done (F32.add sum (F32.mul v w)))
                            F32.zero;
                store BlurOOB bl (blurp + x) sum)
             blur;
  Done (buf, bl).

(** The sample of a row of [width] samples that mirroring puts at the
    position [j]: the row is repeated to both sides, every second copy
    reversed. *)
Definition mirror (width j : Z) : Z :=
  if j mod (2 * width) <? width then j mod (2 * width)
  else 2 * width - 1 - j mod (2 * width).

Lemma mirror_range (width j : Z) : 0 < width -> 0 <= mirror width j < width.
Proof.
  intros Hw. unfold mirror.
  pose proof (Z.mod_pos_bound j (2 * width) ltac:(lia)).
  destruct (Z.ltb_spec (j mod (2 * width)) width); lia.
Qed.

Lemma mirror_inside (width j : Z) : 0 <= j < width -> mirror width j = j.
Proof.
  intros Hj. unfold mirror. rewrite Z.mod_small by lia.
  destruct (Z.ltb_spec j width); lia.
Qed.

(** Two positions that add up to [-1] modulo [2 * width] hold the same
    sample. *)
Lemma mirror_sym (width j j' k : Z) :
  0 < width -> j' = 2 * width * k - 1 - j -> mirror width j' = mirror width j.
Proof.
  intros Hw ->. unfold mirror.
  pose proof (Z.mod_pos_bound j (2 * width) ltac:(lia)) as Hm.
  pose proof (Z.div_mod j (2 * width) ltac:(lia)) as Hdm.
  assert ((2 * width * k - 1 - j) mod (2 * width)
          = 2 * width - 1 - j mod (2 * width)) as ->.
  { symmetry.
    apply (Z.mod_unique _ (2 * width) (k - 1 - j / (2 * width))); lia. }
  destruct (Z.ltb_spec (2 * width - 1 - j mod (2 * width)) width),
           (Z.ltb_spec (j mod (2 * width)) width); lia.
Qed.

Section HorizontalProof.

Variables (buffer : list float32) (bufp : Z).
Variables (width radius : Z).

Hypothesis width_pos : 1 <= width.
Hypothesis radius_nonneg : 0 <= radius.
Hypothesis buffer_fits :
  radius <= bufp /\ bufp + width + radius <= Z.of_nat (length buffer).

(** The row after the first [n] steps of the padding loop. *)
Let padded (n : Z) (buf : list float32) : Prop :=
  length buf = length buffer /\
  forall j : Z, 0 <= bufp + j < Z.of_nat (length buffer) ->
    buf !! Z.to_nat (bufp + j)
    = if (- n <=? j) && (j <? width + n)
      then buffer !! Z.to_nat (bufp + mirror width j)
      else buffer !! Z.to_nat (bufp + j).

Lemma padding_loop :
  total (padded radius)
    (for_range 1 (radius + 1)
       (fun i buf =>
          do a <- load BufferOOB buf (bufp + (i - 1));
          do buf1 <- store BufferOOB buf (bufp + - i) a;
          do b <- load BufferOOB buf1 (bufp + (width - i));
          store BufferOOB buf1 (bufp + (width - 1 + i)) b)
       buffer).
Proof.
  destruct buffer_fits as (Hlo & Hhi). unfold total.
  eapply sat_weaken;
    [|apply (sat_for_range _ _ _ (fun i buf => padded (i - 1) buf))].
  - cbv beta. intros buf H.
    replace (Z.max 1 (radius + 1) - 1) with radius in H by lia. exact H.
  - intros i buf Hi (Hlen & Hcell).
    (* a = buffer[mirror (i - 1)] *)
    assert (exists a, buffer !! Z.to_nat (bufp + mirror width (i - 1)) = Some a)
      as (a & Ea).
    { pose proof (mirror_range width (i - 1) ltac:(lia)).
      apply lookup_lt_is_Some_2. lia. }
    rewrite (load_Done _ _ _ a); [|lia|].
    2:{ rewrite Hcell by lia.
        destruct (Z.leb_spec (- (i - 1)) (i - 1)); [|lia].
        destruct (Z.ltb_spec (i - 1) (width + (i - 1))); [|lia]. exact Ea. }
    cbn [bind]. rewrite store_Done by lia. cbn [bind].
    assert (exists b, buffer !! Z.to_nat (bufp + mirror width (width - i)) = Some b)
      as (b & Eb).
    { pose proof (mirror_range width (width - i) ltac:(lia)).
      apply lookup_lt_is_Some_2. lia. }
    rewrite (load_Done _ _ _ b); [|lia|].
    2:{ rewrite list_lookup_insert_ne by lia. rewrite Hcell by lia.
        destruct (Z.leb_spec (- (i - 1)) (width - i)); [|lia].
        destruct (Z.ltb_spec (width - i) (width + (i - 1))); [|lia]. exact Eb. }
    cbn [bind]. rewrite store_Done by (rewrite length_insert; lia).
    cbn [sat]. split; [rewrite !length_insert; exact Hlen|].
    intros j Hj. replace (i + 1 - 1) with i by lia.
    destruct (Z.eq_dec j (width - 1 + i)) as [->|Hne1].
    { rewrite list_lookup_insert_eq by (rewrite length_insert; lia).
      destruct (Z.leb_spec (- i) (width - 1 + i)); [|lia].
      destruct (Z.ltb_spec (width - 1 + i) (width + i)); [|lia]. cbn [andb].
      rewrite (mirror_sym width (width - i) (width - 1 + i) 1) by lia.
      symmetry. exact Eb. }
    rewrite list_lookup_insert_ne by lia.
    destruct (Z.eq_dec j (- i)) as [->|Hne2].
    { rewrite list_lookup_insert_eq by lia.
      destruct (Z.leb_spec (- i) (- i)); [|lia].
      destruct (Z.ltb_spec (- i) (width + i)); [|lia]. cbn [andb].
      rewrite (mirror_sym width (i - 1) (- i) 0) by lia.
      symmetry. exact Ea. }
    rewrite list_lookup_insert_ne by lia. rewrite Hcell by lia.
    destruct (Z.leb_spec (- (i - 1)) j), (Z.ltb_spec j (width + (i - 1))),
             (Z.leb_spec (- i) j), (Z.ltb_spec j (width + i));
      cbn [andb]; try reflexivity; lia.
  - split; [reflexivity|]. intros j Hj.
    destruct (Z.leb_spec (- (1 - 1)) j), (Z.ltb_spec j (width + (1 - 1)));
      cbn [andb]; try reflexivity.
    rewrite mirror_inside by lia. reflexivity.
Qed.

End HorizontalProof.

Section ConvolutionProof.

Variables (buf : list float32) (bufp : Z).
Variables (blur : list float32) (blurp : Z).
Variables (weights : list float32) (wp : Z).
Variables (width radius : Z).

Hypothesis radius_nonneg : 0 <= radius.
Hypothesis width_nonneg : 0 <= width.
Hypothesis buf_fits :
  radius <= bufp /\ bufp + width + radius <= Z.of_nat (length buf).
Hypothesis weights_fit :
  radius <= wp /\ wp + radius < Z.of_nat (length weights).
Hypothesis blur_fits :
  0 <= blurp /\ blurp + width <= Z.of_nat (length blur).

Let term (x i : Z) : float32 :=
  F32.mul (default S754_nan (buf !! Z.to_nat (bufp + (x + i))))
          (default S754_nan (weights !! Z.to_nat (wp + i))).

Let partial (x n : Z) : float32 :=
  fold_left (fun s i => F32.add s (term x i)) (seqZ (- radius) n) F32.zero.

Lemma sum_loop (x : Z) :
  0 <= x < width ->
  total (fun sum => sum = partial x (2 * radius + 1))
    (for_range (- radius) (radius + 1)
       (fun i sum =>
          do v <- load BufferOOB buf (bufp + (x + i));
          do w <- load WeightsOOB weights (wp + i);
          Done (F32.add sum (F32.mul v w)))
       F32.zero).
Proof.
  intros Hx. destruct buf_fits as (Hb1 & Hb2), weights_fit as (Hw1 & Hw2).
  unfold total.
  eapply sat_weaken;
    [|apply (sat_for_range _ _ _ (fun i sum => sum = partial x (i + radius)))].
  - cbv beta. intros sum ->. f_equal. lia.
  - intros i sum Hi ->.
    destruct (lookup_lt_is_Some_2 buf (Z.to_nat (bufp + (x + i))))
      as (v & Ev); [lia|].
    destruct (lookup_lt_is_Some_2 weights (Z.to_nat (wp + i)))
      as (w & Ew); [lia|].
    rewrite (load_Done _ _ _ v) by (trivial; lia). cbn [bind].
    rewrite (load_Done _ _ _ w) by (trivial; lia). cbn [bind sat].
    unfold partial. replace (i + 1 + radius) with ((i + radius) + 1) by lia.
    rewrite (seqZ_app (- radius) (i + radius) 1) by lia.
    rewrite fold_left_app. replace (- radius + (i + radius)) with i by lia.
    rewrite (seqZ_cons i 1) by lia.
    rewrite (seqZ_nil (Z.succ i) (Z.pred 1)) by lia.
    cbn [fold_left]. unfold term. rewrite Ev, Ew. reflexivity.
  - unfold partial. replace (- radius + radius) with 0 by lia. reflexivity.
Qed.

Lemma convolution_loop :
  total
    (fun bl => length bl = length blur /\
               forall k : Z, 0 <= k ->
                 bl !! Z.to_nat k
                 = if (blurp <=? k) && (k <? blurp + width)
                   then Some (partial (k - blurp) (2 * radius + 1))
                   else blur !! Z.to_nat k)
    (for_range 0 width
       (fun x bl =>
          do sum <- for_range (- radius) (radius + 1)
                      (fun i sum =>
                         do v <- load BufferOOB buf (bufp + (x + i));
                         do w <- load WeightsOOB weights (wp + i);
                         Done (F32.add sum (F32.mul v w)))
                      F32.zero;
          store BlurOOB bl (blurp + x) sum)
       blur).
Proof.
  destruct blur_fits as (Hp & Hlen). unfold total.
  eapply sat_weaken;
    [|apply (sat_for_range _ _ _
               (fun x bl => length bl = length blur /\
                  forall k : Z, 0 <= k ->
                    bl !! Z.to_nat k
                    = if (blurp <=? k) && (k <? blurp + x)
                      then Some (partial (k - blurp) (2 * radius + 1))
                      else blur !! Z.to_nat k))].
  - cbv beta. intros bl (H1 & H2). split; [exact H1|]. intros k Hk.
    rewrite (H2 k Hk).
    destruct (Z.ltb_spec k (blurp + Z.max 0 width)), (Z.ltb_spec k (blurp + width));
      try reflexivity; lia.
  - intros x bl Hx (H1 & H2). apply sat_bind.
    eapply sat_weaken; [|apply (sum_loop x); lia].
    cbv beta. intros sum ->. rewrite store_Done by lia. cbn [sat].
    split; [rewrite length_insert; exact H1|]. intros k Hk.
    destruct (Z.eq_dec k (blurp + x)) as [->|Hne].
    + rewrite list_lookup_insert_eq by lia.
      destruct (Z.leb_spec blurp (blurp + x)); [|lia].
      destruct (Z.ltb_spec (blurp + x) (blurp + (x + 1))); [|lia]. cbn [andb].
      replace (blurp + x - blurp) with x by lia. reflexivity.
    + rewrite list_lookup_insert_ne by lia. rewrite (H2 k Hk).
      destruct (Z.leb_spec blurp k); [|reflexivity]. cbn [andb].
      destruct (Z.ltb_spec k (blurp + x)), (Z.ltb_spec k (blurp + (x + 1)));
        try reflexivity; lia.
  - split; [reflexivity|]. intros k Hk.
    destruct (Z.leb_spec blurp k); [|reflexivity]. cbn [andb].
    destruct (Z.ltb_spec k (blurp + 0)); [lia|reflexivity].
Qed.

End ConvolutionProof.

(** X9.  [gaussianBlurHorizontal] extends the row in [buffer] by
    [radius] samples on both sides by mirroring — position [j] receives
    the sample of position [m = j mod (2 * width)] when [m < width] and
    of [2 * width - 1 - m] otherwise, also when the radius exceeds the
    width — and leaves the rest of [buffer] as it is; it then writes,
    for every [x] of the row, the binary32 sum of the products
    [buffer[x + i] * weights[i]], added from [i = -radius] to
    [i = radius] starting from zero, into [blur[x]], and nothing else
    into [blur].  The row is not empty and the three arrays hold the
    cells that are read and written. *)
Theorem gaussianBlurHorizontal_mirrors (buffer : list float32) (bufp : Z)
  (blur : list float32) (blurp : Z) (weights : list float32) (wp : Z)
  (width radius : Z) :
  1 <= width -> 0 <= radius ->
  radius <= bufp /\ bufp + width + radius <= Z.of_nat (length buffer) ->
  radius <= wp /\ wp + radius < Z.of_nat (length weights) ->
  0 <= blurp /\ blurp + width <= Z.of_nat (length blur) ->
  exists buf bl,
    gaussianBlurHorizontal buffer bufp blur blurp weights wp width radius
    = Done (buf, bl) /\
    length buf = length buffer /\ length bl = length blur /\
    (forall j, - radius <= j < width + radius ->
       buf !! Z.to_nat (bufp + j)
       = buffer !! Z.to_nat
           (bufp + (if j mod (2 * width) <? width then j mod (2 * width)
                    else 2 * width - 1 - j mod (2 * width)))) /\
    (forall k : nat,
       Z.of_nat k < bufp - radius \/ bufp + width + radius <= Z.of_nat k ->
       buf !! k = buffer !! k) /\
    (forall x, 0 <= x < width ->
       bl !! Z.to_nat (blurp + x)
       = Some (fold_left
                 (fun s i =>
                    SFadd 24 128 s
                      (SFmul 24 128
                         (default S754_nan (buf !! Z.to_nat (bufp + (x + i))))
                         (default S754_nan (weights !! Z.to_nat (wp + i)))))
                 (seqZ (- radius) (2 * radius + 1)) (S754_zero false))) /\
    (forall k : nat,
       Z.of_nat k < blurp \/ blurp + width <= Z.of_nat k ->
       bl !! k = blur !! k).
Proof.
  intros Hw Hr Hbuf Hwt Hbl. unfold gaussianBlurHorizontal.
  destruct (total_Done _ _ (padding_loop buffer bufp width radius Hw Hr Hbuf))
    as (buf & -> & Hlen & Hcell). cbn [bind].
  assert (radius <= bufp /\ bufp + width + radius <= Z.of_nat (length buf))
    as Hbuf' by (rewrite Hlen; exact Hbuf).
  destruct (total_Done _ _
              (convolution_loop buf bufp blur blurp weights wp width radius
                 Hr ltac:(lia) Hbuf' Hwt Hbl)) as (bl & -> & Hlen' & Hcell').
  cbn [bind].
  exists buf, bl. split; [reflexivity|]. split; [exact Hlen|].
  split; [exact Hlen'|]. split; [|split; [|split] ].
  - intros j Hj. rewrite Hcell by lia.
    destruct (Z.leb_spec (- radius) j), (Z.ltb_spec j (width + radius));
      try lia. reflexivity.
  - intros k Hk.
    destruct (Z.lt_ge_cases (Z.of_nat k) (Z.of_nat (length buffer))) as [Hin|Hout].
    + specialize (Hcell (Z.of_nat k - bufp)).
      replace (bufp + (Z.of_nat k - bufp)) with (Z.of_nat k) in Hcell by lia.
      rewrite Nat2Z.id in Hcell. rewrite Hcell by lia.
      destruct (Z.leb_spec (- radius) (Z.of_nat k - bufp)),
               (Z.ltb_spec (Z.of_nat k - bufp) (width + radius));
        cbn [andb]; try reflexivity; lia.
    + rewrite !lookup_ge_None_2 by lia. reflexivity.
  - intros x Hx. rewrite Hcell' by lia.
    destruct (Z.leb_spec blurp (blurp + x)), (Z.ltb_spec (blurp + x) (blurp + width));
      try lia. cbn [andb]. replace (blurp + x - blurp) with x by lia.
    reflexivity.
  - intros k Hk. specialize (Hcell' (Z.of_nat k) ltac:(lia)).
    rewrite Nat2Z.id in Hcell'. rewrite Hcell'.
    destruct (Z.leb_spec blurp (Z.of_nat k)),
             (Z.ltb_spec (Z.of_nat k) (blurp + width));
      cbn [andb]; try reflexivity; lia.
Qed.

(** A row of two samples, mirrored over a radius of three. *)
Lemma gaussianBlurHorizontal_mirrors_witness :
  exists buf bl,
    gaussianBlurHorizontal
      (replicate 3 F32.zero ++ [F32.of_int 1; F32.of_int 2]
         ++ replicate 3 F32.zero) 3
      (replicate 2 F32.zero) 0 (replicate 7 F32.half) 3 2 3
    = Done (buf, bl) /\
    buf !! 0%nat = Some (F32.of_int 2) /\ buf !! 7%nat = Some (F32.of_int 1).
Proof.
  destruct (gaussianBlurHorizontal_mirrors
              (replicate 3 F32.zero ++ [F32.of_int 1; F32.of_int 2]
                 ++ replicate 3 F32.zero) 3
              (replicate 2 F32.zero) 0 (replicate 7 F32.half) 3 2 3)
    as (buf & bl & E & _ & _ & Hm & _); try (cbn; lia).
  exists buf, bl. split; [exact E|]. split.
  - apply (Hm (-3)). lia.
  - apply (Hm 4). lia.
Defined.
